(** * A shallow embedding of [smart_pointers.h]

    The header implements a reference-counted owning handle ([SharedPtr]),
    a non-owning observer ([WeakPtr]), two control-block variants
    ([ControlBlockRegular], [ControlBlockMakeShared]) and the factories
    [allocateShared] / [makeShared].

    Modelling choices.
    - [size_t] counters are [Z] values with the 64-bit wrap-around of
      [++] and [--] written out.
    - Control blocks live in a heap indexed by allocation identities
      ([loc]); an identity is never handed out twice, so "this block" is
      unambiguous in the event log.  Storage is raw between [allocate] and
      the placement-new.
    - Handle objects are C++ objects with an identity: they live in two
      stores indexed by variable name, so that [this == &other] and the
      aliasing of a self-move are what they are in the source.
      Temporaries ([copy] in the copy-and-swap assignments, the temporary
      of [reset]) are local values of the monadic code, as they are locals
      in the source.
    - A C++ exception is the [Throw] outcome; undefined behaviour (use of
      a dangling block, of a handle object that does not exist, of a null
      handle by [operator*]) is [UB].
    - The virtual calls [destroy()] and [deallocate()] and the call of
      the deleter are recorded in an event log.
    - The member templates over a related type [U] have the bodies of
      their non-template siblings and are not modelled a second time (the
      templated copy assignment lacks the self-assignment test, but its
      argument is never the object itself).
    - The value type [T] is a parameter.  Its constructor may throw.
      Its destructor [T_dtor] and the call operator [deleter_call] of a
      caller-supplied deleter are code of the client that the handles
      run inside [destroy()]: they are parameters too, computations of
      the same monad, so that a value may own handles, of its own control
      block as well.  [plain_dtor] and [plain_call] are the destructor
      and the deleter that run no code the model sees.
    - The objects the client makes with [new] live in a store of their
      own; [delete] on an address that holds no such object (it was
      deleted already, or [new] never returned it) is undefined, as is
      [delete] on the value embedded in a control block. *)

From Stdlib Require Import ZArith Lia.
From stdpp Require Import gmap strings list fin_maps.

Local Open Scope Z_scope.

(** ** Machine integers *)

(** [size_t] on the 64-bit targets the header is written for. *)
Definition SIZE_MOD : Z := 2 ^ 64.

(** [++c] on a [size_t]. *)
Definition size_incr (c : Z) : Z := (c + 1) mod SIZE_MOD.

(** [--c] on a [size_t]. *)
Definition size_decr (c : Z) : Z := (c - 1) mod SIZE_MOD.

(** ** Pointers, deleters, allocators *)

Definition loc := nat.
Definition addr := nat.
Definition var := string.

(** A [T*]: null, the address of an object the caller allocated, or the
    address of the value embedded in a combined block ([&cb->ptr]). *)
Inductive pointer :=
  | nullptr
  | at_object (a : addr)
  | at_embedded (b : loc).

#[global] Instance pointer_eq_dec : EqDecision pointer.
Proof. solve_decision. Defined.

(** The [Deleter] template argument: [std::default_delete<T>] or some
    caller-supplied callable. *)
Inductive Deleter :=
  | default_delete
  | custom_deleter (id : nat).

#[global] Instance Deleter_eq_dec : EqDecision Deleter.
Proof. solve_decision. Defined.

(** The [Alloc] template argument.  [always_fails] tells whether
    [allocate] throws. *)
Record Alloc := { alloc_id : nat; always_fails : bool }.

(** [std::allocator<T>]. *)
Definition std_allocator : Alloc := {| alloc_id := 0; always_fails := false |}.

(** Calls observable from outside the handles. *)
Inductive Event :=
  | EvDeleter (d : Deleter) (p : pointer)
  | EvDestroy (b : loc)
  | EvDeallocate (b : loc).

#[global] Instance Event_eq_dec : EqDecision Event.
Proof. solve_decision. Defined.

(** Handles: [T* ptr = nullptr; BaseControlBlock* cb = nullptr;]. *)
Record SharedPtr := { sp_ptr : pointer; sp_cb : option loc }.
Record WeakPtr := { wp_ptr : pointer; wp_cb : option loc }.

Definition SharedPtr_null : SharedPtr := {| sp_ptr := nullptr; sp_cb := None |}.
Definition WeakPtr_null : WeakPtr := {| wp_ptr := nullptr; wp_cb := None |}.

Section SmartPointers.

Context {T : Type} {Args : Type}.

(** [T(std::forward<Args>(args)...)]: [None] when the constructor throws. *)
Variable T_ctor : Args -> option T.

(** ** Control blocks *)

(** The two concrete classes derived from [BaseControlBlock].  The value
    embedded in a combined block is [None] once [destroy()] has ended its
    lifetime. *)
Inductive ControlBlockBody :=
  | ControlBlockRegular (ptr : pointer) (deleter : Deleter) (alloc : Alloc)
  | ControlBlockMakeShared (ptr : option T) (alloc : Alloc).

Record ControlBlock := {
  shared_count : Z;
  weak_count : Z;
  body : ControlBlockBody
}.

(** Storage obtained from [allocate]: raw until the placement-new ran. *)
Inductive Cell :=
  | Raw
  | Constructed (cb : ControlBlock).

Record State := {
  heap : gmap loc Cell;
  next_loc : loc;
  objs : gmap addr T;
  strongs : gmap var SharedPtr;
  weaks : gmap var WeakPtr;
  log : list Event
}.

Definition init : State :=
  {| heap := ∅; next_loc := 0%nat; objs := ∅; strongs := ∅; weaks := ∅; log := [] |}.

(** ** The monad of the embedding *)

Inductive Res (A : Type) :=
  | Ok (a : A) (σ : State)
  | Throw (σ : State)
  | UB.
Arguments Ok {A} a σ.
Arguments Throw {A} σ.
Arguments UB {A}.

Definition M (A : Type) := State -> Res A.

Definition ret {A} (a : A) : M A := fun σ => Ok a σ.

Definition bind {A B} (m : M A) (k : A -> M B) : M B :=
  fun σ => match m σ with
           | Ok a σ' => k a σ'
           | Throw σ' => Throw σ'
           | UB => UB
           end.

Definition undefined {A} : M A := fun _ => UB.
Definition throw {A} : M A := fun σ => Throw σ.

Notation "x <- m ;; k" := (bind m (fun x => k))
  (at level 100, m at next level, k at level 200, right associativity).
Notation "'do' m ;; k" := (bind m (fun _ => k))
  (at level 100, m at next level, k at level 200, right associativity).

(** ** Code of the client *)

(** [~T()], and [operator()] of the caller-supplied deleter with the given
    identity.  Both run inside [destroy()], on whatever state it has
    reached. *)
Variable T_dtor : T -> M unit.
Variable deleter_call : nat -> pointer -> M unit.

(** ** State primitives *)

Definition set_heap (h : gmap loc Cell) (σ : State) : State :=
  {| heap := h; next_loc := next_loc σ; objs := objs σ;
     strongs := strongs σ; weaks := weaks σ; log := log σ |}.
Definition set_objs (o : gmap addr T) (σ : State) : State :=
  {| heap := heap σ; next_loc := next_loc σ; objs := o;
     strongs := strongs σ; weaks := weaks σ; log := log σ |}.
Definition set_strongs (s : gmap var SharedPtr) (σ : State) : State :=
  {| heap := heap σ; next_loc := next_loc σ; objs := objs σ;
     strongs := s; weaks := weaks σ; log := log σ |}.
Definition set_weaks (w : gmap var WeakPtr) (σ : State) : State :=
  {| heap := heap σ; next_loc := next_loc σ; objs := objs σ;
     strongs := strongs σ; weaks := w; log := log σ |}.

(** Read [*cb]; a block that is not constructed storage is a dangling or
    wild pointer. *)
Definition get_block (b : loc) : M ControlBlock :=
  fun σ => match heap σ !! b with
           | Some (Constructed cb) => Ok cb σ
           | _ => UB
           end.

Definition put_block (b : loc) (cb : ControlBlock) : M unit :=
  fun σ => Ok tt (set_heap (<[b := Constructed cb]> (heap σ)) σ).

Definition emit (e : Event) : M unit :=
  fun σ => Ok tt {| heap := heap σ; next_loc := next_loc σ; objs := objs σ;
                    strongs := strongs σ; weaks := weaks σ; log := log σ ++ [e] |}.

(** Handle objects. *)
Definition get_strong (v : var) : M SharedPtr :=
  fun σ => match strongs σ !! v with Some h => Ok h σ | None => UB end.
Definition set_strong (v : var) (h : SharedPtr) : M unit :=
  fun σ => match strongs σ !! v with
           | Some _ => Ok tt (set_strongs (<[v := h]> (strongs σ)) σ)
           | None => UB
           end.
(** A declaration brings a new object into existence. *)
Definition new_strong (v : var) (h : SharedPtr) : M unit :=
  fun σ => match strongs σ !! v with
           | None => Ok tt (set_strongs (<[v := h]> (strongs σ)) σ)
           | Some _ => UB
           end.
Definition end_strong (v : var) : M unit :=
  fun σ => Ok tt (set_strongs (delete v (strongs σ)) σ).

Definition get_weak (v : var) : M WeakPtr :=
  fun σ => match weaks σ !! v with Some h => Ok h σ | None => UB end.
Definition set_weak (v : var) (h : WeakPtr) : M unit :=
  fun σ => match weaks σ !! v with
           | Some _ => Ok tt (set_weaks (<[v := h]> (weaks σ)) σ)
           | None => UB
           end.
Definition new_weak (v : var) (h : WeakPtr) : M unit :=
  fun σ => match weaks σ !! v with
           | None => Ok tt (set_weaks (<[v := h]> (weaks σ)) σ)
           | Some _ => UB
           end.
Definition end_weak (v : var) : M unit :=
  fun σ => Ok tt (set_weaks (delete v (weaks σ)) σ).

(** [new T(x)] in client code, at an address that is not in use. *)
Definition new_object (a : addr) (x : T) : M unit :=
  fun σ => match objs σ !! a with
           | None => Ok tt (set_objs (<[a := x]> (objs σ)) σ)
           | Some _ => UB
           end.

(** The object named [v] ends its lifetime; its fields are handed to the
    destructor body. *)
Definition take_strong (v : var) : M SharedPtr :=
  h <- get_strong v ;; do end_strong v ;; ret h.
Definition take_weak (v : var) : M WeakPtr :=
  h <- get_weak v ;; do end_weak v ;; ret h.

(** ** Control-block operations *)

Definition with_shared (n : Z) (cb : ControlBlock) : ControlBlock :=
  {| shared_count := n; weak_count := weak_count cb; body := body cb |}.
Definition with_weak (n : Z) (cb : ControlBlock) : ControlBlock :=
  {| shared_count := shared_count cb; weak_count := n; body := body cb |}.
Definition with_body (bd : ControlBlockBody) (cb : ControlBlock) : ControlBlock :=
  {| shared_count := shared_count cb; weak_count := weak_count cb; body := bd |}.

(** [++(cb->shared_count)], [--(cb->shared_count)], and the same for
    [weak_count]. *)
Definition incr_shared (b : loc) : M unit :=
  cb <- get_block b ;; put_block b (with_shared (size_incr (shared_count cb)) cb).
Definition decr_shared (b : loc) : M unit :=
  cb <- get_block b ;; put_block b (with_shared (size_decr (shared_count cb)) cb).
Definition incr_weak (b : loc) : M unit :=
  cb <- get_block b ;; put_block b (with_weak (size_incr (weak_count cb)) cb).
Definition decr_weak (b : loc) : M unit :=
  cb <- get_block b ;; put_block b (with_weak (size_decr (weak_count cb)) cb).

(** [delete p] on a [T*].  Null: nothing happens.  A live object made by
    [new]: its destructor runs, then its storage is released.  Anything
    else (an object that was deleted already, an address [new] never
    returned, the value embedded in a control block) is undefined. *)
Definition delete_expr (p : pointer) : M unit :=
  match p with
  | nullptr => ret tt
  | at_object a =>
      fun σ => match objs σ !! a with
               | Some x =>
                   (do T_dtor x ;;
                    fun σ' => Ok tt (set_objs (delete a (objs σ')) σ')) σ
               | None => UB
               end
  | at_embedded _ => undefined
  end.

(** [deleter(ptr)]: [std::default_delete] is [delete ptr]; any other
    deleter is the client's code. *)
Definition call_deleter (d : Deleter) (p : pointer) : M unit :=
  do emit (EvDeleter d p) ;;
  match d with
  | default_delete => delete_expr p
  | custom_deleter id => deleter_call id p
  end.

(** [cb->destroy()], dispatched on the dynamic type of the block.
    [ControlBlockRegular]: [deleter(ptr); ptr = nullptr;], the assignment
    being a write to [*this] after the deleter has returned.
    [ControlBlockMakeShared]: the lifetime of the embedded value ends and
    its destructor runs. *)
Definition destroy (b : loc) : M unit :=
  cb <- get_block b ;;
  do emit (EvDestroy b) ;;
  match body cb with
  | ControlBlockRegular p d a =>
      do call_deleter d p ;;
      cb' <- get_block b ;;
      put_block b (with_body (ControlBlockRegular nullptr d a) cb')
  | ControlBlockMakeShared x a =>
      do put_block b (with_body (ControlBlockMakeShared None a) cb) ;;
      match x with
      | Some v => T_dtor v
      | None => ret tt
      end
  end.

(** [cb->deallocate()]: both variants hand [this] back to the rebound
    allocator. *)
Definition deallocate (b : loc) : M unit :=
  do get_block b ;;
  do emit (EvDeallocate b) ;;
  fun σ => Ok tt (set_heap (delete b (heap σ)) σ).

(** [allocator_traits::allocate(alloc, 1)]. *)
Definition allocate (a : Alloc) : M loc :=
  if always_fails a then throw
  else fun σ =>
    Ok (next_loc σ)
       {| heap := <[next_loc σ := Raw]> (heap σ); next_loc := S (next_loc σ);
          objs := objs σ; strongs := strongs σ; weaks := weaks σ; log := log σ |}.

(** ** SharedPtr *)

(** [SharedPtr(ControlBlockMakeShared<T, Alloc>* cb)] (private). *)
Definition SharedPtr_from_block (cb : option loc) : M SharedPtr :=
  do match cb with Some b => incr_shared b | None => ret tt end ;;
  ret {| sp_ptr := nullptr; sp_cb := cb |}.

(** [SharedPtr(const WeakPtr<T>& p)] (private). *)
Definition SharedPtr_from_weak (p : WeakPtr) : M SharedPtr :=
  do match wp_cb p with Some b => incr_shared b | None => ret tt end ;;
  ret {| sp_ptr := wp_ptr p; sp_cb := wp_cb p |}.

(** [SharedPtr(U* ptr, Deleter deleter, Alloc alloc)]. *)
Definition SharedPtr_ptr_ctor (p : pointer) (d : Deleter) (a : Alloc) : M SharedPtr :=
  pt <- allocate a ;;
  do put_block pt {| shared_count := 0; weak_count := 0;
                     body := ControlBlockRegular p d a |} ;;
  do incr_shared pt ;;
  ret {| sp_ptr := p; sp_cb := Some pt |}.

(** [SharedPtr(const SharedPtr& other)]. *)
Definition SharedPtr_copy_ctor (other : SharedPtr) : M SharedPtr :=
  do match sp_cb other with Some b => incr_shared b | None => ret tt end ;;
  ret {| sp_ptr := sp_ptr other; sp_cb := sp_cb other |}.

(** [SharedPtr(SharedPtr&& other)]: [other] is an object, it is emptied. *)
Definition SharedPtr_move_ctor (other : var) : M SharedPtr :=
  o <- get_strong other ;;
  do set_strong other SharedPtr_null ;;
  ret {| sp_ptr := sp_ptr o; sp_cb := sp_cb o |}.

(** [~SharedPtr()], run on the fields of the dying object. *)
Definition SharedPtr_dtor (this : SharedPtr) : M unit :=
  match sp_cb this with
  | None => ret tt
  | Some b =>
      do decr_shared b ;;
      cb <- get_block b ;;
      if decide (shared_count cb = 0) then
        do destroy b ;;
        cb' <- get_block b ;;
        if decide (weak_count cb' = 0) then deallocate b else ret tt
      else ret tt
  end.

(** [swap] between two named handles. *)
Definition SharedPtr_swap (this other : var) : M unit :=
  a <- get_strong this ;;
  b <- get_strong other ;;
  do set_strong this b ;;
  set_strong other a.

(** [swap] between a named handle and a temporary; the new contents of
    the temporary are returned. *)
Definition SharedPtr_swap_temp (this : var) (tmp : SharedPtr) : M SharedPtr :=
  a <- get_strong this ;;
  do set_strong this tmp ;;
  ret a.

(** [operator=(const SharedPtr& other)]. *)
Definition SharedPtr_assign (this other : var) : M unit :=
  if decide (this = other) then do get_strong this ;; ret tt
  else
    o <- get_strong other ;;
    copy <- SharedPtr_copy_ctor o ;;
    copy <- SharedPtr_swap_temp this copy ;;
    SharedPtr_dtor copy.

(** [operator=(SharedPtr&& other)]. *)
Definition SharedPtr_move_assign (this other : var) : M unit :=
  copy <- SharedPtr_move_ctor other ;;
  copy <- SharedPtr_swap_temp this copy ;;
  SharedPtr_dtor copy.

(** [use_count()]. *)
Definition SharedPtr_use_count (this : var) : M Z :=
  h <- get_strong this ;;
  match sp_cb h with
  | None => ret 0
  | Some b => cb <- get_block b ;; ret (shared_count cb)
  end.

(** [reset()]. *)
Definition SharedPtr_reset (this : var) : M unit :=
  tmp <- SharedPtr_swap_temp this SharedPtr_null ;;
  SharedPtr_dtor tmp.

(** [reset(U* ptr, Deleter del, Alloc alloc)]. *)
Definition SharedPtr_reset_ptr (this : var) (p : pointer) (d : Deleter) (a : Alloc) : M unit :=
  tmp <- SharedPtr_ptr_ctor p d a ;;
  tmp <- SharedPtr_swap_temp this tmp ;;
  SharedPtr_dtor tmp.

(** Reading through a [T*]. *)
Definition load (p : pointer) : M T :=
  match p with
  | nullptr => undefined
  | at_object a => fun σ => match objs σ !! a with Some x => Ok x σ | None => UB end
  | at_embedded b =>
      cb <- get_block b ;;
      match body cb with
      | ControlBlockMakeShared (Some x) _ => ret x
      | _ => undefined
      end
  end.

(** [static_cast<ControlBlockMakeShared<T>*>(cb)]: the cast is only
    meaningful on a combined block. *)
Definition as_make_shared (cb : option loc) : M loc :=
  match cb with
  | None => undefined
  | Some b =>
      blk <- get_block b ;;
      match body blk with
      | ControlBlockMakeShared _ _ => ret b
      | ControlBlockRegular _ _ _ => undefined
      end
  end.

(** [operator->()]. *)
Definition SharedPtr_arrow (this : var) : M pointer :=
  h <- get_strong this ;;
  if decide (sp_ptr h ≠ nullptr) then ret (sp_ptr h)
  else b <- as_make_shared (sp_cb h) ;; ret (at_embedded b).

(** [operator*()]. *)
Definition SharedPtr_deref (this : var) : M T :=
  h <- get_strong this ;;
  if decide (sp_ptr h ≠ nullptr) then load (sp_ptr h)
  else b <- as_make_shared (sp_cb h) ;; load (at_embedded b).

(** [get()]. *)
Definition SharedPtr_get (this : var) : M pointer :=
  h <- get_strong this ;; ret (sp_ptr h).

(** ** WeakPtr *)

(** [WeakPtr(const SharedPtr<T>& shared)]. *)
Definition WeakPtr_from_shared (shared : SharedPtr) : M WeakPtr :=
  do match sp_cb shared with Some b => incr_weak b | None => ret tt end ;;
  ret {| wp_ptr := sp_ptr shared; wp_cb := sp_cb shared |}.

(** [WeakPtr(const WeakPtr& other)]. *)
Definition WeakPtr_copy_ctor (other : WeakPtr) : M WeakPtr :=
  do match wp_cb other with Some b => incr_weak b | None => ret tt end ;;
  ret {| wp_ptr := wp_ptr other; wp_cb := wp_cb other |}.

(** [WeakPtr(WeakPtr&& other)]. *)
Definition WeakPtr_move_ctor (other : var) : M WeakPtr :=
  o <- get_weak other ;;
  do set_weak other WeakPtr_null ;;
  ret {| wp_ptr := wp_ptr o; wp_cb := wp_cb o |}.

(** [~WeakPtr()]. *)
Definition WeakPtr_dtor (this : WeakPtr) : M unit :=
  match wp_cb this with
  | None => ret tt
  | Some b =>
      do decr_weak b ;;
      cb <- get_block b ;;
      if decide (weak_count cb = 0 ∧ shared_count cb = 0) then deallocate b
      else ret tt
  end.

Definition WeakPtr_swap (this other : var) : M unit :=
  a <- get_weak this ;;
  b <- get_weak other ;;
  do set_weak this b ;;
  set_weak other a.

Definition WeakPtr_swap_temp (this : var) (tmp : WeakPtr) : M WeakPtr :=
  a <- get_weak this ;;
  do set_weak this tmp ;;
  ret a.

(** [operator=(const WeakPtr& other)]: no self-assignment test. *)
Definition WeakPtr_assign (this other : var) : M unit :=
  o <- get_weak other ;;
  copy <- WeakPtr_copy_ctor o ;;
  copy <- WeakPtr_swap_temp this copy ;;
  WeakPtr_dtor copy.

(** [operator=(WeakPtr&& other)]. *)
Definition WeakPtr_move_assign (this other : var) : M unit :=
  copy <- WeakPtr_move_ctor other ;;
  copy <- WeakPtr_swap_temp this copy ;;
  WeakPtr_dtor copy.

(** [use_count()], [expired()], [lock()]. *)
Definition WeakPtr_use_count (this : var) : M Z :=
  h <- get_weak this ;;
  match wp_cb h with
  | None => ret 0
  | Some b => cb <- get_block b ;; ret (shared_count cb)
  end.

Definition WeakPtr_expired (this : var) : M bool :=
  n <- WeakPtr_use_count this ;; ret (bool_decide (n = 0)).

Definition WeakPtr_lock (this : var) : M SharedPtr :=
  e <- WeakPtr_expired this ;;
  if e then ret SharedPtr_null
  else w <- get_weak this ;; SharedPtr_from_weak w.

(** ** Factories *)

(** [allocator_traits::construct(alloc, pt, alloc, args...)]: the
    placement-new of [ControlBlockMakeShared(alloc, args...)], whose member
    initialiser runs the constructor of [T]. *)
Definition construct (pt : loc) (a : Alloc) (args : Args) : M unit :=
  match T_ctor args with
  | Some x => put_block pt {| shared_count := 0; weak_count := 0;
                              body := ControlBlockMakeShared (Some x) a |}
  | None => throw
  end.

Definition allocateShared (a : Alloc) (args : Args) : M SharedPtr :=
  pt <- allocate a ;;
  do construct pt a args ;;
  SharedPtr_from_block (Some pt).

Definition makeShared (args : Args) : M SharedPtr :=
  allocateShared std_allocator args.

(** ** Programs over handles *)

(** One statement of client code. *)
Inductive Op :=
  | SpDefault (v : var)
  | SpFromPtr (v : var) (p : pointer) (d : Deleter) (a : Alloc)
  | SpCopy (v src : var)
  | SpMove (v src : var)
  | SpAssign (dst src : var)
  | SpMoveAssign (dst src : var)
  | SpReset (v : var)
  | SpResetPtr (v : var) (p : pointer) (d : Deleter) (a : Alloc)
  | SpSwap (v1 v2 : var)
  | SpDestroy (v : var)
  | SpAllocateShared (v : var) (a : Alloc) (args : Args)
  | SpMakeShared (v : var) (args : Args)
  | WpDefault (w : var)
  | WpFromShared (w s : var)
  | WpCopy (w src : var)
  | WpMove (w src : var)
  | WpAssign (dst src : var)
  | WpMoveAssign (dst src : var)
  | WpSwap (w1 w2 : var)
  | WpDestroy (w : var)
  | WpLock (v w : var)
  | ClientNew (a : addr) (x : T).

Definition step (op : Op) : M unit :=
  match op with
  | SpDefault v => new_strong v SharedPtr_null
  | SpFromPtr v p d a => h <- SharedPtr_ptr_ctor p d a ;; new_strong v h
  | SpCopy v src => o <- get_strong src ;; h <- SharedPtr_copy_ctor o ;; new_strong v h
  | SpMove v src => h <- SharedPtr_move_ctor src ;; new_strong v h
  | SpAssign dst src => SharedPtr_assign dst src
  | SpMoveAssign dst src => SharedPtr_move_assign dst src
  | SpReset v => SharedPtr_reset v
  | SpResetPtr v p d a => SharedPtr_reset_ptr v p d a
  | SpSwap v1 v2 => SharedPtr_swap v1 v2
  | SpDestroy v => h <- take_strong v ;; SharedPtr_dtor h
  | SpAllocateShared v a args => h <- allocateShared a args ;; new_strong v h
  | SpMakeShared v args => h <- makeShared args ;; new_strong v h
  | WpDefault w => new_weak w WeakPtr_null
  | WpFromShared w s => o <- get_strong s ;; h <- WeakPtr_from_shared o ;; new_weak w h
  | WpCopy w src => o <- get_weak src ;; h <- WeakPtr_copy_ctor o ;; new_weak w h
  | WpMove w src => h <- WeakPtr_move_ctor src ;; new_weak w h
  | WpAssign dst src => WeakPtr_assign dst src
  | WpMoveAssign dst src => WeakPtr_move_assign dst src
  | WpSwap w1 w2 => WeakPtr_swap w1 w2
  | WpDestroy w => h <- take_weak w ;; WeakPtr_dtor h
  | WpLock v w => h <- WeakPtr_lock w ;; new_strong v h
  | ClientNew a x => new_object a x
  end.

(** The state an operation leaves behind.  An exception is caught by the
    client, which goes on; undefined behaviour ends the run. *)
Definition state_of {A} (r : Res A) : option State :=
  match r with
  | Ok _ σ => Some σ
  | Throw σ => Some σ
  | UB => None
  end.

Fixpoint exec (ops : list Op) (σ : State) : option State :=
  match ops with
  | [] => Some σ
  | op :: rest =>
      match state_of (step op σ) with
      | Some σ' => exec rest σ'
      | None => None
      end
  end.

(** ** Specification vocabulary *)

(** Number of handle objects of a store that point to block [b]. *)
Definition refs {H} (cbof : H -> option loc) (b : loc) (m : gmap var H) : nat :=
  size (filter (fun kv => cbof kv.2 = Some b) m).

(** The reference held by a temporary whose [cb] field is [c]. *)
Definition tref (b : loc) (c : option loc) : nat :=
  if decide (c = Some b) then 1%nat else 0%nat.

Definition srefs (b : loc) (σ : State) : nat := refs sp_cb b (strongs σ).
Definition wrefs (b : loc) (σ : State) : nat := refs wp_cb b (weaks σ).

(** How often [destroy()] / [deallocate()] ran on block [b] so far. *)
Definition destroys (b : loc) (σ : State) : nat :=
  count_occ Event_eq_dec (log σ) (EvDestroy b).
Definition deallocs (b : loc) (σ : State) : nat :=
  count_occ Event_eq_dec (log σ) (EvDeallocate b).

(** The bookkeeping of one block, given the number [ns] of strong and
    [nw] of weak handles that point to it. *)
Definition block_ok (b : loc) (ns nw : nat) (σ : State) : Prop :=
  match heap σ !! b with
  | Some (Constructed cb) =>
      (b < next_loc σ)%nat /\
      shared_count cb = Z.of_nat ns /\ weak_count cb = Z.of_nat nw /\
      Z.of_nat ns < SIZE_MOD /\ Z.of_nat nw < SIZE_MOD /\
      (0 < ns + nw)%nat /\
      destroys b σ = (if decide (ns = 0%nat) then 1%nat else 0%nat) /\
      deallocs b σ = 0%nat
  | Some Raw =>
      (b < next_loc σ)%nat /\ ns = 0%nat /\ nw = 0%nat /\
      destroys b σ = 0%nat /\ deallocs b σ = 0%nat
  | None =>
      ns = 0%nat /\ nw = 0%nat /\
      if decide (b < next_loc σ)%nat
      then destroys b σ = 1%nat /\ deallocs b σ = 1%nat
      else destroys b σ = 0%nat /\ deallocs b σ = 0%nat
  end.

(** The invariant while a strong temporary with block [ts] and a weak
    temporary with block [tw] are alive. *)
Definition InvT (ts tw : option loc) (σ : State) : Prop :=
  forall b, block_ok b (srefs b σ + tref b ts) (wrefs b σ + tref b tw) σ.

(** The invariant between two statements. *)
Definition Inv (σ : State) : Prop := InvT None None σ.

(** Room for one more handle of each kind before a counter could wrap. *)
Definition Bounded (σ : State) : Prop :=
  Z.of_nat (size (strongs σ)) + 1 < SIZE_MOD /\
  Z.of_nat (size (weaks σ)) + 1 < SIZE_MOD.

(** What never goes back: identities are not reused, constructed storage
    does not become raw again, the log only grows. *)
Definition evolves (σ σ' : State) : Prop :=
  (next_loc σ <= next_loc σ')%nat /\
  (forall b, (b < next_loc σ)%nat -> heap σ !! b <> Some Raw -> heap σ' !! b <> Some Raw) /\
  (exists evs, log σ' = log σ ++ evs).

(** A step that leaves the handle stores alone. *)
Definition heap_step (σ σ' : State) : Prop :=
  strongs σ' = strongs σ /\ weaks σ' = weaks σ /\ evolves σ σ'.

(** A step that only touches the handle stores. *)
Definition store_step (σ σ' : State) : Prop :=
  heap σ' = heap σ /\ next_loc σ' = next_loc σ /\ log σ' = log σ.

(** A step that leaves the client's objects and what every control
    block owns as they are. *)
Definition keeps (σ σ' : State) : Prop :=
  objs σ' = objs σ /\
  forall b cb, heap σ !! b = Some (Constructed cb) ->
    exists cb', heap σ' !! b = Some (Constructed cb') /\ body cb' = body cb.

(** [destroy()] on a block with this body is defined: the pointer handed
    to [std::default_delete] is null or points to a live object made by
    [new]. *)
Definition deletable (bd : ControlBlockBody) (σ : State) : Prop :=
  match bd with
  | ControlBlockRegular (at_object a) default_delete _ => is_Some (objs σ !! a)
  | ControlBlockRegular (at_embedded _) default_delete _ => False
  | _ => True
  end.

(** A strong reference to block [c] may be let go of: the block is live
    and what it owns can be destroyed. *)
Definition releasable (c : option loc) (σ : State) : Prop :=
  match c with
  | Some b => match heap σ !! b with
              | Some (Constructed cb) => deletable (body cb) σ
              | _ => False
              end
  | None => True
  end.

(** The handle object [v] exists and its reference may be let go of. *)
Definition may_release (v : var) (σ : State) : Prop :=
  match strongs σ !! v with
  | Some h => releasable (sp_cb h) σ
  | None => False
  end.

(** Weakest precondition of a computation, for a normal and an
    exceptional postcondition; [U] is what undefined behaviour has to
    establish ([True]: partial correctness; a statement about the scoping
    of the client's variables: undefined behaviour is the client's). *)
Definition wp {A} (U : Prop) (m : M A) (Q : A -> State -> Prop)
    (E : State -> Prop) (σ : State) : Prop :=
  match m σ with
  | Ok a σ' => Q a σ'
  | Throw σ' => E σ'
  | UB => U
  end.

(** The total variant: undefined behaviour is excluded. *)
Definition twp {A} (m : M A) (Q : A -> State -> Prop) (E : State -> Prop)
    (σ : State) : Prop :=
  match m σ with
  | Ok a σ' => Q a σ'
  | Throw σ' => E σ'
  | UB => False
  end.

(** The handle an operation lets go of: the object it destroys, or the
    one whose previous contents it releases. *)
Definition released (op : Op) : option var :=
  match op with
  | SpDestroy v | SpReset v | SpResetPtr v _ _ _ => Some v
  | SpAssign dst _ | SpMoveAssign dst _ => Some dst
  | _ => None
  end.

(** The reference to block [b] that [op] lets go of in state [σ]. *)
Definition released_ref (op : Op) (σ : State) (b : loc) : nat :=
  match released op with
  | Some v => match strongs σ !! v with
              | Some h => tref b (sp_cb h)
              | None => 0%nat
              end
  | None => 0%nat
  end.




(** The client's side of the contract: a statement uses handle objects
    that exist and declares handle objects that do not exist yet, and a
    statement that lets go of a strong reference does so while the object
    its block owns through [std::default_delete] is still there to be
    deleted (it was made by [new] and has not been deleted through another
    owner). *)
Definition in_scope (op : Op) (σ : State) : Prop :=
  match op with
  | SpDefault v | SpFromPtr v _ _ _ | SpAllocateShared v _ _ | SpMakeShared v _ =>
      strongs σ !! v = None
  | SpCopy v src | SpMove v src =>
      is_Some (strongs σ !! src) /\ strongs σ !! v = None
  | SpAssign v1 v2 | SpMoveAssign v1 v2 =>
      may_release v1 σ /\ is_Some (strongs σ !! v2)
  | SpSwap v1 v2 =>
      is_Some (strongs σ !! v1) /\ is_Some (strongs σ !! v2)
  | SpReset v | SpResetPtr v _ _ _ | SpDestroy v =>
      may_release v σ
  | WpDefault w => weaks σ !! w = None
  | WpFromShared w s =>
      is_Some (strongs σ !! s) /\ weaks σ !! w = None
  | WpCopy w src | WpMove w src =>
      is_Some (weaks σ !! src) /\ weaks σ !! w = None
  | WpAssign w1 w2 | WpMoveAssign w1 w2 | WpSwap w1 w2 =>
      is_Some (weaks σ !! w1) /\ is_Some (weaks σ !! w2)
  | WpDestroy w => is_Some (weaks σ !! w)
  | WpLock v w =>
      is_Some (weaks σ !! w) /\ strongs σ !! v = None
  | ClientNew a _ => objs σ !! a = None
  end.

(** A run all of whose statements are in scope when they are reached. *)
Fixpoint scoped (ops : list Op) (σ : State) : Prop :=
  match ops with
  | [] => True
  | op :: rest =>
      in_scope op σ /\
      forall σ', state_of (step op σ) = Some σ' -> scoped rest σ'
  end.

(** What one statement guarantees about the state it leaves. *)
Definition step_post (op : Op) (σ σ' : State) : Prop :=
  Inv σ' /\ evolves σ σ' /\
  (size (strongs σ') <= S (size (strongs σ)))%nat /\
  (size (weaks σ') <= S (size (weaks σ)))%nat /\
  (forall b, (srefs b σ <= srefs b σ' + released_ref op σ b)%nat).

End SmartPointers.

Arguments Ok {T A} a σ.
Arguments Throw {T A} σ.
Arguments UB {T A}.

(** A destructor and a caller-supplied deleter that run no code the model
    sees: the value owns no handles, and the deleter leaves the handles
    and the client's objects alone. *)
Definition plain_dtor {T : Type} : T -> M (T:=T) unit := fun _ => ret tt.
Definition plain_call {T : Type} : nat -> pointer -> M (T:=T) unit := fun _ _ => ret tt.

(** * Concrete runs *)

(** The scenario of the specification: [a = SharedPtr(new Widget);
    b = a; w = WeakPtr(b); a.reset(); b.reset();] and then [w] goes out of
    scope.  The widget is the object at address 7. *)
Definition widget : pointer := at_object 7%nat.
Definition scenario_before : list (Op (T:=Z) (Args:=Z)) :=
  [ ClientNew 7%nat 5;
    SpFromPtr "a" widget default_delete std_allocator;
    SpCopy "b" "a"; WpFromShared "w" "b"; SpReset "a" ].
Definition scenario_after : list (Op (T:=Z) (Args:=Z)) := [ WpDestroy "w" ].

Definition run_from (ops : list (Op (T:=Z) (Args:=Z))) (σ : State (T:=Z)) : State :=
  default σ (exec Some plain_dtor plain_call ops σ).

Definition s1 : State (T:=Z) := run_from scenario_before init.
Definition s2 : State (T:=Z) := run_from [SpReset "b"] s1.
Definition s3 : State (T:=Z) := run_from scenario_after s2.

(** A constructor that always throws, and one that never does. *)
Definition throwing_ctor : Z -> option Z := fun _ => None.
Definition value_ctor : Z -> option Z := Some.

(** An allocator whose [allocate] always throws. *)
Definition failing_allocator : Alloc := {| alloc_id := 1; always_fails := true |}.

(** One strong and one weak handle on a block that owns the widget. *)
Definition s_alive : State (T:=Z) :=
  run_from [ ClientNew 7%nat 5;
             SpFromPtr "a" widget default_delete std_allocator; WpFromShared "w" "a" ] init.

(** A state with a null and a non-null handle of each kind. *)
Definition s_mixed : State (T:=Z) :=
  run_from [ ClientNew 7%nat 5; SpDefault "n"; WpDefault "wn";
             SpFromPtr "t" widget default_delete std_allocator;
             WpFromShared "wt" "t" ] init.

(** Two blocks.  ["a"] and ["b"] share block 0, which owns the widget and
    is observed by ["w"]; ["c"] owns the combined block 1 made by
    [makeShared], observed by ["u"]; ["n"] and ["wn"] are null. *)
Definition two_blocks : list (Op (T:=Z) (Args:=Z)) :=
  [ ClientNew 7%nat 5;
    SpFromPtr "a" widget default_delete std_allocator;
    SpCopy "b" "a"; WpFromShared "w" "a";
    SpMakeShared "c" 9; WpFromShared "u" "c";
    SpDefault "n"; WpDefault "wn" ].
Definition s_two : State (T:=Z) := run_from two_blocks init.

(** Two handles made from the same raw pointer, each with a control
    block of its own: [T* q = new T(5); SharedPtr<T> a(q); SharedPtr<T> b(q);]
    and then [a] goes out of scope. *)
Definition two_owners : list (Op (T:=Z) (Args:=Z)) :=
  [ ClientNew 7%nat 5;
    SpFromPtr "a" widget default_delete std_allocator;
    SpFromPtr "b" widget default_delete std_allocator;
    SpDestroy "a" ].
Definition s_owners : State (T:=Z) := run_from two_owners init.

(** A value that observes itself:
    [struct Node { WeakPtr<Node> self; };  SharedPtr<Node> p(new Node);
    p->self = p;].  The member is a weak handle object; a [Node] is
    represented by the name of its member, and [~Node()] destroys it. *)
Definition Node : Type := var.
Definition Node_dtor : Node -> M (T:=Node) unit :=
  fun self => bind (take_weak self) WeakPtr_dtor.
Definition self_observer : list (Op (T:=Node) (Args:=Node)) :=
  [ WpDefault "self"; ClientNew 7%nat "self";
    SpFromPtr "p" (at_object 7%nat) default_delete std_allocator;
    WpFromShared "tmp" "p"; WpMoveAssign "self" "tmp"; WpDestroy "tmp" ].

(** The same with the value embedded in the block:
    [auto p = makeShared<Node>();  p->self = p;]. *)
Definition embedded_self_observer : list (Op (T:=Node) (Args:=Node)) :=
  [ WpDefault "self"; SpMakeShared "p" "self";
    WpFromShared "tmp" "p"; WpMoveAssign "self" "tmp"; WpDestroy "tmp" ].

(** The state in which [p] goes out of scope, and the state inside
    [~SharedPtr()] just before [cb->destroy()] calls the deleter: the
    handle object is gone, [shared_count] has been decremented. *)
Definition s_self : State (T:=Node) :=
  default init (exec Some Node_dtor plain_call self_observer init).
Definition s_self_in_destroy : State (T:=Node) :=
  match bind (take_strong "p") (fun h => bind (decr_shared 0%nat)
               (fun _ => emit (EvDestroy 0%nat))) s_self with
  | Ok _ σ => σ
  | _ => s_self
  end.

(** * Proofs *)

(** ** Counting references in a store *)

Section Refs.
Context {H : Type} (cbof : H -> option loc).
Implicit Types (m : gmap var H) (b : loc) (v : var) (h : H).

Lemma refs_insert_None m b v h :
  m !! v = None ->
  refs cbof b (<[v := h]> m) = (refs cbof b m + tref b (cbof h))%nat.
Proof.
  intros Hv. unfold refs, tref. case_decide as Hc.
  - rewrite map_filter_insert_True by done.
    rewrite map_size_insert_None; [lia|].
    apply map_lookup_filter_None. by left.
  - rewrite map_filter_insert_not' by (simpl; congruence). lia.
Qed.

Lemma refs_delete_Some m b v h :
  m !! v = Some h ->
  refs cbof b m = (refs cbof b (delete v m) + tref b (cbof h))%nat.
Proof.
  intros Hv. rewrite <- (insert_delete_id m v h) at 1 by done.
  apply refs_insert_None, lookup_delete_eq.
Qed.

Lemma refs_insert_Some m b v h0 h :
  m !! v = Some h0 ->
  (refs cbof b (<[v := h]> m) + tref b (cbof h0))%nat
  = (refs cbof b m + tref b (cbof h))%nat.
Proof.
  intros Hv. rewrite (refs_delete_Some m b v h0 Hv).
  rewrite <- insert_delete_eq.
  rewrite refs_insert_None by apply lookup_delete_eq. lia.
Qed.

Lemma refs_le_size m b : (refs cbof b m <= size m)%nat.
Proof. unfold refs. apply map_size_filter. Qed.

Lemma refs_lookup_pos m b v h :
  m !! v = Some h -> cbof h = Some b -> (0 < refs cbof b m)%nat.
Proof.
  intros Hv Hc. rewrite (refs_delete_Some m b v h Hv).
  unfold tref. rewrite decide_True by done. lia.
Qed.

Lemma refs_empty b : refs cbof b (∅ : gmap var H) = 0%nat.
Proof. unfold refs. by rewrite map_filter_empty, map_size_empty. Qed.

End Refs.

Section Proofs.
Context {T Args : Type} (T_ctor : Args -> option T).
Implicit Types (σ : @State T) (b : loc) (v : var).

(** ** Rules of the weakest-precondition calculus *)

Section Rules.
Variable U : Prop.

Lemma wp_ret {A} (a : A) (Q : A -> State -> Prop) E σ :
  Q a σ -> wp U (ret a) Q E σ.
Proof. done. Qed.

Lemma wp_bind {A B} (m : M A) (k : A -> M B) (Q : B -> State -> Prop) E σ :
  wp U m (fun a => wp U (k a) Q E) E σ -> wp U (bind m k) Q E σ.
Proof. unfold wp, bind. by destruct (m σ). Qed.

Lemma twp_wp {A} (m : M A) (Q : A -> State -> Prop) E σ :
  twp m Q E σ -> wp U m Q E σ.
Proof. unfold twp, wp. by destruct (m σ). Qed.

Lemma twp_ret {A} (a : A) (Q : A -> State -> Prop) E σ :
  Q a σ -> twp (ret a) Q E σ.
Proof. done. Qed.

Lemma twp_bind {A B} (m : M A) (k : A -> M B) (Q : B -> State -> Prop) E σ :
  twp m (fun a => twp (k a) Q E) E σ -> twp (bind m k) Q E σ.
Proof. unfold twp, bind. by destruct (m σ). Qed.

Lemma twp_mono {A} (m : M A) (Q Q' : A -> State -> Prop) (E E' : State -> Prop) σ :
  twp m Q E σ ->
  (forall a σ', Q a σ' -> Q' a σ') -> (forall σ', E σ' -> E' σ') ->
  twp m Q' E' σ.
Proof. unfold twp. destruct (m σ); auto. Qed.

Lemma twp_ok {A} (m : M A) (Q : A -> State -> Prop) E σ a σ' :
  m σ = Ok a σ' -> Q a σ' -> twp m Q E σ.
Proof. unfold twp. by intros ->. Qed.

Lemma twp_get_block b cb (Q : ControlBlock -> State -> Prop) E σ :
  heap σ !! b = Some (Constructed cb) -> Q cb σ -> twp (get_block b) Q E σ.
Proof. unfold twp, get_block. by intros ->. Qed.

Lemma wp_get_strong v (Q : SharedPtr -> State -> Prop) E σ :
  (forall h, strongs σ !! v = Some h -> Q h σ) ->
  (strongs σ !! v = None -> U) ->
  wp U (get_strong v) Q E σ.
Proof. intros HQ HU. unfold wp, get_strong. destruct (strongs σ !! v) eqn:Hv; auto. Qed.

Lemma wp_get_weak v (Q : WeakPtr -> State -> Prop) E σ :
  (forall h, weaks σ !! v = Some h -> Q h σ) ->
  (weaks σ !! v = None -> U) ->
  wp U (get_weak v) Q E σ.
Proof. intros HQ HU. unfold wp, get_weak. destruct (weaks σ !! v) eqn:Hv; auto. Qed.

(** ** Event counting *)

Lemma count_occ_snoc (l : list Event) (e x : Event) :
  count_occ Event_eq_dec (l ++ [e]) x
  = (count_occ Event_eq_dec l x + if decide (e = x) then 1 else 0)%nat.
Proof.
  rewrite count_occ_app. simpl.
  destruct (Event_eq_dec e x); case_decide; done.
Qed.

(** ** The invariant holds initially *)

Lemma Inv_init : Inv (init (T:=T)).
Proof.
  intros b. unfold block_ok, srefs, wrefs, destroys, deallocs, tref. simpl.
  rewrite lookup_empty, !refs_empty. simpl. done.
Qed.

(** ** Facts read off the invariant *)

Lemma InvT_constructed ts tw σ b :
  InvT ts tw σ ->
  (0 < srefs b σ + tref b ts + (wrefs b σ + tref b tw))%nat ->
  exists cb, heap σ !! b = Some (Constructed cb) /\
    (b < next_loc σ)%nat /\
    shared_count cb = Z.of_nat (srefs b σ + tref b ts) /\
    weak_count cb = Z.of_nat (wrefs b σ + tref b tw) /\
    Z.of_nat (srefs b σ + tref b ts) < SIZE_MOD /\
    Z.of_nat (wrefs b σ + tref b tw) < SIZE_MOD /\
    destroys b σ = (if decide ((srefs b σ + tref b ts)%nat = 0%nat) then 1%nat else 0%nat) /\
    deallocs b σ = 0%nat.
Proof.
  intros HI Hpos. specialize (HI b). unfold block_ok in HI.
  destruct (heap σ !! b) as [[|cb]|].
  - lia.
  - exists cb. destruct HI as (?&?&?&?&?&?&?&?). repeat split; assumption.
  - lia.
Qed.

Lemma InvT_fresh ts tw σ b :
  InvT ts tw σ -> (next_loc σ <= b)%nat ->
  heap σ !! b = None /\ srefs b σ = 0%nat /\ wrefs b σ = 0%nat /\
  tref b ts = 0%nat /\ tref b tw = 0%nat /\
  destroys b σ = 0%nat /\ deallocs b σ = 0%nat.
Proof.
  intros HI Hb. specialize (HI b). unfold block_ok in HI.
  destruct (heap σ !! b) as [[|cb]|]; [lia|lia|].
  rewrite decide_False in HI by lia. repeat split; lia.
Qed.

Lemma size_incr_nat (n : nat) :
  Z.of_nat n + 1 < SIZE_MOD -> size_incr (Z.of_nat n) = Z.of_nat (n + 1).
Proof. intros. unfold size_incr. rewrite Z.mod_small; lia. Qed.

Lemma size_decr_nat (n : nat) :
  Z.of_nat n < SIZE_MOD -> size_decr (Z.of_nat (n + 1)) = Z.of_nat n.
Proof.
  intros. unfold size_decr.
  replace (Z.of_nat (n + 1) - 1) with (Z.of_nat n) by lia.
  rewrite Z.mod_small; lia.
Qed.

(** ** Two-state facts *)

Lemma evolves_refl σ : evolves σ σ.
Proof. repeat split; auto. exists []. by rewrite app_nil_r. Qed.

Lemma evolves_trans σ1 σ2 σ3 : evolves σ1 σ2 -> evolves σ2 σ3 -> evolves σ1 σ3.
Proof.
  intros (Hn1 & Hr1 & evs1 & Hl1) (Hn2 & Hr2 & evs2 & Hl2). repeat split.
  - lia.
  - intros b Hb Hraw. apply Hr2; [lia|]. by apply Hr1.
  - exists (evs1 ++ evs2). by rewrite Hl2, Hl1, app_assoc.
Qed.


Lemma evolves_deallocs σ σ' b : evolves σ σ' -> (deallocs b σ <= deallocs b σ')%nat.
Proof.
  intros (_ & _ & evs & Hl). unfold deallocs. rewrite Hl, count_occ_app. lia.
Qed.

Lemma heap_step_refl σ : heap_step σ σ.
Proof. repeat split; auto using evolves_refl. apply evolves_refl. Qed.

Lemma heap_step_trans σ1 σ2 σ3 : heap_step σ1 σ2 -> heap_step σ2 σ3 -> heap_step σ1 σ3.
Proof.
  intros (?&?&?) (?&?&?). repeat split; try congruence.
  all: eapply evolves_trans; eauto.
Qed.

(** ** Control-block operations and the invariant *)

Lemma tref_None b : tref b None = 0%nat.
Proof. done. Qed.

Lemma tref_same b : tref b (Some b) = 1%nat.
Proof. unfold tref. by rewrite decide_True. Qed.

Lemma tref_ne b b' : b' <> b -> tref b' (Some b) = 0%nat.
Proof. intros. unfold tref. rewrite decide_False; congruence. Qed.


(** [block_ok] reads the state only through the cell of the block, the
    allocation frontier and the two event counts. *)
Lemma block_ok_ext b ns nw ns' nw' σ σ' :
  block_ok b ns nw σ ->
  heap σ' !! b = heap σ !! b -> next_loc σ' = next_loc σ ->
  destroys b σ' = destroys b σ -> deallocs b σ' = deallocs b σ ->
  ns' = ns -> nw' = nw ->
  block_ok b ns' nw' σ'.
Proof.
  unfold block_ok. intros Hok -> -> -> -> -> ->. exact Hok.
Qed.

Lemma block_ok_constructed b ns nw σ cb :
  heap σ !! b = Some (Constructed cb) ->
  (b < next_loc σ)%nat ->
  shared_count cb = Z.of_nat ns -> weak_count cb = Z.of_nat nw ->
  Z.of_nat ns < SIZE_MOD -> Z.of_nat nw < SIZE_MOD ->
  (0 < ns + nw)%nat ->
  destroys b σ = (if decide (ns = 0%nat) then 1%nat else 0%nat) ->
  deallocs b σ = 0%nat ->
  block_ok b ns nw σ.
Proof. unfold block_ok. intros ->. tauto. Qed.

Lemma block_ok_freed b σ :
  heap σ !! b = None -> (b < next_loc σ)%nat ->
  destroys b σ = 1%nat -> deallocs b σ = 1%nat ->
  block_ok b 0 0 σ.
Proof. unfold block_ok. intros -> ?. rewrite decide_True by done. tauto. Qed.

Lemma if_zero_succ (n : nat) :
  (if decide ((n + 1)%nat = 0%nat) then 1%nat else 0%nat) = 0%nat.
Proof. rewrite decide_False; [done|lia]. Qed.

Lemma evolves_put_constructed σ b cb :
  evolves σ (set_heap (<[b := Constructed cb]> (heap σ)) σ).
Proof.
  repeat split; simpl; auto.
  - intros b' _ Hraw. destruct (decide (b' = b)) as [->|Hne].
    + by rewrite lookup_insert_eq.
    + by rewrite lookup_insert_ne.
  - exists []. by rewrite app_nil_r.
Qed.

Lemma incr_shared_inv b tw σ :
  InvT None tw σ -> (0 < srefs b σ)%nat ->
  Z.of_nat (size (strongs σ)) + 1 < SIZE_MOD ->
  exists σ', incr_shared b σ = Ok tt σ' /\ InvT (Some b) tw σ' /\ heap_step σ σ'.
Proof.
  intros HI Hpos Hbd.
  destruct (InvT_constructed None tw σ b HI) as (cb & Hcb & Hlt & Hs & Hw & Hbs & Hbw & Hd & Ha);
    [lia|].
  rewrite tref_None, Nat.add_0_r in *.
  unfold incr_shared, bind, get_block, put_block. rewrite Hcb.
  eexists; split; [reflexivity|]. split.
  - intros b'. destruct (decide (b' = b)) as [->|Hne].
    + rewrite tref_same.
      pose proof (refs_le_size sp_cb (strongs σ) b). unfold srefs in *.
      eapply block_ok_constructed; simpl.
      * apply lookup_insert_eq.
      * done.
      * simpl. rewrite Hs. apply size_incr_nat. lia.
      * done.
      * lia.
      * done.
      * lia.
      * rewrite if_zero_succ. rewrite decide_False in Hd by lia. exact Hd.
      * done.
    + eapply block_ok_ext; [apply (HI b')|..]; simpl; try done.
      * by rewrite lookup_insert_ne.
      * by rewrite tref_None, tref_ne.
  - split; [done|]. split; [done|]. apply evolves_put_constructed.
Qed.

Lemma InvT_frame b ts tw ts' tw' σ σ' :
  InvT ts tw σ ->
  (forall b', b' <> b -> heap σ' !! b' = heap σ !! b') ->
  next_loc σ' = next_loc σ -> strongs σ' = strongs σ -> weaks σ' = weaks σ ->
  (forall b', b' <> b -> destroys b' σ' = destroys b' σ) ->
  (forall b', b' <> b -> deallocs b' σ' = deallocs b' σ) ->
  (forall b', b' <> b -> tref b' ts' = tref b' ts /\ tref b' tw' = tref b' tw) ->
  block_ok b (srefs b σ + tref b ts') (wrefs b σ + tref b tw') σ' ->
  InvT ts' tw' σ'.
Proof.
  intros HI Hh Hn Hs Hw Hd Ha Ht Hb b'.
  unfold srefs, wrefs in *. rewrite Hs, Hw.
  destruct (decide (b' = b)) as [->|Hne]; [exact Hb|].
  destruct (Ht b' Hne) as [-> ->].
  eapply block_ok_ext; [apply (HI b')|..]; auto.
Qed.

(** [destroy()] on a constructed block whose value can be destroyed,
    for a plain value and a plain deleter. *)
Lemma destroy_eq b (cb : @ControlBlock T) σ :
  heap σ !! b = Some (Constructed cb) -> deletable (body cb) σ ->
  destroy plain_dtor plain_call b σ =
  Ok tt {| heap := <[b := Constructed
                     (with_body match body cb with
                                | ControlBlockRegular _ d a => ControlBlockRegular nullptr d a
                                | ControlBlockMakeShared _ a => ControlBlockMakeShared None a
                                end cb)]> (heap σ);
           next_loc := next_loc σ;
           objs := match body cb with
                   | ControlBlockRegular (at_object a) default_delete _ => delete a (objs σ)
                   | _ => objs σ
                   end;
           strongs := strongs σ; weaks := weaks σ;
           log := log σ ++ EvDestroy b ::
                  match body cb with
                  | ControlBlockRegular p d _ => [EvDeleter d p]
                  | ControlBlockMakeShared _ _ => []
                  end |}.
Proof.
  intros Hb Hd. unfold destroy. unfold bind at 1. unfold get_block at 1. rewrite Hb.
  unfold bind at 1. unfold emit at 1.
  destruct cb as [sc wc [p d a|x a]]; cbn [body] in *.
  - unfold bind at 1. unfold call_deleter. unfold bind at 1. unfold emit.
    cbn [heap next_loc objs strongs weaks log].
    assert (forall σ0 : @State T, heap σ0 = heap σ ->
              bind (get_block b)
                (fun cb' => put_block b (with_body (ControlBlockRegular nullptr d a) cb')) σ0
              = Ok tt (set_heap (<[b := Constructed
                                   (with_body (ControlBlockRegular nullptr d a)
                                      {| shared_count := sc; weak_count := wc;
                                         body := ControlBlockRegular p d a |})]> (heap σ0)) σ0))
      as Hwrite.
    { intros σ0 Hh. unfold bind, get_block, put_block. rewrite Hh, Hb.
      cbn beta iota. by rewrite ?Hh. }
    destruct d as [|id].
    + destruct p as [|ad|eb]; cbn [delete_expr deletable] in *.
      * unfold ret. rewrite Hwrite by done. unfold set_heap. cbn. by rewrite <- app_assoc.
      * destruct Hd as [x Hx]. cbn [objs]. rewrite Hx.
        unfold bind at 1. unfold plain_dtor, ret. cbn beta iota. rewrite Hwrite by done.
        unfold set_heap, set_objs. cbn. by rewrite <- app_assoc.
      * done.
    + unfold plain_call, ret. rewrite Hwrite by done. unfold set_heap. cbn.
      rewrite <- app_assoc. by destruct p.
  - unfold bind, put_block, plain_dtor, ret. destruct x; reflexivity.
Qed.

(** [destroy()] on a constructed block: the counters stay, the call is
    logged once, nothing is deallocated. *)
Lemma destroy_spec b cb σ :
  heap σ !! b = Some (Constructed cb) -> deletable (body cb) σ ->
  exists σ' bd,
    destroy plain_dtor plain_call b σ = Ok tt σ' /\
    heap σ' = <[b := Constructed (with_body bd cb)]> (heap σ) /\
    next_loc σ' = next_loc σ /\ strongs σ' = strongs σ /\ weaks σ' = weaks σ /\
    (forall b', destroys b' σ' = (destroys b' σ + if decide (b = b') then 1 else 0)%nat) /\
    (forall b', deallocs b' σ' = deallocs b' σ) /\
    evolves σ σ'.
Proof.
  intros Hcb Hd. rewrite (destroy_eq b cb σ Hcb Hd).
  eexists _, _. split; [reflexivity|]. cbn [heap next_loc strongs weaks].
  split; [done|]. split; [done|]. split; [done|]. split; [done|].
  unfold destroys, deallocs. cbn [log].
  assert (forall evs b',
            evs = [] \/ (exists d p, evs = [EvDeleter d p]) ->
            count_occ Event_eq_dec (log σ ++ EvDestroy b :: evs) (EvDestroy b')
            = (count_occ Event_eq_dec (log σ) (EvDestroy b')
               + if decide (b = b') then 1 else 0)%nat /\
            count_occ Event_eq_dec (log σ ++ EvDestroy b :: evs) (EvDeallocate b')
            = count_occ Event_eq_dec (log σ) (EvDeallocate b')) as Hcount.
  { intros evs b' Hevs. rewrite !count_occ_app. cbn [count_occ].
    assert (count_occ Event_eq_dec evs (EvDestroy b') = 0%nat /\
            count_occ Event_eq_dec evs (EvDeallocate b') = 0%nat) as [-> ->].
    { destruct Hevs as [->|(d & p & ->)]; [done|]. cbn [count_occ].
      destruct (Event_eq_dec (EvDeleter d p) (EvDestroy b')) as [?|_]; [done|].
      destruct (Event_eq_dec (EvDeleter d p) (EvDeallocate b')) as [?|_]; done. }
    destruct (Event_eq_dec (EvDestroy b) (EvDeallocate b')) as [?|_]; [done|].
    destruct (Event_eq_dec (EvDestroy b) (EvDestroy b')) as [Heq|Hne];
      destruct (decide (b = b')) as [Hb'|Hb']; try lia; congruence. }
  assert (match body cb with
          | ControlBlockRegular p d _ => [EvDeleter d p]
          | ControlBlockMakeShared _ _ => []
          end = [] \/
          exists d p, match body cb with
                      | ControlBlockRegular p d _ => [EvDeleter d p]
                      | ControlBlockMakeShared _ _ => []
                      end = [EvDeleter d p]) as Hevs.
  { destruct (body cb); eauto. }
  split; [intros b'; apply (Hcount _ b' Hevs)|].
  split; [intros b'; apply (Hcount _ b' Hevs)|].
  split; [done|]. split.
  - cbn [heap next_loc]. intros b' _ Hraw. destruct (decide (b' = b)) as [->|Hne].
    + by rewrite lookup_insert_eq.
    + by rewrite lookup_insert_ne.
  - cbn [log]. by eexists.
Qed.

(** [deallocate()] on a constructed block. *)
Lemma deallocate_spec b cb σ :
  heap σ !! b = Some (Constructed cb) ->
  (b < next_loc σ)%nat ->
  exists σ',
    deallocate b σ = Ok tt σ' /\
    heap σ' = delete b (heap σ) /\
    next_loc σ' = next_loc σ /\ strongs σ' = strongs σ /\ weaks σ' = weaks σ /\
    (forall b', destroys b' σ' = destroys b' σ) /\
    (forall b', deallocs b' σ' = (deallocs b' σ + if decide (b = b') then 1 else 0)%nat) /\
    evolves σ σ'.
Proof.
  intros Hcb Hlt. unfold deallocate, bind, get_block, emit. rewrite Hcb. simpl.
  eexists. split; [reflexivity|]. unfold destroys, deallocs. simpl.
  split; [done|]. split; [done|]. split; [done|]. split; [done|].
  split; [|split].
  - intros b'. rewrite count_occ_snoc, decide_False by done. lia.
  - intros b'. rewrite count_occ_snoc.
    destruct (decide (b = b')) as [->|]; [rewrite decide_True by done|rewrite decide_False by congruence]; lia.
  - split; [done|]. split; simpl.
    + intros b' _ Hraw. destruct (decide (b' = b)) as [->|Hne].
      * by rewrite lookup_delete_eq.
      * by rewrite lookup_delete_ne.
    + by eexists.
Qed.

Lemma heap_step_put σ b cb :
  heap_step σ (set_heap (<[b := Constructed cb]> (heap σ)) σ).
Proof. split; [done|]. split; [done|]. apply evolves_put_constructed. Qed.

Lemma twp_decr_shared b cb (Q : unit -> State -> Prop) E σ :
  heap σ !! b = Some (Constructed cb) ->
  Q tt (set_heap (<[b := Constructed (with_shared (size_decr (shared_count cb)) cb)]> (heap σ)) σ) ->
  twp (decr_shared b) Q E σ.
Proof. intros Hcb HQ. unfold twp, decr_shared, bind, get_block, put_block. by rewrite Hcb. Qed.

Lemma twp_decr_weak b cb (Q : unit -> State -> Prop) E σ :
  heap σ !! b = Some (Constructed cb) ->
  Q tt (set_heap (<[b := Constructed (with_weak (size_decr (weak_count cb)) cb)]> (heap σ)) σ) ->
  twp (decr_weak b) Q E σ.
Proof. intros Hcb HQ. unfold twp, decr_weak, bind, get_block, put_block. by rewrite Hcb. Qed.

(** [~SharedPtr()] gives back the reference its object held. *)
Lemma SharedPtr_dtor_last_inv this tw σ :
  InvT (sp_cb this) tw σ ->
  (forall b cb, sp_cb this = Some b -> heap σ !! b = Some (Constructed cb) ->
     shared_count cb = 1 -> deletable (body cb) σ) ->
  twp (SharedPtr_dtor plain_dtor plain_call this)
    (fun _ σ' => InvT None tw σ' /\ heap_step σ σ') (fun _ => False) σ.
Proof.
  intros HI Hrel. unfold SharedPtr_dtor.
  destruct (sp_cb this) as [b|]; [|apply twp_ret; split; [done|apply heap_step_refl]].
  destruct (InvT_constructed _ _ σ b HI) as (cb & Hcb & Hlt & Hs & Hw & Hbs & Hbw & Hd & Ha);
    [rewrite tref_same; lia|].
  rewrite tref_same in *. rewrite if_zero_succ in Hd.
  set (n := srefs b σ) in *. set (m := (wrefs b σ + tref b tw)%nat) in *.
  apply twp_bind. eapply twp_decr_shared; [exact Hcb|].
  rewrite Hs, size_decr_nat by lia.
  set (σ1 := set_heap _ σ).
  assert (heap σ1 !! b = Some (Constructed (with_shared (Z.of_nat n) cb))) as Hcb1
    by (subst σ1; simpl; apply lookup_insert_eq).
  assert (heap_step σ σ1) as Hst1 by apply heap_step_put.
  apply twp_bind. eapply twp_get_block; [exact Hcb1|]. simpl.
  case_decide as Hz.
  - (* the last strong reference *)
    assert (n = 0%nat) as Hn0 by lia.
    assert (deletable (body (with_shared (Z.of_nat n) cb)) σ1) as Hdel1.
    { apply (Hrel b cb eq_refl Hcb). rewrite Hs, Hn0. done. }
    destruct (destroy_spec b _ σ1 Hcb1 Hdel1)
      as (σ2 & bd & E2 & Hh2 & Hn2 & Hs2 & Hw2 & Hd2 & Ha2 & Hev2).
    apply twp_bind. eapply twp_ok; [exact E2|].
    assert (heap σ2 !! b = Some (Constructed (with_body bd (with_shared (Z.of_nat n) cb)))) as Hcb2
      by (rewrite Hh2; apply lookup_insert_eq).
    assert (heap_step σ σ2) as Hst2.
    { eapply heap_step_trans; [exact Hst1|]. split; [done|]. split; done. }
    apply twp_bind. eapply twp_get_block; [exact Hcb2|]. simpl.
    case_decide as Hwz.
    + (* no weak reference either *)
      assert (m = 0%nat) as Hm0 by lia.
      destruct (deallocate_spec b _ σ2 Hcb2) as (σ3 & E3 & Hh3 & Hn3 & Hs3 & Hw3 & Hd3 & Ha3 & Hev3);
        [rewrite Hn2; exact Hlt|].
      eapply twp_ok; [exact E3|]. split.
      * eapply (InvT_frame b _ _ _ _ σ σ3 HI).
        -- intros b' Hne. rewrite Hh3, lookup_delete_ne, Hh2, lookup_insert_ne by done.
           subst σ1; simpl. by rewrite lookup_insert_ne.
        -- by rewrite Hn3, Hn2.
        -- by rewrite Hs3, Hs2.
        -- by rewrite Hw3, Hw2.
        -- intros b' Hne. rewrite Hd3, Hd2, decide_False by done.
           unfold destroys; subst σ1; simpl. lia.
        -- intros b' Hne. rewrite Ha3, Ha2, decide_False by done.
           unfold deallocs; subst σ1; simpl. lia.
        -- intros b' Hne. by rewrite tref_None, tref_ne.
        -- rewrite tref_None. fold n. fold m. rewrite Hn0, Hm0. simpl.
           apply block_ok_freed.
           ++ rewrite Hh3. apply lookup_delete_eq.
           ++ rewrite Hn3, Hn2. exact Hlt.
           ++ rewrite Hd3, Hd2, decide_True by done.
              unfold destroys in *; subst σ1; simpl. lia.
           ++ rewrite Ha3, Ha2, decide_True by done.
              unfold deallocs in *; subst σ1; simpl. lia.
      * eapply heap_step_trans; [exact Hst2|]. split; [done|]. split; done.
    + apply twp_ret. split; [|exact Hst2].
      eapply (InvT_frame b _ _ _ _ σ σ2 HI).
      * intros b' Hne. rewrite Hh2, lookup_insert_ne by done.
        subst σ1; simpl. by rewrite lookup_insert_ne.
      * by rewrite Hn2.
      * by rewrite Hs2.
      * by rewrite Hw2.
      * intros b' Hne. rewrite Hd2, decide_False by done.
        unfold destroys; subst σ1; simpl. lia.
      * intros b' Hne. rewrite Ha2. by unfold deallocs; subst σ1; simpl.
      * intros b' Hne. by rewrite tref_None, tref_ne.
      * rewrite tref_None, Nat.add_0_r. fold n. fold m.
        eapply block_ok_constructed; [exact Hcb2|..]; simpl; try lia.
        -- rewrite Hn2. exact Hlt.
        -- rewrite Hd2, decide_True by done. rewrite decide_True by done.
           unfold destroys in *; subst σ1; simpl. lia.
        -- rewrite Ha2. unfold deallocs in *; subst σ1; simpl. lia.
  - apply twp_ret. split; [|exact Hst1].
    eapply (InvT_frame b _ _ _ _ σ σ1 HI); subst σ1; simpl; try done.
    + intros b' Hne. by rewrite lookup_insert_ne.
    + intros b' Hne. by rewrite tref_None, tref_ne.
    + rewrite tref_None, Nat.add_0_r. fold n. fold m.
      eapply block_ok_constructed; simpl.
      * apply lookup_insert_eq.
      * exact Hlt.
      * done.
      * done.
      * lia.
      * lia.
      * lia.
      * rewrite decide_False by lia. exact Hd.
      * exact Ha.
Qed.

(** [~WeakPtr()] gives back the weak reference its object held. *)
Lemma WeakPtr_dtor_inv this ts σ :
  InvT ts (wp_cb this) σ ->
  twp (WeakPtr_dtor this) (fun _ σ' => InvT ts None σ' /\ heap_step σ σ') (fun _ => False) σ.
Proof.
  intros HI. unfold WeakPtr_dtor.
  destruct (wp_cb this) as [b|]; [|apply twp_ret; split; [done|apply heap_step_refl]].
  destruct (InvT_constructed _ _ σ b HI) as (cb & Hcb & Hlt & Hs & Hw & Hbs & Hbw & Hd & Ha);
    [rewrite tref_same; lia|].
  rewrite tref_same in *.
  set (n := (srefs b σ + tref b ts)%nat) in *. set (m := wrefs b σ) in *.
  apply twp_bind. eapply twp_decr_weak; [exact Hcb|].
  rewrite Hw, size_decr_nat by lia.
  set (σ1 := set_heap _ σ).
  assert (heap σ1 !! b = Some (Constructed (with_weak (Z.of_nat m) cb))) as Hcb1
    by (subst σ1; simpl; apply lookup_insert_eq).
  assert (heap_step σ σ1) as Hst1 by apply heap_step_put.
  apply twp_bind. eapply twp_get_block; [exact Hcb1|]. simpl.
  destruct (decide (Z.of_nat m = 0 /\ shared_count cb = 0)) as [Hz|Hz].
  - (* the last reference of either kind *)
    rewrite Hs in Hz.
    assert (m = 0%nat) as Hm0 by lia. assert (n = 0%nat) as Hn0 by lia.
    destruct (deallocate_spec b _ σ1 Hcb1) as (σ2 & E2 & Hh2 & Hn2 & Hs2 & Hw2 & Hd2 & Ha2 & Hev2);
      [exact Hlt|].
    eapply twp_ok; [exact E2|]. split.
    + eapply (InvT_frame b _ _ _ _ σ σ2 HI).
      * intros b' Hne. rewrite Hh2, lookup_delete_ne by done.
        subst σ1; simpl. by rewrite lookup_insert_ne.
      * by rewrite Hn2.
      * by rewrite Hs2.
      * by rewrite Hw2.
      * intros b' Hne. rewrite Hd2. by unfold destroys; subst σ1; simpl.
      * intros b' Hne. rewrite Ha2, decide_False by done.
        unfold deallocs; subst σ1; simpl. lia.
      * intros b' Hne. by rewrite tref_None, tref_ne.
      * rewrite tref_None. fold n. fold m. rewrite Hn0, Hm0. simpl.
        apply block_ok_freed.
        -- rewrite Hh2. apply lookup_delete_eq.
        -- rewrite Hn2. exact Hlt.
        -- rewrite Hd2. rewrite decide_True in Hd by done.
           unfold destroys in *; subst σ1; simpl. exact Hd.
        -- rewrite Ha2, decide_True by done.
           unfold deallocs in *; subst σ1; simpl. lia.
    + eapply heap_step_trans; [exact Hst1|]. split; [done|]. split; done.
  - apply twp_ret. split; [|exact Hst1].
    eapply (InvT_frame b _ _ _ _ σ σ1 HI); subst σ1; simpl; try done.
    + intros b' Hne. by rewrite lookup_insert_ne.
    + intros b' Hne. by rewrite tref_None, tref_ne.
    + rewrite tref_None, Nat.add_0_r. fold n. fold m.
      eapply block_ok_constructed; simpl.
      * apply lookup_insert_eq.
      * exact Hlt.
      * done.
      * done.
      * lia.
      * lia.
      * rewrite Hs in Hz.
        destruct (decide (m = 0%nat)); [|lia].
        destruct (decide (n = 0%nat)); [|lia].
        exfalso. apply Hz. split; lia.
      * exact Hd.
      * exact Ha.
Qed.

Lemma incr_weak_inv b ts σ :
  InvT ts None σ -> (0 < srefs b σ + wrefs b σ)%nat ->
  Z.of_nat (size (weaks σ)) + 1 < SIZE_MOD ->
  exists σ', incr_weak b σ = Ok tt σ' /\ InvT ts (Some b) σ' /\ heap_step σ σ'.
Proof.
  intros HI Hpos Hbd.
  destruct (InvT_constructed ts None σ b HI) as (cb & Hcb & Hlt & Hs & Hw & Hbs & Hbw & Hd & Ha);
    [lia|].
  rewrite tref_None, Nat.add_0_r in *.
  unfold incr_weak, bind, get_block, put_block. rewrite Hcb.
  eexists; split; [reflexivity|]. split; [|apply heap_step_put].
  eapply (InvT_frame b _ _ _ _ σ _ HI); simpl; try done.
  - intros b' Hne. by rewrite lookup_insert_ne.
  - intros b' Hne. by rewrite tref_None, tref_ne.
  - rewrite tref_same.
    pose proof (refs_le_size wp_cb (weaks σ) b). unfold wrefs in *.
    eapply block_ok_constructed; simpl.
    + apply lookup_insert_eq.
    + done.
    + done.
    + simpl. rewrite Hw. apply size_incr_nat. lia.
    + done.
    + lia.
    + lia.
    + exact Hd.
    + done.
Qed.

(** Blocks other than the one just allocated do not notice the
    allocation. *)
Lemma block_ok_alloc b ns nw σ σ' :
  block_ok b ns nw σ ->
  b <> next_loc σ ->
  heap σ' !! b = heap σ !! b -> next_loc σ' = S (next_loc σ) ->
  log σ' = log σ ->
  block_ok b ns nw σ'.
Proof.
  unfold block_ok, destroys, deallocs. intros Hok Hne -> -> ->.
  destruct (heap σ !! b) as [[|cb]|].
  - destruct Hok as (?&?). split; [lia|done].
  - destruct Hok as (?&?). split; [lia|done].
  - destruct Hok as (?&?&Hc). split; [done|]. split; [done|].
    destruct (decide (b < next_loc σ)%nat).
    + rewrite decide_True by lia. done.
    + rewrite decide_False by lia. done.
Qed.

Lemma evolves_alloc σ σ' :
  (forall b, b <> next_loc σ -> heap σ' !! b = heap σ !! b) ->
  next_loc σ' = S (next_loc σ) -> log σ' = log σ ->
  evolves σ σ'.
Proof.
  intros Hh Hn Hl. split; [lia|]. split.
  - intros b Hb Hraw. rewrite Hh by lia. done.
  - exists []. by rewrite app_nil_r.
Qed.

(** A block constructed on fresh storage with one strong reference, held
    by the handle under construction. *)
Lemma InvT_alloc_constructed tw σ σ' cb :
  InvT None tw σ ->
  heap σ' !! next_loc σ = Some (Constructed cb) ->
  (forall b, b <> next_loc σ -> heap σ' !! b = heap σ !! b) ->
  next_loc σ' = S (next_loc σ) -> log σ' = log σ ->
  strongs σ' = strongs σ -> weaks σ' = weaks σ ->
  shared_count cb = 1 -> weak_count cb = 0 ->
  InvT (Some (next_loc σ)) tw σ'.
Proof.
  intros HI Hcb Hh Hn Hl Hs Hw Hsc Hwc b.
  unfold srefs, wrefs. rewrite Hs, Hw.
  destruct (decide (b = next_loc σ)) as [->|Hne].
  - destruct (InvT_fresh None tw σ (next_loc σ) HI) as (_ & Hs0 & Hw0 & _ & Ht0 & Hd0 & Ha0); [lia|].
    unfold srefs, wrefs in *. rewrite Hs0, Hw0, Ht0, tref_same. simpl.
    eapply block_ok_constructed; [exact Hcb|..]; try done.
    + lia.
    + lia.
    + unfold destroys in *. rewrite Hl. exact Hd0.
    + unfold deallocs in *. rewrite Hl. exact Ha0.
  - rewrite tref_ne by done. rewrite <- (tref_None b).
    eapply block_ok_alloc; [apply (HI b)|..]; auto.
Qed.

(** Raw storage that was never constructed. *)
Lemma InvT_alloc_raw tw σ σ' :
  InvT None tw σ ->
  heap σ' = <[next_loc σ := Raw]> (heap σ) ->
  next_loc σ' = S (next_loc σ) -> log σ' = log σ ->
  strongs σ' = strongs σ -> weaks σ' = weaks σ ->
  InvT None tw σ'.
Proof.
  intros HI Hh Hn Hl Hs Hw b.
  unfold srefs, wrefs. rewrite Hs, Hw.
  destruct (decide (b = next_loc σ)) as [->|Hne].
  - destruct (InvT_fresh None tw σ (next_loc σ) HI) as (_ & Hs0 & Hw0 & _ & Ht0 & Hd0 & Ha0); [lia|].
    unfold srefs, wrefs in *. rewrite Hs0, Hw0, Ht0, tref_None. simpl.
    unfold block_ok. rewrite Hh, lookup_insert_eq.
    unfold destroys, deallocs in *. rewrite Hn, Hl. repeat split; auto.
  - eapply block_ok_alloc; [apply (HI b)|..]; auto.
    rewrite Hh. by rewrite lookup_insert_ne.
Qed.

(** The pointer constructor: one fresh block with [shared_count = 1], or
    the allocation failure with the state untouched. *)
Lemma SharedPtr_ptr_ctor_inv p d a tw σ :
  InvT None tw σ ->
  twp (SharedPtr_ptr_ctor p d a)
    (fun h σ' => h = {| sp_ptr := p; sp_cb := Some (next_loc σ) |} /\
                 InvT (sp_cb h) tw σ' /\ heap_step σ σ')
    (fun σ' => σ' = σ) σ.
Proof.
  intros HI. unfold twp, SharedPtr_ptr_ctor, allocate, bind, put_block,
    incr_shared, bind, get_block, put_block, ret.
  destruct (always_fails a); [done|]. simpl.
  rewrite lookup_insert_eq. simpl. split; [done|].
  assert (forall b, b <> next_loc σ ->
    <[next_loc σ := Constructed (with_shared (size_incr 0)
        {| shared_count := 0; weak_count := 0; body := ControlBlockRegular p d a |})]>
      (<[next_loc σ := Constructed
        {| shared_count := 0; weak_count := 0; body := ControlBlockRegular p d a |}]>
        (<[next_loc σ := Raw]> (heap σ))) !! b = heap σ !! b) as Hother.
  { intros b Hne. by rewrite !lookup_insert_ne. }
  split.
  - eapply InvT_alloc_constructed; [exact HI|..]; simpl; try done;
      [apply lookup_insert_eq|reflexivity..].
  - split; [done|]. split; [done|]. apply evolves_alloc; simpl; done.
Qed.

(** [allocateShared]: one fresh combined block with [shared_count = 1];
    or the allocation failure with the state untouched; or the
    constructor failure, which leaves the raw storage behind. *)
Lemma allocateShared_inv a args tw σ :
  InvT None tw σ ->
  twp (allocateShared T_ctor a args)
    (fun h σ' => h = {| sp_ptr := nullptr; sp_cb := Some (next_loc σ) |} /\
                 InvT (sp_cb h) tw σ' /\ heap_step σ σ')
    (fun σ' => InvT None tw σ' /\ heap_step σ σ') σ.
Proof.
  intros HI. unfold twp, allocateShared, allocate, construct, SharedPtr_from_block,
    bind, put_block, incr_shared, bind, get_block, put_block, ret, throw.
  destruct (always_fails a); [split; [done|apply heap_step_refl]|]. simpl.
  destruct (T_ctor args) as [x|]; simpl.
  - rewrite lookup_insert_eq. simpl. split; [done|].
    assert (forall b, b <> next_loc σ ->
      <[next_loc σ := Constructed (with_shared (size_incr 0)
          {| shared_count := 0; weak_count := 0; body := ControlBlockMakeShared (Some x) a |})]>
        (<[next_loc σ := Constructed
          {| shared_count := 0; weak_count := 0; body := ControlBlockMakeShared (Some x) a |}]>
          (<[next_loc σ := Raw]> (heap σ))) !! b = heap σ !! b) as Hother.
    { intros b Hne. by rewrite !lookup_insert_ne. }
    split.
    + eapply InvT_alloc_constructed; [exact HI|..]; simpl; try done;
        [apply lookup_insert_eq|reflexivity..].
    + split; [done|]. split; [done|]. apply evolves_alloc; simpl; done.
  - split.
    + eapply InvT_alloc_raw; [exact HI|..]; simpl; done.
    + split; [done|]. split; [done|]. apply evolves_alloc; simpl; try done.
      intros b Hne. by rewrite lookup_insert_ne.
Qed.

(** ** Handle-store operations and the invariant *)

Lemma keeps_refl σ : keeps σ σ.
Proof. split; [done|]. eauto. Qed.

Lemma keeps_trans σ1 σ2 σ3 : keeps σ1 σ2 -> keeps σ2 σ3 -> keeps σ1 σ3.
Proof.
  intros [Ho1 Hb1] [Ho2 Hb2]. split; [congruence|].
  intros b cb Hcb. destruct (Hb1 b cb Hcb) as (cb2 & Hcb2 & Hbd2).
  destruct (Hb2 b cb2 Hcb2) as (cb3 & Hcb3 & Hbd3). exists cb3. split; [done|congruence].
Qed.

Lemma keeps_stores σ σ' : heap σ' = heap σ -> objs σ' = objs σ -> keeps σ σ'.
Proof. intros Hh Ho. split; [done|]. intros b cb Hcb. rewrite Hh. eauto. Qed.

Lemma deletable_objs bd σ σ' : objs σ' = objs σ -> deletable bd σ -> deletable bd σ'.
Proof. intros Ho. unfold deletable. by rewrite Ho. Qed.

Lemma releasable_keeps c σ σ' : keeps σ σ' -> releasable c σ -> releasable c σ'.
Proof.
  intros [Ho Hb]. unfold releasable. destruct c as [b|]; [|done].
  destruct (heap σ !! b) as [[|cb]|] eqn:Hcb; try done.
  destruct (Hb b cb Hcb) as (cb' & -> & ->). by apply deletable_objs.
Qed.

#[local] Instance deletable_dec bd σ : Decision (deletable bd σ).
Proof. destruct bd as [[|a|b] [|id] al|x al]; simpl; apply _. Defined.

Lemma store_step_evolves σ σ' : store_step σ σ' -> evolves σ σ'.
Proof.
  intros (Hh & Hn & Hl). split; [lia|]. split.
  - intros b _. by rewrite Hh.
  - exists []. by rewrite app_nil_r.
Qed.

Lemma InvT_store ts tw ts' tw' σ σ' :
  InvT ts tw σ -> store_step σ σ' ->
  (forall b, (srefs b σ' + tref b ts' = srefs b σ + tref b ts)%nat) ->
  (forall b, (wrefs b σ' + tref b tw' = wrefs b σ + tref b tw)%nat) ->
  InvT ts' tw' σ'.
Proof.
  intros HI (Hh & Hn & Hl) Hs Hw b.
  eapply block_ok_ext; [apply (HI b)|..]; auto.
  - by rewrite Hh.
  - unfold destroys. by rewrite Hl.
  - unfold deallocs. by rewrite Hl.
Qed.

Lemma wp_new_strong v h tw (Q : unit -> State -> Prop) E σ :
  InvT (sp_cb h) tw σ ->
  (forall σ', InvT None tw σ' -> store_step σ σ' ->
     size (strongs σ') = S (size (strongs σ)) -> weaks σ' = weaks σ ->
     (forall b, srefs b σ' = (srefs b σ + tref b (sp_cb h))%nat) ->
     Q tt σ') ->
  (is_Some (strongs σ !! v) -> U) ->
  wp U (new_strong v h) Q E σ.
Proof.
  intros HI HQ HU. unfold wp, new_strong.
  destruct (strongs σ !! v) eqn:Hv; [by apply HU|].
  assert (forall b, srefs b (set_strongs (<[v:=h]> (strongs σ)) σ)
                    = (srefs b σ + tref b (sp_cb h))%nat) as Hrefs.
  { intros b. unfold srefs. simpl. by apply refs_insert_None. }
  apply HQ; simpl; auto.
  - eapply InvT_store; [exact HI|done|..].
    + intros b. rewrite Hrefs, tref_None. lia.
    + done.
  - done.
  - by apply map_size_insert_None.
Qed.

Lemma wp_take_strong v tw (Q : SharedPtr -> State -> Prop) E σ :
  InvT None tw σ ->
  (forall h σ', strongs σ !! v = Some h -> InvT (sp_cb h) tw σ' -> store_step σ σ' ->
     (size (strongs σ') <= size (strongs σ))%nat -> weaks σ' = weaks σ ->
     (forall b, (srefs b σ' + tref b (sp_cb h))%nat = srefs b σ) ->
     keeps σ σ' ->
     Q h σ') ->
  (strongs σ !! v = None -> U) ->
  wp U (take_strong v) Q E σ.
Proof.
  intros HI HQ HU. unfold wp, take_strong, bind, get_strong, end_strong, ret.
  destruct (strongs σ !! v) as [h|] eqn:Hv; [|by apply HU].
  assert (forall b, (srefs b (set_strongs (delete v (strongs σ)) σ) + tref b (sp_cb h))%nat
                    = srefs b σ) as Hrefs.
  { intros b. unfold srefs. simpl. symmetry. by apply refs_delete_Some. }
  apply HQ; simpl; auto.
  - eapply InvT_store; [exact HI|done|..].
    + intros b. rewrite Hrefs, tref_None. lia.
    + done.
  - done.
  - rewrite map_size_delete, Hv. lia.
  - by apply keeps_stores.
Qed.

Lemma wp_SharedPtr_swap_temp this tmp tw (Q : SharedPtr -> State -> Prop) E σ :
  InvT (sp_cb tmp) tw σ ->
  (forall old σ', strongs σ !! this = Some old -> InvT (sp_cb old) tw σ' ->
     store_step σ σ' ->
     size (strongs σ') = size (strongs σ) -> weaks σ' = weaks σ ->
     (forall b, (srefs b σ' + tref b (sp_cb old) = srefs b σ + tref b (sp_cb tmp))%nat) ->
     keeps σ σ' ->
     Q old σ') ->
  (strongs σ !! this = None -> U) ->
  wp U (SharedPtr_swap_temp this tmp) Q E σ.
Proof.
  intros HI HQ HU. unfold wp, SharedPtr_swap_temp, bind, get_strong, set_strong, ret.
  destruct (strongs σ !! this) as [old|] eqn:Hv; [|by apply HU]. simpl. rewrite Hv.
  assert (forall b, (srefs b (set_strongs (<[this:=tmp]> (strongs σ)) σ) + tref b (sp_cb old)
                     = srefs b σ + tref b (sp_cb tmp))%nat) as Hrefs.
  { intros b. unfold srefs. simpl. by apply refs_insert_Some. }
  apply HQ; simpl; auto.
  - eapply InvT_store; [exact HI|done|..]; done.
  - done.
  - by apply map_size_insert_Some.
  - by apply keeps_stores.
Qed.

Lemma wp_SharedPtr_move_ctor other tw (Q : SharedPtr -> State -> Prop) E σ :
  InvT None tw σ ->
  (forall h σ', strongs σ !! other = Some h -> InvT (sp_cb h) tw σ' ->
     store_step σ σ' ->
     size (strongs σ') = size (strongs σ) -> weaks σ' = weaks σ ->
     (forall b, (srefs b σ' + tref b (sp_cb h))%nat = srefs b σ) ->
     strongs σ' !! other = Some SharedPtr_null ->
     (forall v', v' <> other -> strongs σ' !! v' = strongs σ !! v') ->
     keeps σ σ' ->
     Q h σ') ->
  (strongs σ !! other = None -> U) ->
  wp U (SharedPtr_move_ctor other) Q E σ.
Proof.
  intros HI HQ HU. unfold wp, SharedPtr_move_ctor, bind, get_strong, set_strong, ret.
  destruct (strongs σ !! other) as [[p c]|] eqn:Hv; [|by apply HU]. simpl. rewrite Hv.
  assert (forall b, (srefs b (set_strongs (<[other:=SharedPtr_null]> (strongs σ)) σ) + tref b c)%nat
                    = srefs b σ) as Hrefs.
  { intros b. unfold srefs. simpl.
    pose proof (refs_insert_Some sp_cb _ b other _ SharedPtr_null Hv) as Hr.
    simpl in Hr. rewrite tref_None in Hr. lia. }
  apply HQ; simpl; auto.
  - eapply InvT_store; [exact HI|done|..].
    + intros b. simpl. rewrite Hrefs, tref_None. lia.
    + done.
  - done.
  - by apply map_size_insert_Some.
  - apply lookup_insert_eq.
  - intros v' Hne. by rewrite lookup_insert_ne.
  - by apply keeps_stores.
Qed.

Lemma wp_SharedPtr_swap v1 v2 (Q : unit -> State -> Prop) E σ :
  Inv σ ->
  (forall σ', Inv σ' -> store_step σ σ' ->
     size (strongs σ') = size (strongs σ) -> weaks σ' = weaks σ ->
     (forall b, srefs b σ' = srefs b σ) ->
     Q tt σ') ->
  (strongs σ !! v1 = None \/ strongs σ !! v2 = None -> U) ->
  wp U (SharedPtr_swap v1 v2) Q E σ.
Proof.
  intros HI HQ HU. unfold wp, SharedPtr_swap, bind, get_strong, set_strong.
  destruct (strongs σ !! v1) as [h1|] eqn:Hv1; [|by apply HU; left].
  destruct (strongs σ !! v2) as [h2|] eqn:Hv2; [|by apply HU; right]. simpl.
  rewrite Hv1. simpl.
  destruct (<[v1:=h2]> (strongs σ) !! v2) as [h2'|] eqn:Hv2'.
  2:{ exfalso. destruct (decide (v1 = v2)) as [->|Hne].
      - by rewrite lookup_insert_eq in Hv2'.
      - rewrite lookup_insert_ne in Hv2' by done. congruence. }
  simpl.
  assert (forall b, srefs b (set_strongs (<[v2:=h1]> (<[v1:=h2]> (strongs σ))) σ) = srefs b σ) as Hrefs.
  { intros b. unfold srefs. simpl.
    pose proof (refs_insert_Some sp_cb _ b v2 _ h1 Hv2') as H2.
    pose proof (refs_insert_Some sp_cb _ b v1 _ h2 Hv1) as H1.
    destruct (decide (v1 = v2)) as [->|Hne].
    - rewrite lookup_insert_eq in Hv2'. rewrite Hv1 in Hv2. simplify_eq. lia.
    - rewrite lookup_insert_ne in Hv2' by done. rewrite Hv2 in Hv2'. simplify_eq. lia. }
  apply HQ; simpl; auto.
  - eapply InvT_store; [exact HI|done|..].
    + intros b. rewrite Hrefs. done.
    + done.
  - done.
  - rewrite map_size_insert_Some by done. by apply map_size_insert_Some.
Qed.

Lemma wp_new_weak v h ts (Q : unit -> State -> Prop) E σ :
  InvT ts (wp_cb h) σ ->
  (forall σ', InvT ts None σ' -> store_step σ σ' ->
     size (weaks σ') = S (size (weaks σ)) -> strongs σ' = strongs σ ->
     Q tt σ') ->
  (is_Some (weaks σ !! v) -> U) ->
  wp U (new_weak v h) Q E σ.
Proof.
  intros HI HQ HU. unfold wp, new_weak.
  destruct (weaks σ !! v) eqn:Hv; [by apply HU|].
  apply HQ; simpl; auto.
  - eapply InvT_store; [exact HI|done|..].
    + done.
    + intros b. unfold wrefs. simpl. rewrite refs_insert_None, tref_None by done. lia.
  - done.
  - by apply map_size_insert_None.
Qed.

Lemma wp_take_weak v ts (Q : WeakPtr -> State -> Prop) E σ :
  InvT ts None σ ->
  (forall h σ', weaks σ !! v = Some h -> InvT ts (wp_cb h) σ' -> store_step σ σ' ->
     (size (weaks σ') <= size (weaks σ))%nat -> strongs σ' = strongs σ ->
     Q h σ') ->
  (weaks σ !! v = None -> U) ->
  wp U (take_weak v) Q E σ.
Proof.
  intros HI HQ HU. unfold wp, take_weak, bind, get_weak, end_weak, ret.
  destruct (weaks σ !! v) as [h|] eqn:Hv; [|by apply HU].
  apply HQ; simpl; auto.
  - eapply InvT_store; [exact HI|done|..].
    + done.
    + intros b. unfold wrefs. simpl.
      rewrite (refs_delete_Some wp_cb (weaks σ) b v h Hv), tref_None. lia.
  - done.
  - rewrite map_size_delete, Hv. lia.
Qed.

Lemma wp_WeakPtr_swap_temp this tmp ts (Q : WeakPtr -> State -> Prop) E σ :
  InvT ts (wp_cb tmp) σ ->
  (forall old σ', weaks σ !! this = Some old -> InvT ts (wp_cb old) σ' ->
     store_step σ σ' ->
     size (weaks σ') = size (weaks σ) -> strongs σ' = strongs σ ->
     Q old σ') ->
  (weaks σ !! this = None -> U) ->
  wp U (WeakPtr_swap_temp this tmp) Q E σ.
Proof.
  intros HI HQ HU. unfold wp, WeakPtr_swap_temp, bind, get_weak, set_weak, ret.
  destruct (weaks σ !! this) as [old|] eqn:Hv; [|by apply HU]. simpl. rewrite Hv.
  apply HQ; simpl; auto.
  - eapply InvT_store; [exact HI|done|..].
    + done.
    + intros b. unfold wrefs. simpl. by apply refs_insert_Some.
  - done.
  - by apply map_size_insert_Some.
Qed.

Lemma wp_WeakPtr_move_ctor other ts (Q : WeakPtr -> State -> Prop) E σ :
  InvT ts None σ ->
  (forall h σ', weaks σ !! other = Some h -> InvT ts (wp_cb h) σ' ->
     store_step σ σ' ->
     size (weaks σ') = size (weaks σ) -> strongs σ' = strongs σ ->
     weaks σ' !! other = Some WeakPtr_null ->
     (forall v', v' <> other -> weaks σ' !! v' = weaks σ !! v') ->
     Q h σ') ->
  (weaks σ !! other = None -> U) ->
  wp U (WeakPtr_move_ctor other) Q E σ.
Proof.
  intros HI HQ HU. unfold wp, WeakPtr_move_ctor, bind, get_weak, set_weak, ret.
  destruct (weaks σ !! other) as [[p c]|] eqn:Hv; [|by apply HU]. simpl. rewrite Hv.
  apply HQ; simpl; auto.
  - eapply InvT_store; [exact HI|done|..].
    + done.
    + intros b. unfold wrefs. simpl.
      pose proof (refs_insert_Some wp_cb _ b other _ WeakPtr_null Hv) as Hr.
      simpl in Hr. rewrite tref_None in *. lia.
  - done.
  - by apply map_size_insert_Some.
  - apply lookup_insert_eq.
  - intros v' Hne. by rewrite lookup_insert_ne.
Qed.

Lemma wp_WeakPtr_swap v1 v2 (Q : unit -> State -> Prop) E σ :
  Inv σ ->
  (forall σ', Inv σ' -> store_step σ σ' ->
     size (weaks σ') = size (weaks σ) -> strongs σ' = strongs σ ->
     Q tt σ') ->
  (weaks σ !! v1 = None \/ weaks σ !! v2 = None -> U) ->
  wp U (WeakPtr_swap v1 v2) Q E σ.
Proof.
  intros HI HQ HU. unfold wp, WeakPtr_swap, bind, get_weak, set_weak.
  destruct (weaks σ !! v1) as [h1|] eqn:Hv1; [|by apply HU; left].
  destruct (weaks σ !! v2) as [h2|] eqn:Hv2; [|by apply HU; right]. simpl.
  rewrite Hv1. simpl.
  destruct (<[v1:=h2]> (weaks σ) !! v2) as [h2'|] eqn:Hv2'.
  2:{ exfalso. destruct (decide (v1 = v2)) as [->|Hne].
      - by rewrite lookup_insert_eq in Hv2'.
      - rewrite lookup_insert_ne in Hv2' by done. congruence. }
  simpl.
  apply HQ; simpl; auto.
  - eapply InvT_store; [exact HI|done|..].
    + done.
    + intros b. unfold wrefs. simpl.
      pose proof (refs_insert_Some wp_cb _ b v2 _ h1 Hv2') as H2.
      pose proof (refs_insert_Some wp_cb _ b v1 _ h2 Hv1) as H1.
      destruct (decide (v1 = v2)) as [->|Hne].
      * rewrite lookup_insert_eq in Hv2'. rewrite Hv1 in Hv2. simplify_eq. lia.
      * rewrite lookup_insert_ne in Hv2' by done. rewrite Hv2 in Hv2'. simplify_eq. lia.
  - done.
  - rewrite map_size_insert_Some by done. by apply map_size_insert_Some.
Qed.

(** ** The methods as rules of the calculus *)

Lemma SharedPtr_dtor_inv this tw σ :
  InvT (sp_cb this) tw σ -> releasable (sp_cb this) σ ->
  twp (SharedPtr_dtor plain_dtor plain_call this)
    (fun _ σ' => InvT None tw σ' /\ heap_step σ σ') (fun _ => False) σ.
Proof.
  intros HI Hrel. apply SharedPtr_dtor_last_inv; [exact HI|].
  intros b cb Hc Hcb _. unfold releasable in Hrel. by rewrite Hc, Hcb in Hrel.
Qed.

(** [destroy()] on a block whose pointer cannot be deleted is undefined. *)
Lemma destroy_undefined b (cb : @ControlBlock T) σ :
  heap σ !! b = Some (Constructed cb) -> ~ deletable (body cb) σ ->
  destroy plain_dtor plain_call b σ = UB.
Proof.
  intros Hcb Hnd. unfold destroy. unfold bind at 1. unfold get_block at 1. rewrite Hcb.
  unfold bind at 1. unfold emit at 1.
  destruct cb as [sc wc [p d a|x a]]; cbn [body deletable] in *.
  - unfold bind at 1. unfold call_deleter. unfold bind at 1. unfold emit.
    destruct d as [|id]; [|by destruct p; destruct Hnd].
    destruct p as [|ad|eb]; cbn [delete_expr objs]; [by destruct Hnd| |done].
    destruct (objs σ !! ad) as [x|] eqn:Hx; [|done]. destruct Hnd. eauto.
  - by destruct Hnd.
Qed.

(** [~SharedPtr()] on the last strong reference to such a block is
    undefined as well. *)
Lemma SharedPtr_dtor_undefined this b (cb : @ControlBlock T) σ :
  sp_cb this = Some b -> heap σ !! b = Some (Constructed cb) ->
  shared_count cb = 1 -> ~ deletable (body cb) σ ->
  SharedPtr_dtor plain_dtor plain_call this σ = UB.
Proof.
  intros Hc Hcb H1 Hnd. unfold SharedPtr_dtor. rewrite Hc.
  unfold bind at 1. unfold decr_shared. unfold bind at 1. unfold get_block at 1.
  rewrite Hcb. unfold put_block at 1. rewrite H1. change (size_decr 1) with 0.
  unfold bind at 1. unfold get_block at 1. cbn [heap set_heap]. rewrite lookup_insert_eq.
  cbn [shared_count with_shared].
  destruct (decide (0 = 0)) as [_|?]; [|done].
  unfold bind at 1. rewrite (destroy_undefined b (with_shared 0 cb)); [done| |done].
  cbn [heap set_heap]. apply lookup_insert_eq.
Qed.

Lemma wp_SharedPtr_dtor this tw (Q : unit -> State -> Prop) E σ :
  InvT (sp_cb this) tw σ ->
  (forall σ', InvT None tw σ' -> heap_step σ σ' -> Q tt σ') ->
  (~ releasable (sp_cb this) σ -> U) ->
  wp U (SharedPtr_dtor plain_dtor plain_call this) Q E σ.
Proof.
  intros HI HQ HU.
  assert ((forall b cb, sp_cb this = Some b -> heap σ !! b = Some (Constructed cb) ->
             shared_count cb = 1 -> deletable (body cb) σ) \/
          exists b cb, sp_cb this = Some b /\ heap σ !! b = Some (Constructed cb) /\
             shared_count cb = 1 /\ ~ deletable (body cb) σ) as [Hrel|Hbad].
  { destruct (sp_cb this) as [b|]; [|left; intros; done].
    destruct (heap σ !! b) as [[|cb]|] eqn:Hcb; try (left; intros; congruence).
    destruct (decide (shared_count cb = 1)) as [H1|H1]; [|left; intros; congruence].
    destruct (decide (deletable (body cb) σ)) as [Hd|Hd]; [left; intros; congruence|].
    right. eauto 10. }
  - apply twp_wp.
    eapply twp_mono; [apply SharedPtr_dtor_last_inv; [exact HI|exact Hrel]|..].
    + intros [] σ' [? ?]. by apply HQ.
    + done.
  - destruct Hbad as (b & cb & Hc & Hcb & H1 & Hnd).
    unfold wp. rewrite (SharedPtr_dtor_undefined this b cb σ Hc Hcb H1 Hnd).
    apply HU. unfold releasable. by rewrite Hc, Hcb.
Qed.

Lemma wp_WeakPtr_dtor this ts (Q : unit -> State -> Prop) E σ :
  InvT ts (wp_cb this) σ ->
  (forall σ', InvT ts None σ' -> heap_step σ σ' -> Q tt σ') ->
  wp U (WeakPtr_dtor this) Q E σ.
Proof.
  intros HI HQ. apply twp_wp.
  eapply twp_mono; [apply WeakPtr_dtor_inv; exact HI|..].
  - intros [] σ' [? ?]. by apply HQ.
  - done.
Qed.

Lemma wp_SharedPtr_copy_ctor o v tw (Q : SharedPtr -> State -> Prop) E σ :
  InvT None tw σ -> strongs σ !! v = Some o ->
  Z.of_nat (size (strongs σ)) + 1 < SIZE_MOD ->
  (forall σ', InvT (sp_cb o) tw σ' -> heap_step σ σ' -> keeps σ σ' ->
     Q {| sp_ptr := sp_ptr o; sp_cb := sp_cb o |} σ') ->
  wp U (SharedPtr_copy_ctor o) Q E σ.
Proof.
  intros HI Hv Hbd HQ. unfold wp, SharedPtr_copy_ctor, bind, ret.
  destruct (sp_cb o) as [b|] eqn:Hc.
  - destruct (incr_shared_inv b tw σ HI) as (σ' & Heq & HI' & Hst); auto.
    { unfold srefs. eapply refs_lookup_pos; eauto. }
    rewrite Heq. apply HQ; [done|done|].
    revert Heq. unfold incr_shared, bind, get_block, put_block.
    destruct (heap σ !! b) as [[|cb]|] eqn:Hcb; try done.
    intros [= <-]. split; [done|]. intros b0 cb0 Hb0. cbn [heap set_heap].
    destruct (decide (b0 = b)) as [->|Hne].
    + rewrite lookup_insert_eq. rewrite Hcb in Hb0. injection Hb0 as <-. eauto.
    + rewrite lookup_insert_ne by done. eauto.
  - apply HQ; [done|apply heap_step_refl|apply keeps_refl].
Qed.

Lemma wp_SharedPtr_from_weak w b (Q : SharedPtr -> State -> Prop) E σ :
  Inv σ -> wp_cb w = Some b -> (0 < srefs b σ)%nat ->
  Z.of_nat (size (strongs σ)) + 1 < SIZE_MOD ->
  (forall σ', InvT (Some b) None σ' -> heap_step σ σ' ->
     Q {| sp_ptr := wp_ptr w; sp_cb := Some b |} σ') ->
  wp U (SharedPtr_from_weak w) Q E σ.
Proof.
  intros HI Hc Hpos Hbd HQ. unfold wp, SharedPtr_from_weak, bind, ret. rewrite Hc.
  destruct (incr_shared_inv b None σ HI) as (σ' & -> & HI' & Hst); auto.
Qed.

Lemma wp_WeakPtr_from_shared o v (Q : WeakPtr -> State -> Prop) E σ :
  Inv σ -> strongs σ !! v = Some o ->
  Z.of_nat (size (weaks σ)) + 1 < SIZE_MOD ->
  (forall σ', InvT None (sp_cb o) σ' -> heap_step σ σ' ->
     Q {| wp_ptr := sp_ptr o; wp_cb := sp_cb o |} σ') ->
  wp U (WeakPtr_from_shared o) Q E σ.
Proof.
  intros HI Hv Hbd HQ. unfold wp, WeakPtr_from_shared, bind, ret.
  destruct (sp_cb o) as [b|] eqn:Hc.
  - destruct (incr_weak_inv b None σ HI) as (σ' & -> & HI' & Hst); auto.
    pose proof (refs_lookup_pos sp_cb (strongs σ) b v o Hv Hc). unfold srefs. lia.
  - apply HQ; [done|apply heap_step_refl].
Qed.

Lemma wp_WeakPtr_copy_ctor o v (Q : WeakPtr -> State -> Prop) E σ :
  Inv σ -> weaks σ !! v = Some o ->
  Z.of_nat (size (weaks σ)) + 1 < SIZE_MOD ->
  (forall σ', InvT None (wp_cb o) σ' -> heap_step σ σ' ->
     Q {| wp_ptr := wp_ptr o; wp_cb := wp_cb o |} σ') ->
  wp U (WeakPtr_copy_ctor o) Q E σ.
Proof.
  intros HI Hv Hbd HQ. unfold wp, WeakPtr_copy_ctor, bind, ret.
  destruct (wp_cb o) as [b|] eqn:Hc.
  - destruct (incr_weak_inv b None σ HI) as (σ' & -> & HI' & Hst); auto.
    pose proof (refs_lookup_pos wp_cb (weaks σ) b v o Hv Hc). unfold wrefs. lia.
  - apply HQ; [done|apply heap_step_refl].
Qed.

(** [lock()] only takes a strong reference while one exists. *)
Lemma wp_WeakPtr_lock w (Q : SharedPtr -> State -> Prop) E σ :
  Inv σ -> Z.of_nat (size (strongs σ)) + 1 < SIZE_MOD ->
  (forall h σ', InvT (sp_cb h) None σ' -> heap_step σ σ' -> Q h σ') ->
  (weaks σ !! w = None -> U) ->
  wp U (WeakPtr_lock w) Q E σ.
Proof.
  intros HI Hbd HQ HU.
  unfold wp, WeakPtr_lock, WeakPtr_expired, WeakPtr_use_count, bind, get_weak, ret.
  destruct (weaks σ !! w) as [h|] eqn:Hw; [|by apply HU].
  destruct (wp_cb h) as [b|] eqn:Hc.
  - unfold get_block.
    destruct (InvT_constructed None None σ b HI) as (cb & Hcb & _ & Hs & _).
    { pose proof (refs_lookup_pos wp_cb (weaks σ) b w h Hw Hc). unfold wrefs. lia. }
    rewrite Hcb. rewrite tref_None, Nat.add_0_r in Hs.
    case_bool_decide as Hz.
    + apply HQ; [done|apply heap_step_refl].
    + rewrite Hw.
      apply (wp_SharedPtr_from_weak h b Q E σ HI Hc); [lia|done|].
      intros σ' HI' Hst. by apply (HQ {| sp_ptr := wp_ptr h; sp_cb := Some b |}).
  - simpl. apply HQ; [done|apply heap_step_refl].
Qed.

Lemma wp_SharedPtr_ptr_ctor p d a tw (Q : SharedPtr -> State -> Prop) (E : State -> Prop) σ :
  InvT None tw σ ->
  (forall h σ', InvT (sp_cb h) tw σ' -> heap_step σ σ' -> keeps σ σ' -> Q h σ') ->
  E σ ->
  wp U (SharedPtr_ptr_ctor p d a) Q E σ.
Proof.
  intros HI HQ HE.
  pose proof (SharedPtr_ptr_ctor_inv p d a tw σ HI) as Hc. unfold twp in Hc. unfold wp.
  destruct (SharedPtr_ptr_ctor p d a σ) as [h σ'|σ'|] eqn:Heq; [| |done].
  - destruct Hc as (_ & HI' & Hst). apply HQ; [done|done|].
    revert Heq. unfold SharedPtr_ptr_ctor, allocate, bind, put_block, incr_shared, bind,
      get_block, put_block, ret.
    destruct (always_fails a); [done|]. cbn [heap set_heap]. rewrite lookup_insert_eq.
    intros [= <- <-]. split; [done|]. intros b0 cb0 Hb0. cbn [heap set_heap].
    destruct (InvT_fresh None tw σ (next_loc σ) HI) as (Hnone & _); [lia|].
    assert (b0 <> next_loc σ) as Hne by congruence.
    rewrite !lookup_insert_ne by done. eauto.
  - by subst σ'.
Qed.

Lemma wp_allocateShared a args tw (Q : SharedPtr -> State -> Prop) (E : State -> Prop) σ :
  InvT None tw σ ->
  (forall h σ', InvT (sp_cb h) tw σ' -> heap_step σ σ' -> Q h σ') ->
  (forall σ', InvT None tw σ' -> heap_step σ σ' -> E σ') ->
  wp U (allocateShared T_ctor a args) Q E σ.
Proof.
  intros HI HQ HE. apply twp_wp.
  eapply twp_mono; [apply allocateShared_inv; exact HI|..].
  - intros h σ' (_ & ? & ?). by apply HQ.
  - intros σ' (? & ?). by apply HE.
Qed.

End Rules.

(** ** Every statement preserves the invariant *)

Lemma heap_step_evolves σ σ' : heap_step σ σ' -> evolves σ σ'.
Proof. by intros (_ & _ & ?). Qed.

Ltac solve_evolves :=
  solve [ repeat first
    [ apply evolves_refl
    | eapply store_step_evolves; eassumption
    | eapply heap_step_evolves; eassumption
    | eapply evolves_trans;
        [first [eapply store_step_evolves; eassumption
               |eapply heap_step_evolves; eassumption]|] ] ].

Ltac split_steps :=
  repeat match goal with
  | H : heap_step _ _ |- _ =>
      let Hs := fresh "Hs" in let Hw := fresh "Hw" in
      pose proof (heap_step_evolves _ _ H);
      destruct H as (Hs & Hw & _)
  end.

Ltac rewrite_stores :=
  unfold srefs, wrefs in *;
  repeat match goal with
  | H : strongs ?s = _ |- _ => rewrite H in *; clear H
  | H : weaks ?s = _ |- _ => rewrite H in *; clear H
  end.

Ltac finish_step :=
  unfold step_post, Inv;
  split; [assumption|];
  split; [solve_evolves|];
  split_steps; rewrite_stores;
  split; [lia|]; split; [lia|];
  let b := fresh "b" in
  intros b; unfold released_ref; simpl;
  repeat match goal with
  | H : forall _ : loc, _ |- _ => specialize (H b)
  | H : _ !! _ = Some _ |- _ => rewrite H
  end;
  unfold SharedPtr_null in *; cbn [sp_cb] in *; rewrite ?tref_None in *;
  try lia.

Lemma may_release_keeps v old σ σ' :
  strongs σ !! v = Some old -> keeps σ σ' -> may_release v σ ->
  releasable (sp_cb old) σ'.
Proof.
  intros Hv Hk Hm. unfold may_release in Hm. rewrite Hv in Hm.
  by apply (releasable_keeps _ σ σ').
Qed.

Lemma may_release_Some v σ : may_release v σ -> is_Some (strongs σ !! v).
Proof. unfold may_release. destruct (strongs σ !! v); [eauto|done]. Qed.

Ltac out_of_scope :=
  let Hbad := fresh "Hbad" in
  let Hsc := fresh "Hsc" in
  intros Hbad Hsc; simpl in Hsc;
  repeat match goal with
  | H : context [may_release _ _] |- _ =>
      first [ apply may_release_Some in H
            | let H1 := fresh in let H2 := fresh in
              destruct H as [H1 H2]; apply may_release_Some in H1 ]
  end;
  split_steps;
  repeat match goal with
  | H : strongs ?s = _ |- _ => rewrite H in *; clear H
  | H : weaks ?s = _ |- _ => rewrite H in *; clear H
  end;
  repeat match goal with
  | H : _ /\ _ |- _ => destruct H
  | H : _ \/ _ |- _ => destruct H
  | H : is_Some _ |- _ => destruct H
  end;
  congruence.

(** Undefined behaviour only comes from a statement that is out of
    scope; otherwise the statement ends, normally or by an exception, in a
    state that satisfies [step_post]. *)
Lemma step_inv op σ :
  Inv σ -> Bounded σ ->
  wp (~ in_scope op σ) (step T_ctor plain_dtor plain_call op)
    (fun _ σ' => step_post op σ σ') (step_post op σ) σ.
Proof.
  intros HI [Hbs Hbw]. destruct op; simpl.
  - (* SpDefault *)
    eapply wp_new_strong; [exact HI| |out_of_scope]. intros. finish_step.
  - (* SpFromPtr *)
    apply wp_bind. eapply wp_SharedPtr_ptr_ctor; [exact HI| |finish_step].
    intros h σ1 HI1 Hst1 _.
    eapply wp_new_strong; [exact HI1| |out_of_scope]. intros. finish_step.
  - (* SpCopy *)
    apply wp_bind, wp_get_strong; [|out_of_scope]. intros o Ho.
    apply wp_bind. eapply wp_SharedPtr_copy_ctor; [exact HI|exact Ho|exact Hbs|].
    intros σ1 HI1 Hst1 _.
    eapply wp_new_strong; [exact HI1| |out_of_scope]. intros. finish_step.
  - (* SpMove *)
    apply wp_bind. eapply wp_SharedPtr_move_ctor; [exact HI| |out_of_scope].
    intros h σ1 Hh HI1 Hst1 Hsz1 Hw1 Hr1 Hnull Hother _.
    eapply wp_new_strong; [exact HI1| |].
    + intros. clear Hnull Hother. finish_step.
    + intros Hbad [_ Hv]. destruct (decide (v = src)) as [->|Hne]; [congruence|].
      rewrite (Hother v Hne), Hv in Hbad. by destruct Hbad.
  - (* SpAssign *)
    unfold SharedPtr_assign. case_decide.
    + apply wp_bind, wp_get_strong; [|out_of_scope].
      intros o Ho. apply wp_ret. finish_step.
    + apply wp_bind, wp_get_strong; [|out_of_scope]. intros o Ho.
      apply wp_bind. eapply wp_SharedPtr_copy_ctor; [exact HI|exact Ho|exact Hbs|].
      intros σ1 HI1 Hst1 Hk1.
      apply wp_bind. eapply wp_SharedPtr_swap_temp; [exact HI1| |out_of_scope].
      intros old σ2 Hold HI2 Hst2 Hsz2 Hw2 Hr2 Hk2.
      eapply wp_SharedPtr_dtor; [exact HI2| |].
      * clear Hk1 Hk2. intros. finish_step.
      * intros Hn [Hm _]. apply Hn.
        apply (may_release_keeps dst old σ σ2); [|by eapply keeps_trans|done].
        destruct Hst1 as (Hs1 & _). by rewrite <- Hs1.
  - (* SpMoveAssign *)
    unfold SharedPtr_move_assign.
    apply wp_bind. eapply wp_SharedPtr_move_ctor; [exact HI| |out_of_scope].
    intros h σ1 Hh HI1 Hst1 Hsz1 Hw1 Hr1 Hnull Hother Hk1.
    apply wp_bind. eapply wp_SharedPtr_swap_temp; [exact HI1| |].
    + intros old σ2 Hold HI2 Hst2 Hsz2 Hw2 Hr2 Hk2.
      eapply wp_SharedPtr_dtor; [exact HI2| |].
      * intros σ3 HI3 Hst3.
        destruct (decide (dst = src)) as [->|Hne].
        -- rewrite Hnull in Hold. injection Hold as <-. clear Hnull Hother Hk1 Hk2.
           finish_step.
        -- rewrite (Hother dst Hne) in Hold. clear Hnull Hother Hk1 Hk2.
           finish_step.
      * intros Hn [Hm _]. apply Hn.
        destruct (decide (dst = src)) as [->|Hne].
        -- rewrite Hnull in Hold. by injection Hold as <-.
        -- rewrite (Hother dst Hne) in Hold.
           apply (may_release_keeps dst old σ σ2); [done|by eapply keeps_trans|done].
    + intros Hbad [Hm _]. apply may_release_Some in Hm. destruct Hm as [x Hd].
      destruct (decide (dst = src)) as [->|Hne]; [congruence|].
      rewrite (Hother dst Hne) in Hbad. congruence.
  - (* SpReset *)
    unfold SharedPtr_reset.
    apply wp_bind. eapply wp_SharedPtr_swap_temp; [exact HI| |out_of_scope].
    intros old σ2 Hold HI2 Hst2 Hsz2 Hw2 Hr2 Hk2.
    eapply wp_SharedPtr_dtor; [exact HI2| |].
    + clear Hk2. intros. finish_step.
    + intros Hn Hm. apply Hn. by apply (may_release_keeps v old σ σ2).
  - (* SpResetPtr *)
    unfold SharedPtr_reset_ptr.
    apply wp_bind. eapply wp_SharedPtr_ptr_ctor; [exact HI| |finish_step].
    intros h σ1 HI1 Hst1 Hk1.
    apply wp_bind. eapply wp_SharedPtr_swap_temp; [exact HI1| |out_of_scope].
    intros old σ2 Hold HI2 Hst2 Hsz2 Hw2 Hr2 Hk2.
    eapply wp_SharedPtr_dtor; [exact HI2| |].
    + clear Hk1 Hk2. intros. finish_step.
    + intros Hn Hm. apply Hn.
      apply (may_release_keeps v old σ σ2); [|by eapply keeps_trans|done].
      destruct Hst1 as (Hs1 & _). by rewrite <- Hs1.
  - (* SpSwap *)
    eapply wp_SharedPtr_swap; [exact HI| |out_of_scope]. intros. finish_step.
  - (* SpDestroy *)
    apply wp_bind. eapply wp_take_strong; [exact HI| |out_of_scope].
    intros h σ1 Hh HI1 Hst1 Hsz1 Hw1 Hr1 Hk1.
    eapply wp_SharedPtr_dtor; [exact HI1| |].
    + clear Hk1. intros. finish_step.
    + intros Hn Hm. apply Hn. by apply (may_release_keeps v h σ σ1).
  - (* SpAllocateShared *)
    apply wp_bind. eapply wp_allocateShared; [exact HI| |intros; finish_step].
    intros h σ1 HI1 Hst1.
    eapply wp_new_strong; [exact HI1| |out_of_scope]. intros. finish_step.
  - (* SpMakeShared *)
    apply wp_bind. eapply wp_allocateShared; [exact HI| |intros; finish_step].
    intros h σ1 HI1 Hst1.
    eapply wp_new_strong; [exact HI1| |out_of_scope]. intros. finish_step.
  - (* WpDefault *)
    eapply wp_new_weak; [exact HI| |out_of_scope]. intros. finish_step.
  - (* WpFromShared *)
    apply wp_bind, wp_get_strong; [|out_of_scope]. intros o Ho.
    apply wp_bind. eapply wp_WeakPtr_from_shared; [exact HI|exact Ho|exact Hbw|].
    intros σ1 HI1 Hst1.
    eapply wp_new_weak; [exact HI1| |out_of_scope]. intros. finish_step.
  - (* WpCopy *)
    apply wp_bind, wp_get_weak; [|out_of_scope]. intros o Ho.
    apply wp_bind. eapply wp_WeakPtr_copy_ctor; [exact HI|exact Ho|exact Hbw|].
    intros σ1 HI1 Hst1.
    eapply wp_new_weak; [exact HI1| |out_of_scope]. intros. finish_step.
  - (* WpMove *)
    apply wp_bind. eapply wp_WeakPtr_move_ctor; [exact HI| |out_of_scope].
    intros h σ1 Hh HI1 Hst1 Hsz1 Hs1 Hnull Hother.
    eapply wp_new_weak; [exact HI1| |].
    + intros. clear Hnull Hother. finish_step.
    + intros Hbad [_ Hv]. destruct (decide (w = src)) as [->|Hne]; [congruence|].
      rewrite (Hother w Hne), Hv in Hbad. by destruct Hbad.
  - (* WpAssign *)
    unfold WeakPtr_assign.
    apply wp_bind, wp_get_weak; [|out_of_scope]. intros o Ho.
    apply wp_bind. eapply wp_WeakPtr_copy_ctor; [exact HI|exact Ho|exact Hbw|].
    intros σ1 HI1 Hst1.
    apply wp_bind. eapply wp_WeakPtr_swap_temp; [exact HI1| |out_of_scope].
    intros old σ2 Hold HI2 Hst2 Hsz2 Hs2.
    eapply wp_WeakPtr_dtor; [exact HI2|]. intros. finish_step.
  - (* WpMoveAssign *)
    unfold WeakPtr_move_assign.
    apply wp_bind. eapply wp_WeakPtr_move_ctor; [exact HI| |out_of_scope].
    intros h σ1 Hh HI1 Hst1 Hsz1 Hs1 Hnull Hother.
    apply wp_bind. eapply wp_WeakPtr_swap_temp; [exact HI1| |].
    + intros old σ2 Hold HI2 Hst2 Hsz2 Hs2. clear Hnull Hother.
      eapply wp_WeakPtr_dtor; [exact HI2|]. intros. finish_step.
    + intros Hbad [[x Hd] _]. destruct (decide (dst = src)) as [->|Hne]; [congruence|].
      rewrite (Hother dst Hne) in Hbad. congruence.
  - (* WpSwap *)
    eapply wp_WeakPtr_swap; [exact HI| |out_of_scope]. intros. finish_step.
  - (* WpDestroy *)
    apply wp_bind. eapply wp_take_weak; [exact HI| |out_of_scope].
    intros h σ1 Hh HI1 Hst1 Hsz1 Hs1.
    eapply wp_WeakPtr_dtor; [exact HI1|]. intros. finish_step.
  - (* WpLock *)
    apply wp_bind. eapply wp_WeakPtr_lock; [exact HI|exact Hbs| |out_of_scope].
    intros h σ1 HI1 Hst1.
    eapply wp_new_strong; [exact HI1| |out_of_scope]. intros. finish_step.
  - (* ClientNew *)
    unfold wp, new_object. destruct (objs σ !! a) eqn:Ha.
    + intros Hsc. simpl in Hsc. congruence.
    + assert (store_step σ (set_objs (<[a:=x]> (objs σ)) σ)) as Hst by done.
      assert (Inv (set_objs (<[a:=x]> (objs σ)) σ)) as HI'.
      { eapply InvT_store; [exact HI|exact Hst|done..]. }
      split; [exact HI'|]. split; [by apply store_step_evolves|].
      simpl. split; [lia|]. split; [lia|].
      intros b. unfold srefs. simpl. lia.
Qed.

Lemma step_sound op σ σ' :
  Inv σ -> Bounded σ -> state_of (step T_ctor plain_dtor plain_call op σ) = Some σ' -> step_post op σ σ'.
Proof.
  intros HI Hb Hst. pose proof (step_inv op σ HI Hb) as Hwp.
  unfold wp in Hwp. destruct (step T_ctor plain_dtor plain_call op σ); simpl in Hst; by simplify_eq.
Qed.

(** A statement that is in scope never runs into undefined behaviour: no
    handle operation reaches a block that is gone. *)
Lemma step_defined op σ :
  Inv σ -> Bounded σ -> in_scope op σ -> is_Some (state_of (step T_ctor plain_dtor plain_call op σ)).
Proof.
  intros HI Hb Hsc. pose proof (step_inv op σ HI Hb) as Hwp.
  unfold wp in Hwp. destruct (step T_ctor plain_dtor plain_call op σ); simpl; eauto. done.
Qed.

Lemma exec_inv ops : forall σ σ' (k : nat),
  Inv σ ->
  (size (strongs σ) <= k)%nat -> (size (weaks σ) <= k)%nat ->
  Z.of_nat (k + length ops) < SIZE_MOD ->
  exec T_ctor plain_dtor plain_call ops σ = Some σ' ->
  Inv σ' /\ evolves σ σ' /\
  (size (strongs σ') <= k + length ops)%nat /\
  (size (weaks σ') <= k + length ops)%nat.
Proof.
  induction ops as [|op rest IH]; intros σ σ' k HI Hs Hw Hk Hex; simpl in *.
  - simplify_eq. split; [done|]. split; [apply evolves_refl|]. split; lia.
  - destruct (state_of (step T_ctor plain_dtor plain_call op σ)) as [σ1|] eqn:Hst; [|done].
    destruct (step_sound op σ σ1 HI) as (HI1 & Hev1 & Hs1 & Hw1 & _); [|done|].
    { split; lia. }
    destruct (IH σ1 σ' (S k) HI1) as (HI' & Hev' & Hs' & Hw'); try lia; [done|].
    split; [done|]. split; [eapply evolves_trans; eauto|]. split; lia.
Qed.

(** A scoped run is defined: it reaches a final state. *)
Lemma exec_defined ops : forall σ (k : nat),
  Inv σ ->
  (size (strongs σ) <= k)%nat -> (size (weaks σ) <= k)%nat ->
  Z.of_nat (k + length ops) < SIZE_MOD ->
  scoped T_ctor plain_dtor plain_call ops σ ->
  is_Some (exec T_ctor plain_dtor plain_call ops σ).
Proof.
  induction ops as [|op rest IH]; intros σ k HI Hs Hw Hk Hsc; simpl in *.
  - eauto.
  - destruct Hsc as [Hin Hrest].
    assert (Bounded σ) as Hb by (split; lia).
    destruct (step_defined op σ HI Hb Hin) as [σ1 Hst]. rewrite Hst.
    destruct (step_sound op σ σ1 HI Hb Hst) as (HI1 & _ & Hs1 & Hw1 & _).
    apply (IH σ1 (S k)); auto; lia.
Qed.


Lemma Inv_deallocs σ b :
  Inv σ -> (b < next_loc σ)%nat -> heap σ !! b <> Some Raw ->
  deallocs b σ = if decide ((srefs b σ + wrefs b σ)%nat = 0%nat) then 1%nat else 0%nat.
Proof.
  intros HI Hlt Hraw. specialize (HI b). unfold block_ok in HI.
  rewrite !tref_None, !Nat.add_0_r in HI.
  destruct (heap σ !! b) as [[|cb]|].
  - done.
  - destruct HI as (_&_&_&_&_&Hpos&_&Ha). rewrite decide_False by lia. done.
  - destruct HI as (-> & -> & Hc). rewrite decide_True in Hc by done.
    rewrite decide_True by done. tauto.
Qed.

Lemma Inv_live σ b :
  Inv σ -> (0 < srefs b σ + wrefs b σ)%nat ->
  exists cb, heap σ !! b = Some (Constructed cb) /\ (b < next_loc σ)%nat /\
    shared_count cb = Z.of_nat (srefs b σ) /\ weak_count cb = Z.of_nat (wrefs b σ).
Proof.
  intros HI Hpos.
  destruct (InvT_constructed None None σ b HI) as (cb & Hcb & Hlt & Hs & Hw & _).
  { rewrite !tref_None. lia. }
  rewrite !tref_None, !Nat.add_0_r in *. eauto.
Qed.

Lemma Inv_gone σ b :
  Inv σ -> (b < next_loc σ)%nat -> heap σ !! b <> Some Raw ->
  (srefs b σ + wrefs b σ)%nat = 0%nat -> heap σ !! b = None.
Proof.
  intros HI Hlt Hraw Hz. specialize (HI b). unfold block_ok in HI.
  rewrite !tref_None, !Nat.add_0_r in HI.
  destruct (heap σ !! b) as [[|cb]|]; [done| |done].
  destruct HI as (_&_&_&_&_&Hpos&_). lia.
Qed.

(** The three states around one statement of a run from [init]. *)
Lemma run_around ops1 op ops2 σ1 σ2 σ3 :
  Z.of_nat (length ops1 + length ops2) + 2 < SIZE_MOD ->
  exec T_ctor plain_dtor plain_call ops1 init = Some σ1 ->
  exec T_ctor plain_dtor plain_call [op] σ1 = Some σ2 ->
  exec T_ctor plain_dtor plain_call ops2 σ2 = Some σ3 ->
  Inv σ1 /\ step_post op σ1 σ2 /\ Inv σ3 /\ evolves σ2 σ3.
Proof.
  intros Hlen H1 H2 H3.
  assert (Inv σ1 /\ (size (strongs σ1) <= length ops1)%nat /\
          (size (weaks σ1) <= length ops1)%nat) as (HI1 & Hs1 & Hw1).
  { destruct (exec_inv ops1 init σ1 0 Inv_init) as (HI1 & _ & Hs1 & Hw1).
    - simpl. rewrite map_size_empty. lia.
    - simpl. rewrite map_size_empty. lia.
    - lia.
    - done.
    - auto. }
  simpl in H2. destruct (state_of (step T_ctor plain_dtor plain_call op σ1)) as [σ2'|] eqn:Hst; [|done].
  simplify_eq.
  assert (step_post op σ1 σ2) as Hpost.
  { apply step_sound; [done| |done]. split; lia. }
  destruct Hpost as (HI2 & Hev2 & Hs2 & Hw2 & Hrel).
  destruct (exec_inv ops2 σ2 σ3 (S (length ops1)) HI2) as (HI3 & Hev3 & _).
  - lia.
  - lia.
  - lia.
  - done.
  - split; [done|]. split; [|split; done].
    split; [done|]. split; [done|]. split; [done|]. split; done.
Qed.

(** A scoped run reaches the state after any of its prefixes, and what
    is left is a scoped run from there. *)
Lemma scoped_exec ops1 : forall ops2 σ (k : nat),
  Inv σ ->
  (size (strongs σ) <= k)%nat -> (size (weaks σ) <= k)%nat ->
  Z.of_nat (k + length ops1) < SIZE_MOD ->
  scoped T_ctor plain_dtor plain_call (ops1 ++ ops2) σ ->
  exists σ1, exec T_ctor plain_dtor plain_call ops1 σ = Some σ1 /\ scoped T_ctor plain_dtor plain_call ops2 σ1.
Proof.
  induction ops1 as [|op rest IH]; intros ops2 σ k HI Hs Hw Hk Hsc; simpl in *.
  - eauto.
  - destruct Hsc as [Hin Hrest].
    assert (Bounded σ) as Hb by (split; lia).
    destruct (step_defined op σ HI Hb Hin) as [σ' Hst]. rewrite Hst.
    destruct (step_sound op σ σ' HI Hb Hst) as (HI' & _ & Hs' & Hw' & _).
    apply (IH ops2 σ' (S k)); auto; lia.
Qed.

(** Every scoped run from [init] is defined at each of its statements. *)
Lemma scoped_run_defined ops1 op ops2 :
  Z.of_nat (length ops1 + length ops2) + 2 < SIZE_MOD ->
  scoped T_ctor plain_dtor plain_call (ops1 ++ op :: ops2) init ->
  exists σ1 σ2 σ3,
    exec T_ctor plain_dtor plain_call ops1 init = Some σ1 /\
    exec T_ctor plain_dtor plain_call [op] σ1 = Some σ2 /\
    exec T_ctor plain_dtor plain_call ops2 σ2 = Some σ3.
Proof.
  intros Hlen Hsc.
  assert (size (strongs (init (T:=T))) <= 0)%nat as Hs0 by (simpl; rewrite map_size_empty; lia).
  assert (size (weaks (init (T:=T))) <= 0)%nat as Hw0 by (simpl; rewrite map_size_empty; lia).
  destruct (scoped_exec ops1 (op :: ops2) init 0 Inv_init Hs0 Hw0) as (σ1 & H1 & Hsc1);
    [lia|done|].
  destruct (exec_inv ops1 init σ1 0 Inv_init Hs0 Hw0) as (HI1 & _ & Hs1 & Hw1); [lia|done|].
  destruct Hsc1 as [Hin Hrest].
  assert (Bounded σ1) as Hb1 by (split; lia).
  destruct (step_defined op σ1 HI1 Hb1 Hin) as [σ2 H2].
  destruct (step_sound op σ1 σ2 HI1 Hb1 H2) as (HI2 & _ & Hs2 & Hw2 & _).
  destruct (exec_defined ops2 σ2 (S (length ops1)) HI2) as [σ3 H3]; [lia|lia|lia|auto|].
  exists σ1, σ2, σ3. split; [done|]. split; [|done].
  simpl. by rewrite H2.
Qed.

(** * The claims *)


(** Around one statement of a run: the count of [deallocate()] calls on
    a block that a handle of either kind references before the statement. *)
Lemma deallocate_around ops1 op ops2 σ1 σ2 σ3 b :
  Z.of_nat (length ops1 + length ops2) + 2 < SIZE_MOD ->
  exec T_ctor plain_dtor plain_call ops1 init = Some σ1 ->
  exec T_ctor plain_dtor plain_call [op] σ1 = Some σ2 ->
  exec T_ctor plain_dtor plain_call ops2 σ2 = Some σ3 ->
  (0 < srefs b σ1 + wrefs b σ1)%nat ->
  (exists cb, heap σ1 !! b = Some (Constructed cb) /\
     shared_count cb = Z.of_nat (srefs b σ1) /\ weak_count cb = Z.of_nat (wrefs b σ1)) /\
  deallocs b σ1 = 0%nat /\
  deallocs b σ2 = (if decide ((srefs b σ2 + wrefs b σ2)%nat = 0%nat) then 1%nat else 0%nat) /\
  ((0 < srefs b σ2 + wrefs b σ2)%nat ->
     exists cb, heap σ2 !! b = Some (Constructed cb) /\
       shared_count cb = Z.of_nat (srefs b σ2) /\ weak_count cb = Z.of_nat (wrefs b σ2)) /\
  ((srefs b σ2 + wrefs b σ2)%nat = 0%nat ->
     heap σ2 !! b = None /\
     (srefs b σ3 + wrefs b σ3)%nat = 0%nat /\ deallocs b σ3 = 1%nat).
Proof.
  intros Hlen H1 H2 H3 Hpos.
  destruct (run_around ops1 op ops2 σ1 σ2 σ3 Hlen H1 H2 H3)
    as (HI1 & (HI2 & Hev2 & _) & HI3 & Hev3).
  destruct (Inv_live σ1 b HI1 Hpos) as (cb & Hcb & Hlt & Hs & Hw).
  assert (heap σ1 !! b <> Some Raw) as Hraw1 by (rewrite Hcb; done).
  assert ((b < next_loc σ2)%nat /\ heap σ2 !! b <> Some Raw) as [Hlt2 Hraw2].
  { destruct Hev2 as (Hn & Hr & _). split; [lia|auto]. }
  assert ((b < next_loc σ3)%nat /\ heap σ3 !! b <> Some Raw) as [Hlt3 Hraw3].
  { destruct Hev3 as (Hn & Hr & _). split; [lia|auto]. }
  pose proof (Inv_deallocs σ1 b HI1 Hlt Hraw1) as Ha1.
  pose proof (Inv_deallocs σ2 b HI2 Hlt2 Hraw2) as Ha2.
  pose proof (Inv_deallocs σ3 b HI3 Hlt3 Hraw3) as Ha3.
  rewrite decide_False in Ha1 by lia.
  split; [eauto|]. split; [exact Ha1|]. split; [exact Ha2|]. split.
  - intros Hpos2. destruct (Inv_live σ2 b HI2 Hpos2) as (cb2 & ? & _ & ? & ?). eauto.
  - intros Hz. rewrite decide_True in Ha2 by done.
    split; [by apply Inv_gone|].
    pose proof (evolves_deallocs σ2 σ3 b Hev3) as Hmono.
    destruct (decide ((srefs b σ3 + wrefs b σ3)%nat = 0%nat)); [split; [done|lia]|lia].
Qed.

(** X24.  Over values and custom deleters whose destructors and calls
    run no handle code: take a run from the empty program state whose
    statements are in scope, split at one of its statements into [ops1],
    [op], [ops2].  The run is defined, and for any block [b] referenced by
    a handle of either kind before [op]: the block is live and its two
    counters are the numbers of strong and of weak handles referencing it;
    [deallocate()] has not run on it; after [op] it has run exactly once
    if no handle of either kind references [b] any more (both counts have
    reached zero, in whichever order) and not at all otherwise; once it
    has run the storage is gone, no handle references [b] again and the
    count stays at one. *)
Theorem deallocate_runs_exactly_once ops1 op ops2 :
  Z.of_nat (length ops1 + length ops2) + 2 < SIZE_MOD ->
  scoped T_ctor plain_dtor plain_call (ops1 ++ op :: ops2) init ->
  exists σ1 σ2 σ3,
    exec T_ctor plain_dtor plain_call ops1 init = Some σ1 /\
    exec T_ctor plain_dtor plain_call [op] σ1 = Some σ2 /\
    exec T_ctor plain_dtor plain_call ops2 σ2 = Some σ3 /\
    forall b, (0 < srefs b σ1 + wrefs b σ1)%nat ->
      (exists cb, heap σ1 !! b = Some (Constructed cb) /\
         shared_count cb = Z.of_nat (srefs b σ1) /\
         weak_count cb = Z.of_nat (wrefs b σ1)) /\
      deallocs b σ1 = 0%nat /\
      deallocs b σ2
        = (if decide ((srefs b σ2 + wrefs b σ2)%nat = 0%nat) then 1%nat else 0%nat) /\
      ((0 < srefs b σ2 + wrefs b σ2)%nat ->
         exists cb, heap σ2 !! b = Some (Constructed cb) /\
           shared_count cb = Z.of_nat (srefs b σ2) /\
           weak_count cb = Z.of_nat (wrefs b σ2)) /\
      ((srefs b σ2 + wrefs b σ2)%nat = 0%nat ->
         heap σ2 !! b = None /\
         (srefs b σ3 + wrefs b σ3)%nat = 0%nat /\ deallocs b σ3 = 1%nat).
Proof.
  intros Hlen Hsc.
  destruct (scoped_run_defined ops1 op ops2 Hlen Hsc) as (σ1 & σ2 & σ3 & H1 & H2 & H3).
  exists σ1, σ2, σ3. split; [done|]. split; [done|]. split; [done|].
  intros b Hpos. by apply (deallocate_around ops1 op ops2 σ1 σ2 σ3 b).
Qed.

(** C3, as the code has it.  When the in-place construction of the value
    throws, [allocateShared] throws too, with no handle produced and the
    handle stores as they were; the storage obtained from [allocate] is
    left in the heap as raw memory and [deallocate] is not called: the log
    is unchanged. *)
Theorem factory_ctor_failure_keeps_allocation v a args σ :
  always_fails a = false -> T_ctor args = None ->
  let σ' := {| heap := <[next_loc σ := Raw]> (heap σ); next_loc := S (next_loc σ);
               objs := objs σ; strongs := strongs σ; weaks := weaks σ;
               log := log σ |} in
  allocateShared T_ctor a args σ = Throw σ' /\
  step T_ctor plain_dtor plain_call (SpAllocateShared v a args) σ = Throw σ' /\
  heap σ' !! next_loc σ = Some Raw /\ deallocs (next_loc σ) σ' = deallocs (next_loc σ) σ.
Proof.
  intros Hf Hx σ'. unfold step, allocateShared, bind, allocate, construct.
  rewrite Hf, Hx. simpl. subst σ'. simpl.
  rewrite lookup_insert_eq. done.
Qed.

(** C4.  [lock()], its result bound to a new handle [v].  On an expired
    weak handle (null, or strong count 0) the result is the null handle
    and [v.use_count()] is 0; otherwise, with the strong count [n] before
    the call, the result shares the block of [w] and [v.use_count()] is
    [n + 1]. *)
Theorem lock_result v w h σ :
  weaks σ !! w = Some h -> strongs σ !! v = None ->
  ((wp_cb h = None \/
    exists b cb, wp_cb h = Some b /\ heap σ !! b = Some (Constructed cb) /\
                 shared_count cb = 0) ->
   WeakPtr_expired w σ = Ok true σ /\
   exists σ', step T_ctor plain_dtor plain_call (WpLock v w) σ = Ok tt σ' /\
     strongs σ' !! v = Some SharedPtr_null /\
     SharedPtr_use_count v σ' = Ok 0 σ' /\ heap σ' = heap σ) /\
  (forall b cb n,
     wp_cb h = Some b -> heap σ !! b = Some (Constructed cb) ->
     shared_count cb = n -> 0 < n -> n + 1 < SIZE_MOD ->
     WeakPtr_expired w σ = Ok false σ /\
     exists σ', step T_ctor plain_dtor plain_call (WpLock v w) σ = Ok tt σ' /\
       strongs σ' !! v = Some {| sp_ptr := wp_ptr h; sp_cb := Some b |} /\
       SharedPtr_use_count v σ' = Ok (n + 1) σ').
Proof.
  intros Hw Hv. split.
  - intros Hexp.
    assert (WeakPtr_expired w σ = Ok true σ) as He.
    { unfold WeakPtr_expired, WeakPtr_use_count, bind, get_weak, get_block, ret. rewrite Hw.
      destruct Hexp as [->|(b & cb & -> & -> & ->)]; done. }
    split; [exact He|].
    unfold step, WeakPtr_lock, bind. rewrite He. simpl.
    unfold new_strong. rewrite Hv.
    eexists. split; [reflexivity|].
    unfold SharedPtr_use_count, bind, get_strong, ret. simpl.
    rewrite lookup_insert_eq. done.
  - intros b cb n Hc Hcb Hn Hpos Hlt.
    assert (WeakPtr_expired w σ = Ok false σ) as He.
    { unfold WeakPtr_expired, WeakPtr_use_count, bind, get_weak, get_block, ret.
      rewrite Hw, Hc, Hcb. rewrite bool_decide_eq_false_2 by lia. done. }
    split; [exact He|].
    unfold step, WeakPtr_lock, bind. rewrite He.
    unfold get_weak. rewrite Hw.
    unfold SharedPtr_from_weak, bind. rewrite Hc.
    unfold incr_shared, bind, get_block, put_block. rewrite Hcb. simpl.
    unfold new_strong. simpl. rewrite Hv.
    eexists. split; [reflexivity|].
    unfold SharedPtr_use_count, bind, get_strong, get_block, ret. simpl.
    repeat (rewrite lookup_insert_eq; simpl).
    unfold size_incr. rewrite Hn, Z.mod_small by lia. done.
Qed.

(** C5.  A handle produced by [allocateShared] (and by [makeShared], its
    instance at [std::allocator]) from arguments whose construction
    yields [x]: [operator*] yields [x], [operator->] yields the address of
    the value embedded in the new block, where [x] is read, and
    [use_count()] is 1. *)
Theorem factory_deref_and_use_count v a args x σ :
  always_fails a = false -> T_ctor args = Some x ->
  strongs σ !! v = None ->
  (exists σ', step T_ctor plain_dtor plain_call (SpAllocateShared v a args) σ = Ok tt σ' /\
     SharedPtr_deref v σ' = Ok x σ' /\
     SharedPtr_arrow v σ' = Ok (at_embedded (next_loc σ)) σ' /\
     load (at_embedded (next_loc σ)) σ' = Ok x σ' /\
     SharedPtr_use_count v σ' = Ok 1 σ') /\
  (exists σ', step T_ctor plain_dtor plain_call (SpMakeShared v args) σ = Ok tt σ' /\
     SharedPtr_deref v σ' = Ok x σ' /\
     SharedPtr_arrow v σ' = Ok (at_embedded (next_loc σ)) σ' /\
     load (at_embedded (next_loc σ)) σ' = Ok x σ' /\
     SharedPtr_use_count v σ' = Ok 1 σ').
Proof.
  intros Hf Hx Hv.
  assert (forall a', always_fails a' = false ->
    exists σ', step T_ctor plain_dtor plain_call (SpAllocateShared v a' args) σ = Ok tt σ' /\
     SharedPtr_deref v σ' = Ok x σ' /\
     SharedPtr_arrow v σ' = Ok (at_embedded (next_loc σ)) σ' /\
     load (at_embedded (next_loc σ)) σ' = Ok x σ' /\
     SharedPtr_use_count v σ' = Ok 1 σ') as Hgen.
  { intros a' Hf'.
    unfold step, allocateShared, bind, allocate, construct. rewrite Hf', Hx.
    unfold put_block, SharedPtr_from_block, bind, incr_shared, bind, get_block, put_block.
    simpl. rewrite lookup_insert_eq. simpl.
    unfold new_strong. simpl. rewrite Hv.
    eexists. split; [reflexivity|].
    unfold SharedPtr_deref, SharedPtr_arrow, SharedPtr_use_count, as_make_shared, load,
      bind, get_strong, get_block, ret. simpl.
    repeat (rewrite lookup_insert_eq; simpl).
    repeat split; reflexivity. }
  split; [by apply Hgen|].
  unfold step, makeShared. apply (Hgen std_allocator). reflexivity.
Qed.

(** C6.  [get()] on a handle constructed from the raw pointer [p]
    returns [p]; on a factory-made handle it returns the null pointer,
    although [operator*] on that same handle yields the live value. *)
Theorem get_raw_and_factory v p d a args x σ :
  always_fails a = false -> T_ctor args = Some x ->
  strongs σ !! v = None ->
  (exists σ', step T_ctor plain_dtor plain_call (SpFromPtr v p d a) σ = Ok tt σ' /\
     SharedPtr_get v σ' = Ok p σ') /\
  (exists σ', step T_ctor plain_dtor plain_call (SpAllocateShared v a args) σ = Ok tt σ' /\
     SharedPtr_get v σ' = Ok nullptr σ' /\
     SharedPtr_deref v σ' = Ok x σ').
Proof.
  intros Hf Hx Hv. split.
  - unfold step, SharedPtr_ptr_ctor, bind, allocate. rewrite Hf.
    unfold put_block, incr_shared, bind, get_block, put_block.
    simpl. rewrite lookup_insert_eq. simpl.
    unfold new_strong. simpl. rewrite Hv.
    eexists. split; [reflexivity|].
    unfold SharedPtr_get, bind, get_strong, ret. simpl.
    by rewrite lookup_insert_eq.
  - unfold step, allocateShared, bind, allocate, construct. rewrite Hf, Hx.
    unfold put_block, SharedPtr_from_block, bind, incr_shared, bind, get_block, put_block.
    simpl. rewrite lookup_insert_eq. simpl.
    unfold new_strong. simpl. rewrite Hv.
    eexists. split; [reflexivity|].
    unfold SharedPtr_get, SharedPtr_deref, as_make_shared, load,
      bind, get_strong, get_block, ret. simpl.
    repeat (rewrite lookup_insert_eq; simpl).
    split; reflexivity.
Qed.

(** C7.  With an allocator whose [allocate] throws, the pointer
    constructor throws and leaves the whole state as it was: no handle
    object exists, no block was created, and the log is unchanged, so
    neither the deleter nor [destroy()] ran on the pointed-to value. *)
Theorem ptr_ctor_allocation_failure v p d a σ :
  always_fails a = true ->
  SharedPtr_ptr_ctor p d a σ = Throw σ /\
  step T_ctor plain_dtor plain_call (SpFromPtr v p d a) σ = Throw σ.
Proof.
  intros Hf. unfold step, SharedPtr_ptr_ctor, bind, allocate. rewrite Hf. done.
Qed.

(** C8.  Copy-constructing [s2] from a non-null [s] whose block holds the
    strong count [n] (below [SIZE_MAX]) succeeds, and afterwards
    [s.use_count()] and [s2.use_count()] both are [n + 1]. *)
Theorem copy_use_count s s2 h b cb n σ :
  strongs σ !! s = Some h -> sp_cb h = Some b ->
  heap σ !! b = Some (Constructed cb) -> shared_count cb = n ->
  0 <= n -> n + 1 < SIZE_MOD ->
  strongs σ !! s2 = None ->
  exists σ', step T_ctor plain_dtor plain_call (SpCopy s2 s) σ = Ok tt σ' /\
    SharedPtr_use_count s σ' = Ok (n + 1) σ' /\
    SharedPtr_use_count s2 σ' = Ok (n + 1) σ'.
Proof.
  intros Hs Hc Hcb Hn Hn0 Hn1 Hs2.
  assert (s <> s2) as Hne by (intros ->; congruence).
  unfold step, bind, get_strong. rewrite Hs.
  unfold SharedPtr_copy_ctor, bind. rewrite Hc.
  unfold incr_shared, bind, get_block, put_block. rewrite Hcb. simpl.
  unfold new_strong. simpl. rewrite Hs2.
  eexists. split; [reflexivity|].
  unfold SharedPtr_use_count, bind, get_strong, get_block, ret. simpl.
  rewrite lookup_insert_ne by done. rewrite Hs, Hc.
  repeat (rewrite lookup_insert_eq; simpl).
  unfold size_incr. rewrite Hn, Z.mod_small by lia. done.
Qed.

(** ** Null handles and self-assignment *)

Lemma set_strongs_id σ : set_strongs (strongs σ) σ = σ.
Proof. by destruct σ. Qed.

Lemma set_weaks_id σ : set_weaks (weaks σ) σ = σ.
Proof. by destruct σ. Qed.

Lemma set_strongs_same v h σ :
  strongs σ !! v = Some h -> set_strongs (<[v := h]> (strongs σ)) σ = σ.
Proof. intros Hv. rewrite insert_id by done. apply set_strongs_id. Qed.

Lemma set_weaks_same v h σ :
  weaks σ !! v = Some h -> set_weaks (<[v := h]> (weaks σ)) σ = σ.
Proof. intros Hv. rewrite insert_id by done. apply set_weaks_id. Qed.

(** C9, as the code has it.  Copy- or move-constructing from a null
    handle gives a null handle with [use_count()] 0, and destroying a null
    handle only ends the handle object: in each case the heap of control
    blocks and the log are those of the state before.  Assigning from a
    null handle does to the target exactly what [reset()] does (for a weak
    target: swap with an empty temporary, which is then destroyed), so the
    block the target referenced gives up one reference; when the target is
    null as well, the state does not change at all. *)
Theorem null_handle_operations n wn v t wt σ :
  strongs σ !! n = Some SharedPtr_null -> weaks σ !! wn = Some WeakPtr_null ->
  strongs σ !! v = None -> weaks σ !! v = None ->
  let σs := set_strongs (<[v := SharedPtr_null]> (strongs σ)) σ in
  let σw := set_weaks (<[v := WeakPtr_null]> (weaks σ)) σ in
  step T_ctor plain_dtor plain_call (SpCopy v n) σ = Ok tt σs /\
  step T_ctor plain_dtor plain_call (SpMove v n) σ = Ok tt σs /\
  SharedPtr_use_count v σs = Ok 0 σs /\
  step T_ctor plain_dtor plain_call (WpCopy v wn) σ = Ok tt σw /\
  step T_ctor plain_dtor plain_call (WpMove v wn) σ = Ok tt σw /\
  WeakPtr_use_count v σw = Ok 0 σw /\
  step T_ctor plain_dtor plain_call (SpDestroy n) σ = Ok tt (set_strongs (delete n (strongs σ)) σ) /\
  step T_ctor plain_dtor plain_call (WpDestroy wn) σ = Ok tt (set_weaks (delete wn (weaks σ)) σ) /\
  step T_ctor plain_dtor plain_call (SpAssign t n) σ = step T_ctor plain_dtor plain_call (SpReset t) σ /\
  step T_ctor plain_dtor plain_call (SpMoveAssign t n) σ = step T_ctor plain_dtor plain_call (SpReset t) σ /\
  step T_ctor plain_dtor plain_call (WpAssign wt wn) σ
    = bind (WeakPtr_swap_temp wt WeakPtr_null) WeakPtr_dtor σ /\
  step T_ctor plain_dtor plain_call (WpMoveAssign wt wn) σ
    = bind (WeakPtr_swap_temp wt WeakPtr_null) WeakPtr_dtor σ /\
  (strongs σ !! t = Some SharedPtr_null ->
     step T_ctor plain_dtor plain_call (SpAssign t n) σ = Ok tt σ /\
     step T_ctor plain_dtor plain_call (SpMoveAssign t n) σ = Ok tt σ) /\
  (weaks σ !! wt = Some WeakPtr_null ->
     step T_ctor plain_dtor plain_call (WpAssign wt wn) σ = Ok tt σ /\
     step T_ctor plain_dtor plain_call (WpMoveAssign wt wn) σ = Ok tt σ).
Proof.
  intros Hn Hwn Hv Hvw σs σw.
  assert (step T_ctor plain_dtor plain_call (SpMoveAssign t n) σ = step T_ctor plain_dtor plain_call (SpReset t) σ) as Hma.
  { unfold step, SharedPtr_move_assign, SharedPtr_reset, SharedPtr_move_ctor,
      bind, get_strong, set_strong, ret.
    rewrite Hn. simpl. rewrite Hn. rewrite (set_strongs_same n _ σ Hn). done. }
  assert (step T_ctor plain_dtor plain_call (SpAssign t n) σ = step T_ctor plain_dtor plain_call (SpReset t) σ) as Has.
  { unfold step, SharedPtr_assign, SharedPtr_reset. case_decide as Ht.
    - subst t. unfold SharedPtr_swap_temp, bind, get_strong, set_strong, ret.
      rewrite Hn. simpl. rewrite Hn. rewrite (set_strongs_same n _ σ Hn). done.
    - unfold bind at 1. unfold get_strong at 1. rewrite Hn.
      unfold bind at 1. unfold SharedPtr_copy_ctor at 1. simpl. done. }
  assert (step T_ctor plain_dtor plain_call (WpMoveAssign wt wn) σ
          = bind (WeakPtr_swap_temp wt WeakPtr_null) WeakPtr_dtor σ) as Hwma.
  { unfold step, WeakPtr_move_assign, WeakPtr_move_ctor, bind, get_weak, set_weak, ret.
    rewrite Hwn. simpl. rewrite Hwn. rewrite (set_weaks_same wn _ σ Hwn). done. }
  assert (step T_ctor plain_dtor plain_call (WpAssign wt wn) σ
          = bind (WeakPtr_swap_temp wt WeakPtr_null) WeakPtr_dtor σ) as Hwas.
  { unfold step, WeakPtr_assign.
    unfold bind at 1. unfold get_weak at 1. rewrite Hwn.
    unfold bind at 1. unfold WeakPtr_copy_ctor at 1. simpl. done. }
  repeat split.
  - unfold step, bind, get_strong, SharedPtr_copy_ctor, bind, new_strong, ret.
    rewrite Hn. simpl. rewrite Hv. done.
  - unfold step, SharedPtr_move_ctor, bind, get_strong, set_strong, new_strong, ret.
    rewrite Hn. simpl. rewrite Hn. simpl.
    rewrite (insert_id (strongs σ) n) by done. rewrite Hv. done.
  - unfold SharedPtr_use_count, bind, get_strong, ret. subst σs. simpl.
    by rewrite lookup_insert_eq.
  - unfold step, bind, get_weak, WeakPtr_copy_ctor, bind, new_weak, ret.
    rewrite Hwn. simpl. rewrite Hvw. done.
  - unfold step, WeakPtr_move_ctor, bind, get_weak, set_weak, new_weak, ret.
    rewrite Hwn. simpl. rewrite Hwn. simpl.
    rewrite (insert_id (weaks σ) wn) by done. rewrite Hvw. done.
  - unfold WeakPtr_use_count, bind, get_weak, ret. subst σw. simpl.
    by rewrite lookup_insert_eq.
  - unfold step, take_strong, bind, get_strong, end_strong, SharedPtr_dtor, ret.
    rewrite Hn. done.
  - unfold step, take_weak, bind, get_weak, end_weak, WeakPtr_dtor, ret.
    rewrite Hwn. done.
  - exact Has.
  - exact Hma.
  - exact Hwas.
  - exact Hwma.
  - rewrite Has. unfold step, SharedPtr_reset, SharedPtr_swap_temp, bind,
      get_strong, set_strong, ret. rewrite H. simpl. rewrite H.
    rewrite (set_strongs_same t _ σ H). done.
  - rewrite Hma. unfold step, SharedPtr_reset, SharedPtr_swap_temp, bind,
      get_strong, set_strong, ret. rewrite H. simpl. rewrite H.
    rewrite (set_strongs_same t _ σ H). done.
  - rewrite Hwas. unfold WeakPtr_swap_temp, bind, get_weak, set_weak, ret.
    rewrite H. simpl. rewrite H. rewrite (set_weaks_same wt _ σ H). done.
  - rewrite Hwma. unfold WeakPtr_swap_temp, bind, get_weak, set_weak, ret.
    rewrite H. simpl. rewrite H. rewrite (set_weaks_same wt _ σ H). done.
Qed.

(** C10.  Self-assignment, by copy or by move, of a strong handle and of
    a weak handle (whose block, if any, counts it: [weak_count >= 1])
    returns normally in the very state it started from: the handle, the
    block it references and both counters are as before, and nothing was
    logged. *)
Theorem self_assignment_is_identity s w hs hw σ :
  strongs σ !! s = Some hs -> weaks σ !! w = Some hw ->
  (forall b, wp_cb hw = Some b ->
     exists cb, heap σ !! b = Some (Constructed cb) /\ 1 <= weak_count cb < SIZE_MOD) ->
  step T_ctor plain_dtor plain_call (SpAssign s s) σ = Ok tt σ /\
  step T_ctor plain_dtor plain_call (SpMoveAssign s s) σ = Ok tt σ /\
  step T_ctor plain_dtor plain_call (WpAssign w w) σ = Ok tt σ /\
  step T_ctor plain_dtor plain_call (WpMoveAssign w w) σ = Ok tt σ.
Proof.
  intros Hs Hw Hacc. split; [|split; [|split]].
  - unfold step, SharedPtr_assign. rewrite decide_True by done.
    unfold bind, get_strong. rewrite Hs. done.
  - unfold step, SharedPtr_move_assign, SharedPtr_move_ctor, SharedPtr_swap_temp,
      bind, get_strong, set_strong, ret.
    rewrite Hs. simpl. rewrite Hs. simpl.
    repeat (rewrite (lookup_insert_eq (strongs σ)); simpl).
    rewrite insert_insert_eq. destruct hs as [p c]. simpl.
    rewrite (insert_id (strongs σ) s) by done. by destruct σ.
  - unfold step, WeakPtr_assign. unfold bind at 1. unfold get_weak at 1. rewrite Hw.
    destruct hw as [p [b|]]; simpl in *.
    + destruct (Hacc b eq_refl) as (cb & Hcb & Hge & Hlt).
      assert (size_decr (size_incr (weak_count cb)) = weak_count cb) as Hrt.
      { unfold size_decr, size_incr, SIZE_MOD in *.
        destruct (decide (weak_count cb + 1 < 2 ^ 64)).
        - rewrite (Z.mod_small (weak_count cb + 1)) by lia.
          replace (weak_count cb + 1 - 1) with (weak_count cb) by lia.
          apply Z.mod_small. lia.
        - assert (weak_count cb = 2 ^ 64 - 1) as -> by lia. reflexivity. }
      set (cb1 := with_weak (size_incr (weak_count cb)) cb).
      set (σa := set_heap (<[b := Constructed cb1]> (heap σ)) σ).
      assert (WeakPtr_copy_ctor {| wp_ptr := p; wp_cb := Some b |} σ
              = Ok {| wp_ptr := p; wp_cb := Some b |} σa) as E1.
      { unfold WeakPtr_copy_ctor, incr_weak, bind, get_block, put_block, ret. simpl.
        by rewrite Hcb. }
      assert (WeakPtr_swap_temp w {| wp_ptr := p; wp_cb := Some b |} σa
              = Ok {| wp_ptr := p; wp_cb := Some b |} σa) as E2.
      { unfold WeakPtr_swap_temp, bind, get_weak, set_weak, ret. subst σa. simpl.
        rewrite Hw. simpl. rewrite Hw.
        by rewrite (insert_id (weaks σ) w). }
      assert (WeakPtr_dtor {| wp_ptr := p; wp_cb := Some b |} σa = Ok tt σ) as E3.
      { unfold WeakPtr_dtor, decr_weak, bind, get_block, put_block, ret. subst σa. simpl.
        rewrite lookup_insert_eq. simpl. rewrite lookup_insert_eq. simpl.
        rewrite Hrt. rewrite decide_False by lia.
        rewrite insert_insert_eq.
        assert (with_weak (weak_count cb) cb1 = cb) as -> by (by destruct cb).
        rewrite (insert_id (heap σ) b) by done. by destruct σ. }
      unfold bind. rewrite E1, E2. exact E3.
    + assert (WeakPtr_swap_temp w {| wp_ptr := p; wp_cb := None |} σ
              = Ok {| wp_ptr := p; wp_cb := None |} σ) as E2.
      { unfold WeakPtr_swap_temp, bind, get_weak, set_weak, ret.
        rewrite Hw. simpl. rewrite Hw.
        rewrite (insert_id (weaks σ) w) by done. by destruct σ. }
      unfold bind, WeakPtr_copy_ctor, ret. simpl. unfold bind. rewrite E2. done.
  - unfold step, WeakPtr_move_assign, WeakPtr_move_ctor, WeakPtr_swap_temp,
      bind, get_weak, set_weak, ret.
    rewrite Hw. simpl. rewrite Hw. simpl.
    repeat (rewrite (lookup_insert_eq (weaks σ)); simpl).
    rewrite insert_insert_eq. destruct hw as [p c]. simpl.
    rewrite (insert_id (weaks σ) w) by done. by destruct σ.
Qed.

End Proofs.




(** * Witnesses and counterexamples *)

Ltac scoped_by_computation :=
  repeat (cbn [app scoped];
          first [ exact I
                | split; [vm_compute; eauto
                         | let σ' := fresh "σ'" in let H := fresh "H" in
                           intros σ' H; vm_compute in H; injection H as <- ] ]).

(** The run of the scenario, split at the last statement: the strong
    count reached zero first, the weak handle goes last. *)
Lemma deallocate_runs_exactly_once_witness :
  exists σ1 σ2 σ3,
    exec value_ctor plain_dtor plain_call (scenario_before ++ [SpReset "b"]) init = Some σ1 /\
    exec value_ctor plain_dtor plain_call [WpDestroy "w"] σ1 = Some σ2 /\
    exec value_ctor plain_dtor plain_call [] σ2 = Some σ3 /\
    forall b, (0 < srefs b σ1 + wrefs b σ1)%nat ->
      (exists cb, heap σ1 !! b = Some (Constructed cb) /\
         shared_count cb = Z.of_nat (srefs b σ1) /\
         weak_count cb = Z.of_nat (wrefs b σ1)) /\
      deallocs b σ1 = 0%nat /\
      deallocs b σ2
        = (if decide ((srefs b σ2 + wrefs b σ2)%nat = 0%nat) then 1%nat else 0%nat) /\
      ((0 < srefs b σ2 + wrefs b σ2)%nat ->
         exists cb, heap σ2 !! b = Some (Constructed cb) /\
           shared_count cb = Z.of_nat (srefs b σ2) /\
           weak_count cb = Z.of_nat (wrefs b σ2)) /\
      ((srefs b σ2 + wrefs b σ2)%nat = 0%nat ->
         heap σ2 !! b = None /\
         (srefs b σ3 + wrefs b σ3)%nat = 0%nat /\ deallocs b σ3 = 1%nat).
Proof.
  apply (deallocate_runs_exactly_once value_ctor
           (scenario_before ++ [SpReset "b"]) (WpDestroy "w") []).
  - vm_compute. reflexivity.
  - unfold scenario_before. scoped_by_computation.
Defined.

(** C2, where the code departs from the claim.  [p] is the only strong
    handle on block 0; the block owns a [Node] whose member is the only
    weak handle on the block, and [deallocate()] has not run.  When [p] is
    destroyed, [~SharedPtr()] lowers [shared_count] to 0 and calls
    [destroy()]; the deleter runs [~Node()], whose [~WeakPtr()] lowers
    [weak_count] to 0, finds both counters at 0 and calls [deallocate()]:
    the call of the deleter returns with the block released, [destroy()]
    still running in it.  What [destroy()] and [~SharedPtr()] do next, the
    write of [ptr], the read of [weak_count] and the second call of
    [deallocate()], is done on released storage: the statement is
    undefined.  The same happens with the value embedded in the block by
    [makeShared]. *)
Theorem deallocate_under_running_destroy :
  exec Some Node_dtor plain_call self_observer init = Some s_self /\
  strongs s_self !! "p" = Some {| sp_ptr := at_object 7%nat; sp_cb := Some 0%nat |} /\
  weaks s_self !! "self" = Some {| wp_ptr := at_object 7%nat; wp_cb := Some 0%nat |} /\
  objs s_self !! 7%nat = Some "self" /\
  srefs 0%nat s_self = 1%nat /\ wrefs 0%nat s_self = 1%nat /\
  heap s_self !! 0%nat
    = Some (Constructed {| shared_count := 1; weak_count := 1;
                           body := ControlBlockRegular (at_object 7%nat) default_delete
                                     std_allocator |}) /\
  deallocs 0%nat s_self = 0%nat /\
  in_scope (SpDestroy (T:=Node) (Args:=Node) "p") s_self /\
  heap s_self_in_destroy !! 0%nat
    = Some (Constructed {| shared_count := 0; weak_count := 1;
                           body := ControlBlockRegular (at_object 7%nat) default_delete
                                     std_allocator |}) /\
  (exists σd,
     call_deleter Node_dtor plain_call default_delete (at_object 7%nat) s_self_in_destroy
       = Ok tt σd /\
     heap σd !! 0%nat = None /\
     log σd = [EvDestroy 0%nat; EvDeleter default_delete (at_object 7%nat);
               EvDeallocate 0%nat]) /\
  step Some Node_dtor plain_call (SpDestroy "p") s_self = UB /\
  exec Some Node_dtor plain_call (self_observer ++ [SpDestroy "p"]) init = None /\
  exec Some Node_dtor plain_call (embedded_self_observer ++ [SpDestroy "p"]) init = None.
Proof.
  split; [vm_compute; reflexivity|]. split; [vm_compute; reflexivity|].
  split; [vm_compute; reflexivity|]. split; [vm_compute; reflexivity|].
  split; [vm_compute; reflexivity|]. split; [vm_compute; reflexivity|].
  split; [vm_compute; reflexivity|]. split; [vm_compute; reflexivity|].
  split; [vm_compute; eauto|]. split; [vm_compute; reflexivity|].
  split; [eexists; split; [vm_compute; reflexivity|]; split; vm_compute; reflexivity|].
  split; [vm_compute; reflexivity|]. split; vm_compute; reflexivity.
Qed.

(** C3, counterexample to the claim as stated: the constructor of the
    value throws, [allocateShared] throws, and the storage it allocated is
    still in the heap, raw, with no [deallocate] in the log. *)
Lemma factory_ctor_failure_leaks :
  exists σ', allocateShared throwing_ctor std_allocator 42 init = Throw σ' /\
    heap σ' !! 0%nat = Some Raw /\ log σ' = [] /\ deallocs 0%nat σ' = 0%nat.
Proof. eexists. split; [reflexivity|]. vm_compute. auto. Qed.

Lemma factory_ctor_failure_keeps_allocation_witness :
  let σ' := {| heap := <[0%nat := Raw]> ∅; next_loc := 1%nat;
               objs := ∅; strongs := ∅; weaks := ∅; log := [] |} in
  allocateShared throwing_ctor std_allocator 42 init = Throw σ' /\
  step throwing_ctor plain_dtor plain_call (SpAllocateShared "p" std_allocator 42) init = Throw σ' /\
  heap σ' !! 0%nat = Some Raw /\ deallocs 0%nat σ' = deallocs 0%nat (init (T:=Z)).
Proof.
  apply (factory_ctor_failure_keeps_allocation throwing_ctor "p" std_allocator 42 init).
  - reflexivity.
  - reflexivity.
Defined.

Lemma lock_result_witness :
  (WeakPtr_expired "w" s2 = Ok true s2 /\
   exists σ', step value_ctor plain_dtor plain_call (WpLock "v" "w") s2 = Ok tt σ' /\
     strongs σ' !! "v" = Some SharedPtr_null /\
     SharedPtr_use_count "v" σ' = Ok 0 σ' /\ heap σ' = heap s2) /\
  (WeakPtr_expired "w" s_alive = Ok false s_alive /\
   exists σ', step value_ctor plain_dtor plain_call (WpLock "v" "w") s_alive = Ok tt σ' /\
     strongs σ' !! "v" = Some {| sp_ptr := widget; sp_cb := Some 0%nat |} /\
     SharedPtr_use_count "v" σ' = Ok (1 + 1) σ').
Proof.
  split.
  - apply (lock_result value_ctor "v" "w" {| wp_ptr := widget; wp_cb := Some 0%nat |} s2).
    + vm_compute. reflexivity.
    + vm_compute. reflexivity.
    + right. eexists _, _. split; [reflexivity|]. split; [vm_compute; reflexivity|reflexivity].
  - eapply (lock_result value_ctor "v" "w" {| wp_ptr := widget; wp_cb := Some 0%nat |} s_alive).
    + vm_compute. reflexivity.
    + vm_compute. reflexivity.
    + reflexivity.
    + vm_compute. reflexivity.
    + reflexivity.
    + lia.
    + vm_compute. reflexivity.
Defined.

Lemma factory_deref_and_use_count_witness :
  (exists σ', step value_ctor plain_dtor plain_call (SpAllocateShared "p" std_allocator 42) init = Ok tt σ' /\
     SharedPtr_deref "p" σ' = Ok 42 σ' /\
     SharedPtr_arrow "p" σ' = Ok (at_embedded 0%nat) σ' /\
     load (at_embedded 0%nat) σ' = Ok 42 σ' /\
     SharedPtr_use_count "p" σ' = Ok 1 σ') /\
  (exists σ', step value_ctor plain_dtor plain_call (SpMakeShared "p" 42) init = Ok tt σ' /\
     SharedPtr_deref "p" σ' = Ok 42 σ' /\
     SharedPtr_arrow "p" σ' = Ok (at_embedded 0%nat) σ' /\
     load (at_embedded 0%nat) σ' = Ok 42 σ' /\
     SharedPtr_use_count "p" σ' = Ok 1 σ').
Proof.
  apply (factory_deref_and_use_count value_ctor "p" std_allocator 42 42 init).
  - reflexivity.
  - reflexivity.
  - reflexivity.
Defined.

Lemma get_raw_and_factory_witness :
  (exists σ', step value_ctor plain_dtor plain_call (SpFromPtr "p" widget default_delete std_allocator) init = Ok tt σ' /\
     SharedPtr_get "p" σ' = Ok widget σ') /\
  (exists σ', step value_ctor plain_dtor plain_call (SpAllocateShared "p" std_allocator 42) init = Ok tt σ' /\
     SharedPtr_get "p" σ' = Ok nullptr σ' /\
     SharedPtr_deref "p" σ' = Ok 42 σ').
Proof.
  apply (get_raw_and_factory value_ctor "p" widget default_delete std_allocator 42 42 init).
  - reflexivity.
  - reflexivity.
  - reflexivity.
Defined.

Lemma ptr_ctor_allocation_failure_witness :
  SharedPtr_ptr_ctor widget default_delete failing_allocator (init (T:=Z)) = Throw init /\
  step value_ctor plain_dtor plain_call (SpFromPtr "p" widget default_delete failing_allocator) init = Throw init.
Proof.
  apply (ptr_ctor_allocation_failure value_ctor "p" widget default_delete failing_allocator init).
  reflexivity.
Defined.

Lemma copy_use_count_witness :
  exists σ', step value_ctor plain_dtor plain_call (SpCopy "c" "a") s_alive = Ok tt σ' /\
    SharedPtr_use_count "a" σ' = Ok (1 + 1) σ' /\
    SharedPtr_use_count "c" σ' = Ok (1 + 1) σ'.
Proof.
  eapply (copy_use_count value_ctor "a" "c" {| sp_ptr := widget; sp_cb := Some 0%nat |} 0%nat).
  - vm_compute. reflexivity.
  - reflexivity.
  - vm_compute. reflexivity.
  - reflexivity.
  - lia.
  - vm_compute. reflexivity.
  - vm_compute. reflexivity.
Defined.

(** C9, counterexample to the claim as stated: ["n"] is a null strong
    handle and ["t"] the only strong handle of block 0; the assignment
    [t = n] takes the strong count of block 0 from 1 to 0 and runs
    [destroy()] on it. *)
Lemma assign_from_null_touches_block :
  strongs s_mixed !! "n" = Some SharedPtr_null /\
  SharedPtr_use_count "t" s_mixed = Ok 1 s_mixed /\
  exists σ' cb,
    step value_ctor plain_dtor plain_call (SpAssign "t" "n") s_mixed = Ok tt σ' /\
    heap σ' !! 0%nat = Some (Constructed cb) /\ shared_count cb = 0 /\
    heap σ' <> heap s_mixed /\
    log s_mixed = [] /\
    log σ' = [EvDestroy 0%nat; EvDeleter default_delete widget].
Proof.
  split; [vm_compute; reflexivity|]. split; [vm_compute; reflexivity|].
  eexists _, _. split; [vm_compute; reflexivity|].
  split; [vm_compute; reflexivity|]. split; [reflexivity|].
  split; [|split; vm_compute; reflexivity].
  intros Heq. apply (f_equal (fun m => m !! 0%nat)) in Heq.
  vm_compute in Heq. discriminate Heq.
Qed.

Lemma null_handle_operations_witness :
  let σ := s_mixed in
  let σs := set_strongs (<["v" := SharedPtr_null]> (strongs σ)) σ in
  let σw := set_weaks (<["v" := WeakPtr_null]> (weaks σ)) σ in
  step value_ctor plain_dtor plain_call (SpCopy "v" "n") σ = Ok tt σs /\
  step value_ctor plain_dtor plain_call (SpMove "v" "n") σ = Ok tt σs /\
  SharedPtr_use_count "v" σs = Ok 0 σs /\
  step value_ctor plain_dtor plain_call (WpCopy "v" "wn") σ = Ok tt σw /\
  step value_ctor plain_dtor plain_call (WpMove "v" "wn") σ = Ok tt σw /\
  WeakPtr_use_count "v" σw = Ok 0 σw /\
  step value_ctor plain_dtor plain_call (SpDestroy "n") σ = Ok tt (set_strongs (delete "n" (strongs σ)) σ) /\
  step value_ctor plain_dtor plain_call (WpDestroy "wn") σ = Ok tt (set_weaks (delete "wn" (weaks σ)) σ) /\
  step value_ctor plain_dtor plain_call (SpAssign "t" "n") σ = step value_ctor plain_dtor plain_call (SpReset "t") σ /\
  step value_ctor plain_dtor plain_call (SpMoveAssign "t" "n") σ = step value_ctor plain_dtor plain_call (SpReset "t") σ /\
  step value_ctor plain_dtor plain_call (WpAssign "wt" "wn") σ
    = bind (WeakPtr_swap_temp "wt" WeakPtr_null) WeakPtr_dtor σ /\
  step value_ctor plain_dtor plain_call (WpMoveAssign "wt" "wn") σ
    = bind (WeakPtr_swap_temp "wt" WeakPtr_null) WeakPtr_dtor σ /\
  (strongs σ !! "t" = Some SharedPtr_null ->
     step value_ctor plain_dtor plain_call (SpAssign "t" "n") σ = Ok tt σ /\
     step value_ctor plain_dtor plain_call (SpMoveAssign "t" "n") σ = Ok tt σ) /\
  (weaks σ !! "wt" = Some WeakPtr_null ->
     step value_ctor plain_dtor plain_call (WpAssign "wt" "wn") σ = Ok tt σ /\
     step value_ctor plain_dtor plain_call (WpMoveAssign "wt" "wn") σ = Ok tt σ).
Proof.
  apply (null_handle_operations value_ctor "n" "wn" "v" "t" "wt" s_mixed).
  - vm_compute. reflexivity.
  - vm_compute. reflexivity.
  - vm_compute. reflexivity.
  - vm_compute. reflexivity.
Defined.

Lemma self_assignment_is_identity_witness :
  step value_ctor plain_dtor plain_call (SpAssign "a" "a") s_alive = Ok tt s_alive /\
  step value_ctor plain_dtor plain_call (SpMoveAssign "a" "a") s_alive = Ok tt s_alive /\
  step value_ctor plain_dtor plain_call (WpAssign "w" "w") s_alive = Ok tt s_alive /\
  step value_ctor plain_dtor plain_call (WpMoveAssign "w" "w") s_alive = Ok tt s_alive.
Proof.
  apply (self_assignment_is_identity value_ctor "a" "w"
           {| sp_ptr := widget; sp_cb := Some 0%nat |}
           {| wp_ptr := widget; wp_cb := Some 0%nat |} s_alive).
  - vm_compute. reflexivity.
  - vm_compute. reflexivity.
  - intros b Hb. injection Hb as <-.
    eexists. split; [vm_compute; reflexivity|]. simpl. unfold SIZE_MOD. lia.
Defined.

(** * The scenario of the specification, evaluated *)

Example scenario_log_before_last_reset : log s1 = [].
Proof. vm_compute. reflexivity. Qed.

Example scenario_log_after_last_reset :
  log s2 = [EvDestroy 0%nat; EvDeleter default_delete widget] /\
  WeakPtr_expired "w" s2 = Ok true s2 /\
  WeakPtr_use_count "w" s2 = Ok 0 s2.
Proof. vm_compute. auto. Qed.

Example scenario_log_at_the_end :
  log s3 = [EvDestroy 0%nat; EvDeleter default_delete widget; EvDeallocate 0%nat] /\
  heap s3 = ∅ /\ objs s3 = ∅.
Proof. vm_compute. auto. Qed.

(** The other order: the weak handle goes first, the strong handle last. *)
Example weak_first_log :
  log (run_from [ ClientNew 7%nat 5;
                  SpFromPtr "a" widget default_delete std_allocator;
                  WpFromShared "w" "a"; WpDestroy "w"; SpDestroy "a" ] init)
  = [EvDestroy 0%nat; EvDeleter default_delete widget; EvDeallocate 0%nat].
Proof. vm_compute. reflexivity. Qed.

(** * Further properties of the header *)

(** The runs of this part are runs over [plain_dtor] and [plain_call]:
    values and custom deleters whose destructors and calls run no handle
    code.  What a value that owns a weak handle of its own block does
    to [~SharedPtr()] is evaluated on [self_observer] above. *)

Section MoreProperties.
Context {T Args : Type} (T_ctor : Args -> option T).
Implicit Types (σ : @State T) (b : loc) (v : var).

(** Every state a run reaches from [init] satisfies the invariant and has
    room for one more handle of each kind. *)
Lemma reachable_inv (ops : list (@Op T Args)) σ :
  Z.of_nat (length ops) + 1 < SIZE_MOD ->
  exec T_ctor plain_dtor plain_call ops init = Some σ ->
  Inv σ /\ Bounded σ.
Proof.
  intros Hlen Hex.
  destruct (exec_inv T_ctor ops init σ 0 Inv_init) as (HI & _ & Hs & Hw).
  - simpl. rewrite map_size_empty. lia.
  - simpl. rewrite map_size_empty. lia.
  - lia.
  - done.
  - split; [done|]. split; lia.
Qed.

(** X1.  Memory safety of the handle operations, over values and custom
    deleters whose destructors and calls run no handle code: a run from
    the empty state never reaches undefined behaviour when its statements
    only use handle objects that exist (and declare ones that do not) and
    let go of a strong reference only while the object its block owns
    through [std::default_delete] is a live object made by [new]; no
    constructor, assignment, [reset], [lock] or destructor touches a
    control block that has been deallocated, and no object is deleted
    twice. *)
Theorem scoped_run_never_undefined (ops : list (@Op T Args)) :
  Z.of_nat (length ops) < SIZE_MOD ->
  scoped T_ctor plain_dtor plain_call ops init ->
  exists σ, exec T_ctor plain_dtor plain_call ops init = Some σ.
Proof.
  intros Hlen Hsc.
  destruct (exec_defined T_ctor ops init 0 Inv_init) as [σ Hσ];
    [simpl; rewrite map_size_empty; lia | simpl; rewrite map_size_empty; lia
    | simpl; lia | exact Hsc | eauto].
Qed.

(** ** What the invariant says about the observers *)

Lemma wp_result {A} (m : M A) (Q : A -> State -> Prop) σ :
  wp False m Q (fun _ => False) σ -> exists a σ', m σ = Ok a σ' /\ Q a σ'.
Proof. unfold wp. destruct (m σ); [eauto|done|done]. Qed.

Lemma Inv_use_count σ v h b :
  Inv σ -> strongs σ !! v = Some h -> sp_cb h = Some b ->
  SharedPtr_use_count v σ = Ok (Z.of_nat (srefs b σ)) σ /\ (1 <= srefs b σ)%nat.
Proof.
  intros HI Hv Hc.
  pose proof (refs_lookup_pos sp_cb (strongs σ) b v h Hv Hc) as Hpos.
  destruct (Inv_live σ b HI) as (cb & Hcb & _ & Hs & _); [unfold srefs; lia|].
  split; [|exact Hpos].
  unfold SharedPtr_use_count, bind, get_strong, get_block, ret.
  rewrite Hv, Hc, Hcb, Hs. done.
Qed.

Lemma SharedPtr_use_count_null σ v h :
  strongs σ !! v = Some h -> sp_cb h = None -> SharedPtr_use_count v σ = Ok 0 σ.
Proof.
  intros Hv Hc. unfold SharedPtr_use_count, bind, get_strong, ret. by rewrite Hv, Hc.
Qed.

Lemma Inv_weak_use_count σ w h b :
  Inv σ -> weaks σ !! w = Some h -> wp_cb h = Some b ->
  WeakPtr_use_count w σ = Ok (Z.of_nat (srefs b σ)) σ /\
  WeakPtr_expired w σ = Ok (bool_decide (srefs b σ = 0%nat)) σ /\
  exists cb, heap σ !! b = Some (Constructed cb) /\
             weak_count cb = Z.of_nat (wrefs b σ) /\ (1 <= wrefs b σ)%nat.
Proof.
  intros HI Hw Hc.
  pose proof (refs_lookup_pos wp_cb (weaks σ) b w h Hw Hc) as Hpos.
  destruct (Inv_live σ b HI) as (cb & Hcb & _ & Hs & Hwc); [unfold wrefs; lia|].
  assert (WeakPtr_use_count w σ = Ok (Z.of_nat (srefs b σ)) σ) as Hu.
  { unfold WeakPtr_use_count, bind, get_weak, get_block, ret.
    rewrite Hw, Hc, Hcb, Hs. done. }
  split; [exact Hu|]. split.
  - unfold WeakPtr_expired, bind. rewrite Hu. unfold ret. f_equal.
    apply bool_decide_ext. lia.
  - exists cb. split; [done|]. split; [done|exact Hpos].
Qed.

(** X2.  In every state a run reaches, [use_count()] of a non-null strong
    handle is the number of strong handle objects that reference its
    block, and that number is at least one. *)
Theorem use_count_counts_strong_handles (ops : list (@Op T Args)) σ v h b :
  Z.of_nat (length ops) + 1 < SIZE_MOD ->
  exec T_ctor plain_dtor plain_call ops init = Some σ ->
  strongs σ !! v = Some h -> sp_cb h = Some b ->
  SharedPtr_use_count v σ = Ok (Z.of_nat (srefs b σ)) σ /\ (1 <= srefs b σ)%nat.
Proof.
  intros Hlen Hex Hv Hc.
  destruct (reachable_inv ops σ Hlen Hex) as [HI _].
  by apply (Inv_use_count σ v h b).
Qed.

(** X3.  In every state a run reaches, [use_count()] of a non-null weak
    handle is the number of strong handles on its block (not of weak
    ones), its block is still allocated, and [expired()] holds exactly
    when no strong handle references the block. *)
Theorem weak_use_count_and_expired (ops : list (@Op T Args)) σ w h b :
  Z.of_nat (length ops) + 1 < SIZE_MOD ->
  exec T_ctor plain_dtor plain_call ops init = Some σ ->
  weaks σ !! w = Some h -> wp_cb h = Some b ->
  WeakPtr_use_count w σ = Ok (Z.of_nat (srefs b σ)) σ /\
  WeakPtr_expired w σ = Ok (bool_decide (srefs b σ = 0%nat)) σ /\
  exists cb, heap σ !! b = Some (Constructed cb) /\
             weak_count cb = Z.of_nat (wrefs b σ) /\ (1 <= wrefs b σ)%nat.
Proof.
  intros Hlen Hex Hw Hc.
  destruct (reachable_inv ops σ Hlen Hex) as [HI _].
  by apply (Inv_weak_use_count σ w h b).
Qed.

(** X4.  In every state a run reaches, a control block is allocated and
    constructed exactly when some handle object, strong or weak, references
    it: no handle dangles and no constructed block is left without a
    handle. *)
Theorem block_live_iff_referenced (ops : list (@Op T Args)) σ b :
  Z.of_nat (length ops) + 1 < SIZE_MOD ->
  exec T_ctor plain_dtor plain_call ops init = Some σ ->
  (exists cb, heap σ !! b = Some (Constructed cb)) <->
  (0 < srefs b σ + wrefs b σ)%nat.
Proof.
  intros Hlen Hex.
  destruct (reachable_inv ops σ Hlen Hex) as [HI _]. split.
  - intros [cb Hcb]. specialize (HI b). unfold block_ok in HI.
    rewrite Hcb, !tref_None, !Nat.add_0_r in HI. tauto.
  - intros Hpos. destruct (Inv_live σ b HI Hpos) as (cb & Hcb & _). eauto.
Qed.

(** X5.  Over values and custom deleters whose destructors and calls run
    no handle code: in every state a run reaches and for every block,
    [deallocate()] has run at most as often as [destroy()], and
    [destroy()] at most once: storage is never released without the value
    having been destroyed, and once it is released the block is gone from
    the heap. *)
Theorem deallocate_only_after_destroy (ops : list (@Op T Args)) σ b :
  Z.of_nat (length ops) + 1 < SIZE_MOD ->
  exec T_ctor plain_dtor plain_call ops init = Some σ ->
  (deallocs b σ <= destroys b σ)%nat /\ (destroys b σ <= 1)%nat /\
  (deallocs b σ = 1%nat -> heap σ !! b = None).
Proof.
  intros Hlen Hex.
  destruct (reachable_inv ops σ Hlen Hex) as [HI _].
  specialize (HI b). unfold block_ok in HI.
  destruct (heap σ !! b) as [[|cb]|].
  - destruct HI as (_ & _ & _ & -> & ->). split; [lia|]. split; [lia|]. lia.
  - destruct HI as (_ & _ & _ & _ & _ & _ & -> & ->).
    split; [lia|]. split; [case_decide; lia|lia].
  - destruct HI as (_ & _ & Hc). case_decide.
    + destruct Hc as [-> ->]. split; [lia|]. split; [lia|done].
    + destruct Hc as [-> ->]. split; [lia|]. split; [lia|done].
Qed.

(** ** Equations of the counter updates *)

Lemma State_eta σ :
  {| heap := heap σ; next_loc := next_loc σ; objs := objs σ;
     strongs := strongs σ; weaks := weaks σ; log := log σ |} = σ.
Proof. by destruct σ. Qed.

Lemma SharedPtr_eta (h : SharedPtr) : {| sp_ptr := sp_ptr h; sp_cb := sp_cb h |} = h.
Proof. by destruct h. Qed.

Lemma WeakPtr_eta (h : WeakPtr) : {| wp_ptr := wp_ptr h; wp_cb := wp_cb h |} = h.
Proof. by destruct h. Qed.

Lemma incr_shared_eq b (cb : @ControlBlock T) σ :
  heap σ !! b = Some (Constructed cb) ->
  incr_shared b σ
  = Ok tt (set_heap (<[b := Constructed (with_shared (size_incr (shared_count cb)) cb)]>
                       (heap σ)) σ).
Proof. intros H. unfold incr_shared, bind, get_block, put_block. by rewrite H. Qed.

Lemma decr_shared_eq b (cb : @ControlBlock T) σ :
  heap σ !! b = Some (Constructed cb) ->
  decr_shared b σ
  = Ok tt (set_heap (<[b := Constructed (with_shared (size_decr (shared_count cb)) cb)]>
                       (heap σ)) σ).
Proof. intros H. unfold decr_shared, bind, get_block, put_block. by rewrite H. Qed.

Lemma incr_weak_eq b (cb : @ControlBlock T) σ :
  heap σ !! b = Some (Constructed cb) ->
  incr_weak b σ
  = Ok tt (set_heap (<[b := Constructed (with_weak (size_incr (weak_count cb)) cb)]>
                       (heap σ)) σ).
Proof. intros H. unfold incr_weak, bind, get_block, put_block. by rewrite H. Qed.

Lemma decr_weak_eq b (cb : @ControlBlock T) σ :
  heap σ !! b = Some (Constructed cb) ->
  decr_weak b σ
  = Ok tt (set_heap (<[b := Constructed (with_weak (size_decr (weak_count cb)) cb)]>
                       (heap σ)) σ).
Proof. intros H. unfold decr_weak, bind, get_block, put_block. by rewrite H. Qed.

Lemma size_incr_small n : 0 <= n -> n + 1 < SIZE_MOD -> size_incr n = n + 1.
Proof. intros. unfold size_incr. rewrite Z.mod_small; lia. Qed.

(** Releasing a strong reference that is not the last one only lowers
    the counter. *)
Lemma SharedPtr_dtor_not_last (h : SharedPtr) b (cb : @ControlBlock T) σ :
  sp_cb h = Some b -> heap σ !! b = Some (Constructed cb) ->
  2 <= shared_count cb < SIZE_MOD ->
  SharedPtr_dtor plain_dtor plain_call h σ
  = Ok tt (set_heap (<[b := Constructed (with_shared (shared_count cb - 1) cb)]>
                       (heap σ)) σ).
Proof.
  intros Hc Hb Hn. unfold SharedPtr_dtor. rewrite Hc.
  unfold bind. rewrite (decr_shared_eq b cb σ Hb).
  unfold get_block. cbn [heap set_heap]. rewrite lookup_insert_eq.
  assert (size_decr (shared_count cb) = shared_count cb - 1) as ->.
  { unfold size_decr. rewrite Z.mod_small; lia. }
  cbn [shared_count with_shared].
  destruct (decide (shared_count cb - 1 = 0)) as [?|_]; [lia|]. done.
Qed.

(** Releasing a weak reference that is not the last reference to the
    block only lowers the counter. *)
Lemma WeakPtr_dtor_not_last (h : WeakPtr) b (cb : @ControlBlock T) σ :
  wp_cb h = Some b -> heap σ !! b = Some (Constructed cb) ->
  1 <= weak_count cb < SIZE_MOD ->
  2 <= weak_count cb \/ shared_count cb <> 0 ->
  WeakPtr_dtor h σ
  = Ok tt (set_heap (<[b := Constructed (with_weak (weak_count cb - 1) cb)]>
                       (heap σ)) σ).
Proof.
  intros Hc Hb Hn Hlast. unfold WeakPtr_dtor. rewrite Hc.
  unfold bind. rewrite (decr_weak_eq b cb σ Hb).
  unfold get_block. cbn [heap set_heap]. rewrite lookup_insert_eq.
  assert (size_decr (weak_count cb) = weak_count cb - 1) as ->.
  { unfold size_decr. rewrite Z.mod_small; lia. }
  cbn [shared_count weak_count with_weak].
  destruct (decide (weak_count cb - 1 = 0 ∧ shared_count cb = 0)) as [[? ?]|_]; [lia|].
  done.
Qed.

(** X6.  [swap] between two strong handles exchanges their fields and
    touches nothing else: no counter of any control block changes,
    nothing is logged, each handle then reports the use count the other
    one had, and swapping a second time restores the state exactly.
    Swapping a handle with itself changes nothing. *)
Theorem SharedPtr_swap_exchanges σ v1 v2 h1 h2 :
  strongs σ !! v1 = Some h1 -> strongs σ !! v2 = Some h2 ->
  let σ' := set_strongs (<[v2 := h1]> (<[v1 := h2]> (strongs σ))) σ in
  step T_ctor plain_dtor plain_call (SpSwap v1 v2) σ = Ok tt σ' /\
  strongs σ' !! v1 = Some h2 /\ strongs σ' !! v2 = Some h1 /\
  (forall n, SharedPtr_use_count v2 σ = Ok n σ -> SharedPtr_use_count v1 σ' = Ok n σ') /\
  (forall n, SharedPtr_use_count v1 σ = Ok n σ -> SharedPtr_use_count v2 σ' = Ok n σ') /\
  step T_ctor plain_dtor plain_call (SpSwap v1 v2) σ' = Ok tt σ /\
  (v1 = v2 -> σ' = σ).
Proof.
  intros H1 H2 σ'.
  assert (strongs σ' !! v1 = Some h2) as L1.
  { subst σ'. cbn [strongs set_strongs].
    destruct (decide (v2 = v1)) as [->|Hne].
    - rewrite lookup_insert_eq. congruence.
    - rewrite lookup_insert_ne by done. apply lookup_insert_eq. }
  assert (strongs σ' !! v2 = Some h1) as L2.
  { subst σ'. cbn [strongs set_strongs]. apply lookup_insert_eq. }
  assert (forall σ0 w1 w2 k1 k2, strongs σ0 !! w1 = Some k1 -> strongs σ0 !! w2 = Some k2 ->
            step T_ctor plain_dtor plain_call (SpSwap w1 w2) σ0
            = Ok tt (set_strongs (<[w2 := k1]> (<[w1 := k2]> (strongs σ0))) σ0)) as Hswap.
  { intros σ0 w1 w2 k1 k2 E1 E2. cbn [step]. unfold SharedPtr_swap, bind, get_strong, set_strong.
    rewrite E1. cbn beta iota. rewrite E2. cbn beta iota. rewrite E1.
    cbn [strongs set_strongs].
    destruct (decide (w1 = w2)) as [->|Hne].
    - rewrite lookup_insert_eq. done.
    - rewrite lookup_insert_ne by done. rewrite E2. done. }
  assert (forall v v' h n, strongs σ !! v = Some h -> strongs σ' !! v' = Some h ->
            SharedPtr_use_count v σ = Ok n σ -> SharedPtr_use_count v' σ' = Ok n σ') as Hcount.
  { intros v v' h n E E'. unfold SharedPtr_use_count, bind, get_strong, get_block, ret.
    rewrite E, E'. destruct (sp_cb h) as [b|]; [|congruence].
    replace (heap σ') with (heap σ) by done.
    destruct (heap σ !! b) as [[|cb]|]; congruence. }
  split; [by apply Hswap|]. split; [done|]. split; [done|].
  split; [intros n; by apply (Hcount v2 v1 h2)|].
  split; [intros n; by apply (Hcount v1 v2 h1)|].
  assert (<[v2 := h2]> (<[v1 := h1]> (strongs σ')) = strongs σ) as Hback.
  { subst σ'. cbn [strongs set_strongs]. apply map_eq. intros i.
    destruct (decide (i = v2)) as [->|N2].
    - rewrite lookup_insert_eq. done.
    - rewrite lookup_insert_ne by done.
      destruct (decide (i = v1)) as [->|N1].
      + rewrite lookup_insert_eq. done.
      + by rewrite !lookup_insert_ne by done. }
  split.
  - rewrite (Hswap σ' v1 v2 h2 h1 L1 L2). f_equal.
    rewrite Hback. subst σ'. destruct σ. done.
  - intros ->. subst σ'. assert (h1 = h2) as -> by congruence.
    rewrite insert_insert_eq. by apply set_strongs_same.
Qed.

(** X7.  [swap] between two weak handles exchanges their fields and
    touches nothing else: the counters and the log stay as they are, each
    handle then observes what the other one observed, and a second swap
    restores the state exactly. *)
Theorem WeakPtr_swap_exchanges σ w1 w2 h1 h2 :
  weaks σ !! w1 = Some h1 -> weaks σ !! w2 = Some h2 ->
  let σ' := set_weaks (<[w2 := h1]> (<[w1 := h2]> (weaks σ))) σ in
  step T_ctor plain_dtor plain_call (WpSwap w1 w2) σ = Ok tt σ' /\
  weaks σ' !! w1 = Some h2 /\ weaks σ' !! w2 = Some h1 /\
  (forall n, WeakPtr_use_count w2 σ = Ok n σ -> WeakPtr_use_count w1 σ' = Ok n σ') /\
  (forall n, WeakPtr_use_count w1 σ = Ok n σ -> WeakPtr_use_count w2 σ' = Ok n σ') /\
  (forall e, WeakPtr_expired w2 σ = Ok e σ -> WeakPtr_expired w1 σ' = Ok e σ') /\
  (forall e, WeakPtr_expired w1 σ = Ok e σ -> WeakPtr_expired w2 σ' = Ok e σ') /\
  step T_ctor plain_dtor plain_call (WpSwap w1 w2) σ' = Ok tt σ /\
  (w1 = w2 -> σ' = σ).
Proof.
  intros H1 H2 σ'.
  assert (weaks σ' !! w1 = Some h2) as L1.
  { subst σ'. cbn [weaks set_weaks].
    destruct (decide (w2 = w1)) as [->|Hne].
    - rewrite lookup_insert_eq. congruence.
    - rewrite lookup_insert_ne by done. apply lookup_insert_eq. }
  assert (weaks σ' !! w2 = Some h1) as L2.
  { subst σ'. cbn [weaks set_weaks]. apply lookup_insert_eq. }
  assert (forall σ0 x1 x2 k1 k2, weaks σ0 !! x1 = Some k1 -> weaks σ0 !! x2 = Some k2 ->
            step T_ctor plain_dtor plain_call (WpSwap x1 x2) σ0
            = Ok tt (set_weaks (<[x2 := k1]> (<[x1 := k2]> (weaks σ0))) σ0)) as Hswap.
  { intros σ0 x1 x2 k1 k2 E1 E2. cbn [step]. unfold WeakPtr_swap, bind, get_weak, set_weak.
    rewrite E1. cbn beta iota. rewrite E2. cbn beta iota. rewrite E1.
    cbn [weaks set_weaks].
    destruct (decide (x1 = x2)) as [->|Hne].
    - rewrite lookup_insert_eq. done.
    - rewrite lookup_insert_ne by done. rewrite E2. done. }
  assert (forall v v' h, weaks σ !! v = Some h -> weaks σ' !! v' = Some h ->
            forall n, WeakPtr_use_count v σ = Ok n σ -> WeakPtr_use_count v' σ' = Ok n σ')
    as Hcount.
  { intros v v' h E E' n. unfold WeakPtr_use_count, bind, get_weak, get_block, ret.
    rewrite E, E'. destruct (wp_cb h) as [b|]; [|congruence].
    replace (heap σ') with (heap σ) by done.
    destruct (heap σ !! b) as [[|cb]|]; congruence. }
  assert (forall v v' h, weaks σ !! v = Some h -> weaks σ' !! v' = Some h ->
            forall e, WeakPtr_expired v σ = Ok e σ -> WeakPtr_expired v' σ' = Ok e σ')
    as Hexp.
  { intros v v' h E E' e. unfold WeakPtr_expired, bind.
    pose proof (Hcount v v' h E E') as Hc.
    destruct (WeakPtr_use_count v σ) as [n σn| |] eqn:Hn; [|done|done].
    intros Hr. unfold ret in Hr. injection Hr as <- ->.
    rewrite (Hc n eq_refl). done. }
  split; [by apply Hswap|]. split; [done|]. split; [done|].
  split; [by apply (Hcount w2 w1 h2)|].
  split; [by apply (Hcount w1 w2 h1)|].
  split; [by apply (Hexp w2 w1 h2)|].
  split; [by apply (Hexp w1 w2 h1)|].
  assert (<[w2 := h2]> (<[w1 := h1]> (weaks σ')) = weaks σ) as Hback.
  { subst σ'. cbn [weaks set_weaks]. apply map_eq. intros i.
    destruct (decide (i = w2)) as [->|N2].
    - rewrite lookup_insert_eq. done.
    - rewrite lookup_insert_ne by done.
      destruct (decide (i = w1)) as [->|N1].
      + rewrite lookup_insert_eq. done.
      + by rewrite !lookup_insert_ne by done. }
  split.
  - rewrite (Hswap σ' w1 w2 h2 h1 L1 L2). f_equal.
    rewrite Hback. subst σ'. destruct σ. done.
  - intros ->. subst σ'. assert (h1 = h2) as -> by congruence.
    rewrite insert_insert_eq. by apply set_weaks_same.
Qed.

(** X8.  Move construction [SharedPtr v(std::move(src))] hands the
    reference over: [v] holds what [src] held, [src] is left null
    ([use_count() == 0], [get() == nullptr], dereferencing it is
    undefined), no counter changes, nothing is logged, and the number of
    strong handles on every block is the same as before. *)
Theorem SharedPtr_move_transfers σ v src h :
  strongs σ !! src = Some h -> strongs σ !! v = None ->
  let σ' := set_strongs (<[v := h]> (<[src := SharedPtr_null]> (strongs σ))) σ in
  step T_ctor plain_dtor plain_call (SpMove v src) σ = Ok tt σ' /\
  SharedPtr_use_count src σ' = Ok 0 σ' /\
  SharedPtr_get src σ' = Ok nullptr σ' /\
  SharedPtr_deref src σ' = UB /\
  SharedPtr_get v σ' = Ok (sp_ptr h) σ' /\
  (forall n, SharedPtr_use_count src σ = Ok n σ -> SharedPtr_use_count v σ' = Ok n σ') /\
  (forall b, srefs b σ' = srefs b σ).
Proof.
  intros Hs Hv σ'.
  assert (v <> src) as Hne by congruence.
  assert (strongs σ' !! src = Some SharedPtr_null) as Ls.
  { subst σ'. cbn [strongs set_strongs].
    rewrite lookup_insert_ne by done. apply lookup_insert_eq. }
  assert (strongs σ' !! v = Some h) as Lv.
  { subst σ'. cbn [strongs set_strongs]. apply lookup_insert_eq. }
  split.
  { cbn [step]. unfold SharedPtr_move_ctor, bind, get_strong, set_strong, new_strong, ret.
    rewrite Hs. cbn beta iota. rewrite Hs. cbn [strongs set_strongs].
    rewrite lookup_insert_ne by done. rewrite Hv. rewrite SharedPtr_eta. done. }
  split; [by apply (SharedPtr_use_count_null σ' src SharedPtr_null)|].
  split; [unfold SharedPtr_get, bind, get_strong, ret; by rewrite Ls|].
  split.
  { unfold SharedPtr_deref, bind, get_strong. rewrite Ls. cbn [sp_ptr sp_cb SharedPtr_null].
    destruct (decide (nullptr <> nullptr)) as [?|_]; done. }
  split; [unfold SharedPtr_get, bind, get_strong, ret; by rewrite Lv|].
  split.
  { intros n. unfold SharedPtr_use_count, bind, get_strong, get_block, ret.
    rewrite Hs, Lv. destruct (sp_cb h) as [b|]; [|congruence].
    replace (heap σ') with (heap σ) by done.
    destruct (heap σ !! b) as [[|cb]|]; congruence. }
  intros b. subst σ'. unfold srefs. cbn [strongs set_strongs].
  rewrite refs_insert_None by (by rewrite lookup_insert_ne).
  pose proof (refs_insert_Some sp_cb (strongs σ) b src h SharedPtr_null Hs) as Hr.
  cbn [sp_cb SharedPtr_null] in Hr. rewrite tref_None in Hr. lia.
Qed.

(** X9.  Move construction [WeakPtr w(std::move(src))] hands the weak
    reference over: [w] holds what [src] held, [src] is left null and
    therefore expired with [use_count() == 0], no counter changes, and
    the number of weak handles on every block is the same as before. *)
Theorem WeakPtr_move_transfers σ w src h :
  weaks σ !! src = Some h -> weaks σ !! w = None ->
  let σ' := set_weaks (<[w := h]> (<[src := WeakPtr_null]> (weaks σ))) σ in
  step T_ctor plain_dtor plain_call (WpMove w src) σ = Ok tt σ' /\
  WeakPtr_use_count src σ' = Ok 0 σ' /\
  WeakPtr_expired src σ' = Ok true σ' /\
  WeakPtr_lock src σ' = Ok SharedPtr_null σ' /\
  (forall n, WeakPtr_use_count src σ = Ok n σ -> WeakPtr_use_count w σ' = Ok n σ') /\
  (forall b, wrefs b σ' = wrefs b σ).
Proof.
  intros Hs Hw σ'.
  assert (w <> src) as Hne by congruence.
  assert (weaks σ' !! src = Some WeakPtr_null) as Ls.
  { subst σ'. cbn [weaks set_weaks].
    rewrite lookup_insert_ne by done. apply lookup_insert_eq. }
  assert (weaks σ' !! w = Some h) as Lw.
  { subst σ'. cbn [weaks set_weaks]. apply lookup_insert_eq. }
  assert (WeakPtr_use_count src σ' = Ok 0 σ') as Hu.
  { unfold WeakPtr_use_count, bind, get_weak, ret. by rewrite Ls. }
  assert (WeakPtr_expired src σ' = Ok true σ') as He.
  { unfold WeakPtr_expired, bind. rewrite Hu. done. }
  split.
  { cbn [step]. unfold WeakPtr_move_ctor, bind, get_weak, set_weak, new_weak, ret.
    rewrite Hs. cbn beta iota. rewrite Hs. cbn [weaks set_weaks].
    rewrite lookup_insert_ne by done. rewrite Hw. rewrite WeakPtr_eta. done. }
  split; [done|]. split; [done|].
  split; [unfold WeakPtr_lock, bind; by rewrite He|].
  split.
  { intros n. unfold WeakPtr_use_count, bind, get_weak, get_block, ret.
    rewrite Hs, Lw. destruct (wp_cb h) as [b|]; [|congruence].
    replace (heap σ') with (heap σ) by done.
    destruct (heap σ !! b) as [[|cb]|]; congruence. }
  intros b. subst σ'. unfold wrefs. cbn [weaks set_weaks].
  rewrite refs_insert_None by (by rewrite lookup_insert_ne).
  pose proof (refs_insert_Some wp_cb (weaks σ) b src h WeakPtr_null Hs) as Hr.
  cbn [wp_cb WeakPtr_null] in Hr. rewrite tref_None in Hr. lia.
Qed.

(** ** The copy-and-swap tail *)

Lemma SharedPtr_swap_temp_eq this tmp old σ :
  strongs σ !! this = Some old ->
  SharedPtr_swap_temp this tmp σ
  = Ok old (set_strongs (<[this := tmp]> (strongs σ)) σ).
Proof.
  intros H. unfold SharedPtr_swap_temp, bind, get_strong, set_strong, ret.
  rewrite H. cbn beta iota. by rewrite H.
Qed.

Lemma WeakPtr_swap_temp_eq this tmp old σ :
  weaks σ !! this = Some old ->
  WeakPtr_swap_temp this tmp σ
  = Ok old (set_weaks (<[this := tmp]> (weaks σ)) σ).
Proof.
  intros H. unfold WeakPtr_swap_temp, bind, get_weak, set_weak, ret.
  rewrite H. cbn beta iota. by rewrite H.
Qed.

(** [tmp.swap(x)] followed by the destructor of the temporary: [x] holds
    the temporary's reference, the previous one is released. *)
Lemma swap_temp_then_dtor this tmp old σ :
  InvT (sp_cb tmp) None σ -> strongs σ !! this = Some old ->
  releasable (sp_cb old) σ ->
  exists σ', bind (SharedPtr_swap_temp this tmp) (SharedPtr_dtor plain_dtor plain_call) σ = Ok tt σ' /\
    strongs σ' = <[this := tmp]> (strongs σ) /\ weaks σ' = weaks σ /\
    Inv σ' /\ evolves σ σ'.
Proof.
  intros HI Hthis Hrel. unfold bind. rewrite (SharedPtr_swap_temp_eq this tmp old σ Hthis).
  set (σ1 := set_strongs (<[this := tmp]> (strongs σ)) σ).
  assert (releasable (sp_cb old) σ1) as Hrel1 by exact Hrel.
  assert (InvT (sp_cb old) None σ1) as HI1.
  { apply (InvT_store (sp_cb tmp) None (sp_cb old) None σ σ1 HI).
    - done.
    - intros b. unfold srefs. subst σ1. cbn [strongs set_strongs].
      apply (refs_insert_Some sp_cb (strongs σ) b this old tmp Hthis).
    - intros b. done. }
  pose proof (SharedPtr_dtor_inv old None σ1 HI1 Hrel1) as Hd. unfold twp in Hd.
  destruct (SharedPtr_dtor plain_dtor plain_call old σ1) as [[] σ'| |]; [|done|done].
  destruct Hd as (HI' & Hst & Hwk & Hev).
  exists σ'. split; [done|]. split; [by rewrite Hst|]. split; [by rewrite Hwk|].
  split; [done|]. destruct Hev as (Hn & Hraw & Hlog).
  split; [exact Hn|]. split; [exact Hraw|exact Hlog].
Qed.

Lemma weak_swap_temp_then_dtor this tmp old σ :
  InvT None (wp_cb tmp) σ -> weaks σ !! this = Some old ->
  exists σ', bind (WeakPtr_swap_temp this tmp) WeakPtr_dtor σ = Ok tt σ' /\
    weaks σ' = <[this := tmp]> (weaks σ) /\ strongs σ' = strongs σ /\
    Inv σ' /\ evolves σ σ'.
Proof.
  intros HI Hthis. unfold bind. rewrite (WeakPtr_swap_temp_eq this tmp old σ Hthis).
  set (σ1 := set_weaks (<[this := tmp]> (weaks σ)) σ).
  assert (InvT None (wp_cb old) σ1) as HI1.
  { apply (InvT_store None (wp_cb tmp) None (wp_cb old) σ σ1 HI).
    - done.
    - intros b. done.
    - intros b. unfold wrefs. subst σ1. cbn [weaks set_weaks].
      apply (refs_insert_Some wp_cb (weaks σ) b this old tmp Hthis). }
  pose proof (WeakPtr_dtor_inv old None σ1 HI1) as Hd. unfold twp in Hd.
  destruct (WeakPtr_dtor old σ1) as [[] σ'| |]; [|done|done].
  destruct Hd as (HI' & Hst & Hwk & Hev).
  exists σ'. split; [done|]. split; [by rewrite Hwk|]. split; [by rewrite Hst|].
  split; [done|]. destruct Hev as (Hn & Hraw & Hlog).
  split; [exact Hn|]. split; [exact Hraw|exact Hlog].
Qed.

Lemma SharedPtr_copy_ctor_inv o v σ :
  Inv σ -> Bounded σ -> strongs σ !! v = Some o ->
  exists σ', SharedPtr_copy_ctor o σ = Ok o σ' /\
    InvT (sp_cb o) None σ' /\ heap_step σ σ' /\ keeps σ σ'.
Proof.
  intros HI [Hb _] Hv.
  destruct (wp_result (SharedPtr_copy_ctor o)
              (fun h σ' => h = o /\ InvT (sp_cb o) None σ' /\ heap_step σ σ' /\ keeps σ σ') σ)
    as (h & σ' & Heq & -> & HI' & Hst & Hk).
  { apply (wp_SharedPtr_copy_ctor False o v None); [done|done|done|].
    intros σ' HI' Hst Hk. by rewrite SharedPtr_eta. }
  eauto 10.
Qed.

Lemma WeakPtr_copy_ctor_inv o v σ :
  Inv σ -> Bounded σ -> weaks σ !! v = Some o ->
  exists σ', WeakPtr_copy_ctor o σ = Ok o σ' /\
    InvT None (wp_cb o) σ' /\ heap_step σ σ'.
Proof.
  intros HI [_ Hb] Hv.
  destruct (wp_result (WeakPtr_copy_ctor o)
              (fun h σ' => h = o /\ InvT None (wp_cb o) σ' /\ heap_step σ σ') σ)
    as (h & σ' & Heq & -> & HI' & Hst).
  { apply (wp_WeakPtr_copy_ctor False o v); [done|done|done|].
    intros σ' HI' Hst. by rewrite WeakPtr_eta. }
  eauto.
Qed.

Lemma SharedPtr_ptr_ctor_keeps p d a σ h σ' :
  Inv σ -> SharedPtr_ptr_ctor p d a σ = Ok h σ' -> keeps σ σ'.
Proof.
  intros HI Heq.
  pose proof (wp_SharedPtr_ptr_ctor False p d a None (fun _ σ0 => keeps σ σ0)
                (fun _ => True) σ HI (fun _ _ _ _ Hk => Hk) I) as Hwp.
  unfold wp in Hwp. by rewrite Heq in Hwp.
Qed.

Lemma srefs_rebind σ σ' v old new :
  strongs σ !! v = Some old -> strongs σ' = <[v := new]> (strongs σ) ->
  forall b, (srefs b σ' + tref b (sp_cb old) = srefs b σ + tref b (sp_cb new))%nat.
Proof.
  intros Hv Hst b. unfold srefs. rewrite Hst.
  apply (refs_insert_Some sp_cb (strongs σ) b v old new Hv).
Qed.

Lemma wrefs_rebind σ σ' v old new :
  weaks σ !! v = Some old -> weaks σ' = <[v := new]> (weaks σ) ->
  forall b, (wrefs b σ' + tref b (wp_cb old) = wrefs b σ + tref b (wp_cb new))%nat.
Proof.
  intros Hv Hst b. unfold wrefs. rewrite Hst.
  apply (refs_insert_Some wp_cb (weaks σ) b v old new Hv).
Qed.

(** X10.  Copy assignment [dst = src] in a state a run reaches, the
    object that the block of [dst] owns through [std::default_delete]
    being still there to be deleted: [dst] then holds what [src] holds and
    every other handle object is as before; the block [dst] referenced
    loses exactly one strong handle and the block of [src] gains one;
    afterwards both handles report the same [use_count()], the number of
    strong handles on the shared block. *)
Theorem copy_assignment_rebinds (ops : list (@Op T Args)) σ dst src hd hs :
  Z.of_nat (length ops) + 1 < SIZE_MOD ->
  exec T_ctor plain_dtor plain_call ops init = Some σ ->
  strongs σ !! dst = Some hd -> strongs σ !! src = Some hs ->
  releasable (sp_cb hd) σ ->
  exists σ', step T_ctor plain_dtor plain_call (SpAssign dst src) σ = Ok tt σ' /\
    strongs σ' = <[dst := hs]> (strongs σ) /\ weaks σ' = weaks σ /\
    (forall b, (srefs b σ' + tref b (sp_cb hd) = srefs b σ + tref b (sp_cb hs))%nat) /\
    (forall b, sp_cb hs = Some b ->
       SharedPtr_use_count dst σ' = Ok (Z.of_nat (srefs b σ')) σ' /\
       SharedPtr_use_count src σ' = Ok (Z.of_nat (srefs b σ')) σ') /\
    (sp_cb hs = None -> SharedPtr_use_count dst σ' = Ok 0 σ').
Proof.
  intros Hlen Hex Hd Hs Hrel.
  destruct (reachable_inv ops σ Hlen Hex) as [HI HB].
  assert (exists σ', step T_ctor plain_dtor plain_call (SpAssign dst src) σ = Ok tt σ' /\
            strongs σ' = <[dst := hs]> (strongs σ) /\ weaks σ' = weaks σ /\ Inv σ')
    as (σ' & Hstep & Hst & Hwk & HI').
  { cbn [step]. unfold SharedPtr_assign.
    destruct (decide (dst = src)) as [->|Hne].
    - exists σ. unfold bind, get_strong, ret. rewrite Hs.
      split; [done|]. split; [by rewrite insert_id|]. done.
    - destruct (SharedPtr_copy_ctor_inv hs src σ HI HB Hs)
        as (σ0 & Hc & HI0 & (Hst0 & Hwk0 & _) & Hk0).
      destruct (swap_temp_then_dtor dst hs hd σ0 HI0) as (σ' & Hsw & Hst & Hwk & HI' & _).
      { by rewrite Hst0. }
      { by apply (releasable_keeps _ σ σ0). }
      exists σ'. split.
      { unfold bind at 1. unfold get_strong. rewrite Hs.
        unfold bind at 1. rewrite Hc. exact Hsw. }
      split; [by rewrite Hst, Hst0|]. split; [by rewrite Hwk, Hwk0|]. done. }
  exists σ'. split; [done|]. split; [done|]. split; [done|].
  split; [by apply (srefs_rebind σ σ' dst hd hs)|].
  assert (strongs σ' !! dst = Some hs) as Ld by (rewrite Hst; apply lookup_insert_eq).
  assert (strongs σ' !! src = Some hs) as Ls.
  { rewrite Hst. destruct (decide (dst = src)) as [->|Hne].
    - apply lookup_insert_eq.
    - by rewrite lookup_insert_ne. }
  split.
  - intros b Hb. split.
    + by apply (Inv_use_count σ' dst hs b).
    + by apply (Inv_use_count σ' src hs b).
  - intros Hn. by apply (SharedPtr_use_count_null σ' dst hs).
Qed.

(** X11.  Move assignment [dst = std::move(src)] between two different
    handle objects in a state a run reaches, the object that the block of
    [dst] owns through [std::default_delete] being still there to be
    deleted: [dst] holds what [src] held,
    [src] is left null with [use_count() == 0], the block [dst]
    referenced before loses exactly one strong handle, and no other block
    changes its number of strong handles. *)
Theorem move_assignment_transfers (ops : list (@Op T Args)) σ dst src hd hs :
  Z.of_nat (length ops) + 1 < SIZE_MOD ->
  exec T_ctor plain_dtor plain_call ops init = Some σ ->
  strongs σ !! dst = Some hd -> strongs σ !! src = Some hs -> dst <> src ->
  releasable (sp_cb hd) σ ->
  exists σ', step T_ctor plain_dtor plain_call (SpMoveAssign dst src) σ = Ok tt σ' /\
    strongs σ' = <[dst := hs]> (<[src := SharedPtr_null]> (strongs σ)) /\
    weaks σ' = weaks σ /\
    SharedPtr_use_count src σ' = Ok 0 σ' /\
    (forall b, (srefs b σ' + tref b (sp_cb hd))%nat = srefs b σ) /\
    (forall b, sp_cb hs = Some b ->
       SharedPtr_use_count dst σ' = Ok (Z.of_nat (srefs b σ')) σ').
Proof.
  intros Hlen Hex Hd Hs Hne Hrel.
  destruct (reachable_inv ops σ Hlen Hex) as [HI HB].
  set (σ0 := set_strongs (<[src := SharedPtr_null]> (strongs σ)) σ).
  assert (SharedPtr_move_ctor src σ = Ok hs σ0) as Hmv.
  { unfold SharedPtr_move_ctor, bind, get_strong, set_strong, ret.
    rewrite Hs. cbn beta iota. rewrite Hs. by rewrite SharedPtr_eta. }
  assert (forall b, (srefs b σ0 + tref b (sp_cb hs))%nat = srefs b σ) as Hr0.
  { intros b. pose proof (srefs_rebind σ σ0 src hs SharedPtr_null Hs eq_refl b) as Hr.
    cbn [sp_cb SharedPtr_null] in Hr. rewrite tref_None in Hr. lia. }
  assert (InvT (sp_cb hs) None σ0) as HI0.
  { apply (InvT_store None None (sp_cb hs) None σ σ0 HI).
    - done.
    - intros b. rewrite tref_None. specialize (Hr0 b). lia.
    - intros b. done. }
  destruct (swap_temp_then_dtor dst hs hd σ0 HI0) as (σ' & Hsw & Hst & Hwk & HI' & _).
  { subst σ0. cbn [strongs set_strongs]. by rewrite lookup_insert_ne. }
  { exact Hrel. }
  exists σ'.
  assert (strongs σ' !! dst = Some hs) as Ld by (rewrite Hst; apply lookup_insert_eq).
  assert (strongs σ' !! src = Some SharedPtr_null) as Ls.
  { rewrite Hst. rewrite lookup_insert_ne by done. subst σ0. cbn [strongs set_strongs].
    apply lookup_insert_eq. }
  split.
  { cbn [step]. unfold SharedPtr_move_assign. unfold bind at 1. rewrite Hmv. exact Hsw. }
  split; [done|]. split; [done|].
  split; [by apply (SharedPtr_use_count_null σ' src SharedPtr_null)|].
  split.
  - intros b.
    assert (strongs σ0 !! dst = Some hd) as Hd0.
    { subst σ0. cbn [strongs set_strongs]. by rewrite lookup_insert_ne. }
    pose proof (srefs_rebind σ0 σ' dst hd hs Hd0 Hst b) as Hr. specialize (Hr0 b). lia.
  - intros b Hb. by apply (Inv_use_count σ' dst hs b).
Qed.

(** X12.  [reset()] in a state a run reaches, the object that the block
    of the handle owns through [std::default_delete] being still there to
    be deleted: the handle becomes null
    ([use_count() == 0], [get() == nullptr]), its block loses exactly one
    strong handle, and when it was the only strong handle while weak
    handles remain, the block stays allocated and every weak handle on it
    is expired and locks to a null handle. *)
Theorem reset_releases (ops : list (@Op T Args)) σ v h :
  Z.of_nat (length ops) + 1 < SIZE_MOD ->
  exec T_ctor plain_dtor plain_call ops init = Some σ ->
  strongs σ !! v = Some h -> releasable (sp_cb h) σ ->
  exists σ', step T_ctor plain_dtor plain_call (SpReset v) σ = Ok tt σ' /\
    strongs σ' = <[v := SharedPtr_null]> (strongs σ) /\ weaks σ' = weaks σ /\
    SharedPtr_use_count v σ' = Ok 0 σ' /\
    SharedPtr_get v σ' = Ok nullptr σ' /\
    (forall b, (srefs b σ' + tref b (sp_cb h))%nat = srefs b σ) /\
    (forall b w hw, sp_cb h = Some b -> srefs b σ = 1%nat ->
       weaks σ !! w = Some hw -> wp_cb hw = Some b ->
       WeakPtr_expired w σ' = Ok true σ' /\
       WeakPtr_lock w σ' = Ok SharedPtr_null σ' /\
       exists cb, heap σ' !! b = Some (Constructed cb) /\ shared_count cb = 0).
Proof.
  intros Hlen Hex Hv Hrel.
  destruct (reachable_inv ops σ Hlen Hex) as [HI HB].
  destruct (swap_temp_then_dtor v SharedPtr_null h σ HI Hv Hrel)
    as (σ' & Hsw & Hst & Hwk & HI' & _).
  assert (forall b, (srefs b σ' + tref b (sp_cb h))%nat = srefs b σ) as Hr.
  { intros b. pose proof (srefs_rebind σ σ' v h SharedPtr_null Hv Hst b) as Hr.
    cbn [sp_cb SharedPtr_null] in Hr. rewrite tref_None in Hr. lia. }
  assert (strongs σ' !! v = Some SharedPtr_null) as Lv
    by (rewrite Hst; apply lookup_insert_eq).
  exists σ'. split; [exact Hsw|]. split; [done|]. split; [done|].
  split; [by apply (SharedPtr_use_count_null σ' v SharedPtr_null)|].
  split; [unfold SharedPtr_get, bind, get_strong, ret; by rewrite Lv|].
  split; [done|].
  intros b w hw Hb H1 Hw Hwb.
  assert (srefs b σ' = 0%nat) as Hz.
  { specialize (Hr b). rewrite Hb in Hr. unfold tref in Hr.
    destruct (decide (Some b = Some b)); [lia|done]. }
  assert (weaks σ' !! w = Some hw) as Lw by (by rewrite Hwk).
  destruct (Inv_weak_use_count σ' w hw b HI' Lw Hwb) as (Hu & He & _).
  rewrite Hz in He, Hu.
  assert (WeakPtr_expired w σ' = Ok true σ') as He' by exact He.
  split; [done|]. split; [unfold WeakPtr_lock, bind; by rewrite He'|].
  destruct (Inv_live σ' b HI') as (cb & Hcb & _ & Hsc & _).
  { pose proof (refs_lookup_pos wp_cb (weaks σ') b w hw Lw Hwb). unfold wrefs. lia. }
  exists cb. split; [done|]. rewrite Hsc, Hz. done.
Qed.

(** X13.  [reset(p, d, a)]: when the allocator throws, the exception
    leaves the handle, the heap and the log exactly as they were (the
    deleter is not run on [p]).  Otherwise, in a state a run reaches in
    which the object that the block of the handle owns through
    [std::default_delete] is still there to be deleted, the handle owns
    [p] through a fresh control block with [use_count() == 1]
    and [get() == p], and the block it referenced before loses exactly one
    strong handle. *)
Theorem reset_ptr_rebinds (ops : list (@Op T Args)) σ v h p d a :
  Z.of_nat (length ops) + 1 < SIZE_MOD ->
  exec T_ctor plain_dtor plain_call ops init = Some σ ->
  strongs σ !! v = Some h -> releasable (sp_cb h) σ ->
  (always_fails a = true ->
   step T_ctor plain_dtor plain_call (SpResetPtr v p d a) σ = Throw σ) /\
  (always_fails a = false ->
   exists σ', step T_ctor plain_dtor plain_call (SpResetPtr v p d a) σ = Ok tt σ' /\
     strongs σ' = <[v := {| sp_ptr := p; sp_cb := Some (next_loc σ) |}]> (strongs σ) /\
     weaks σ' = weaks σ /\
     SharedPtr_get v σ' = Ok p σ' /\
     SharedPtr_use_count v σ' = Ok 1 σ' /\
     (forall b, b <> next_loc σ -> (srefs b σ' + tref b (sp_cb h))%nat = srefs b σ)).
Proof.
  intros Hlen Hex Hv Hrel.
  destruct (reachable_inv ops σ Hlen Hex) as [HI HB].
  split.
  { intros Hf. cbn [step]. unfold SharedPtr_reset_ptr, SharedPtr_ptr_ctor, bind, allocate.
    rewrite Hf. done. }
  intros Hf.
  pose proof (SharedPtr_ptr_ctor_inv p d a None σ HI) as Hc. unfold twp in Hc.
  destruct (SharedPtr_ptr_ctor p d a σ) as [h0 σ0|σ0|] eqn:Hctor; [| |done].
  2:{ exfalso. revert Hctor. unfold SharedPtr_ptr_ctor, bind, allocate. rewrite Hf.
      unfold put_block, incr_shared, bind, get_block, put_block, ret.
      cbn [heap set_heap]. rewrite lookup_insert_eq. done. }
  destruct Hc as (-> & HI0 & Hst0 & Hwk0 & _).
  pose proof (SharedPtr_ptr_ctor_keeps p d a σ _ σ0 HI Hctor) as Hk0.
  set (new := {| sp_ptr := p; sp_cb := Some (next_loc σ) |}) in *.
  destruct (swap_temp_then_dtor v new h σ0 HI0) as (σ' & Hsw & Hst & Hwk & HI' & _).
  { by rewrite Hst0. }
  { by apply (releasable_keeps _ σ σ0). }
  rewrite Hst0 in Hst. rewrite Hwk0 in Hwk.
  assert (strongs σ' !! v = Some new) as Lv by (rewrite Hst; apply lookup_insert_eq).
  pose proof (srefs_rebind σ σ' v h new Hv Hst) as Hr.
  exists σ'. split.
  { cbn [step]. unfold SharedPtr_reset_ptr. unfold bind at 1. rewrite Hctor. exact Hsw. }
  split; [done|]. split; [done|].
  split; [unfold SharedPtr_get, bind, get_strong, ret; by rewrite Lv|].
  split.
  - destruct (Inv_use_count σ' v new (next_loc σ) HI' Lv eq_refl) as [Hu _].
    rewrite Hu. f_equal.
    destruct (InvT_fresh None None σ (next_loc σ) HI) as (_ & Hs0 & _); [lia|].
    specialize (Hr (next_loc σ)). cbn [sp_cb new] in Hr.
    assert (tref (next_loc σ) (sp_cb h) = 0%nat) as Ht.
    { unfold tref. destruct (decide (sp_cb h = Some (next_loc σ))) as [Hc|_]; [|done].
      pose proof (refs_lookup_pos sp_cb (strongs σ) (next_loc σ) v h Hv Hc) as Hp.
      unfold srefs in Hs0. lia. }
    assert (tref (next_loc σ) (Some (next_loc σ)) = 1%nat) as Ht'.
    { unfold tref. destruct (decide (Some (next_loc σ) = Some (next_loc σ))); done. }
    rewrite Ht, Ht' in Hr. lia.
  - intros b Hb. specialize (Hr b). cbn [sp_cb new] in Hr.
    assert (tref b (Some (next_loc σ)) = 0%nat) as Ht.
    { unfold tref. destruct (decide (Some (next_loc σ) = Some b)) as [Hc|_]; [|done].
      congruence. }
    rewrite Ht in Hr. lia.
Qed.

(** X14.  The destructor of a strong handle in a state a run reaches,
    the object that its block owns through [std::default_delete] being
    still there to be deleted: the handle object is gone, every other handle object is as before,
    the other strong handles on the same block report a [use_count()]
    lower by one, and those on other blocks report what they reported
    before. *)
Theorem strong_dtor_lowers_use_count (ops : list (@Op T Args)) σ v h :
  Z.of_nat (length ops) + 1 < SIZE_MOD ->
  exec T_ctor plain_dtor plain_call ops init = Some σ ->
  strongs σ !! v = Some h -> releasable (sp_cb h) σ ->
  exists σ', step T_ctor plain_dtor plain_call (SpDestroy v) σ = Ok tt σ' /\
    strongs σ' = delete v (strongs σ) /\ weaks σ' = weaks σ /\
    (forall b, (srefs b σ' + tref b (sp_cb h))%nat = srefs b σ) /\
    (forall v' h' b, v' <> v -> strongs σ !! v' = Some h' -> sp_cb h' = Some b ->
       SharedPtr_use_count v' σ = Ok (Z.of_nat (srefs b σ)) σ /\
       SharedPtr_use_count v' σ'
       = Ok (Z.of_nat (srefs b σ) - Z.of_nat (tref b (sp_cb h))) σ').
Proof.
  intros Hlen Hex Hv Hrel.
  destruct (reachable_inv ops σ Hlen Hex) as [HI HB].
  set (σ1 := set_strongs (delete v (strongs σ)) σ).
  assert (take_strong v σ = Ok h σ1) as Ht.
  { unfold take_strong, bind, get_strong, end_strong, ret. by rewrite Hv. }
  assert (forall b, (srefs b σ1 + tref b (sp_cb h))%nat = srefs b σ) as Hr.
  { intros b. unfold srefs. subst σ1. cbn [strongs set_strongs].
    symmetry. apply (refs_delete_Some sp_cb (strongs σ) b v h Hv). }
  assert (InvT (sp_cb h) None σ1) as HI1.
  { apply (InvT_store None None (sp_cb h) None σ σ1 HI).
    - done.
    - intros b. rewrite tref_None. specialize (Hr b). lia.
    - intros b. done. }
  pose proof (SharedPtr_dtor_inv h None σ1 HI1 Hrel) as Hd. unfold twp in Hd.
  destruct (SharedPtr_dtor plain_dtor plain_call h σ1) as [[] σ'| |] eqn:Hdt; [|done|done].
  destruct Hd as (HI' & Hst & Hwk & _).
  exists σ'. split.
  { cbn [step]. unfold bind. rewrite Ht. exact Hdt. }
  split; [by rewrite Hst|]. split; [by rewrite Hwk|].
  assert (forall b, srefs b σ' = srefs b σ1) as Hsame.
  { intros b. unfold srefs. by rewrite Hst. }
  split; [intros b; rewrite Hsame; apply Hr|].
  intros v' h' b Hne Hv' Hb.
  destruct (Inv_use_count σ v' h' b HI Hv' Hb) as [Hu _].
  split; [done|].
  assert (strongs σ' !! v' = Some h') as Lv'.
  { rewrite Hst. subst σ1. cbn [strongs set_strongs]. by rewrite lookup_delete_ne. }
  destruct (Inv_use_count σ' v' h' b HI' Lv' Hb) as [Hu' _].
  rewrite Hu'. f_equal. specialize (Hr b). rewrite <- Hsame in Hr. lia.
Qed.

(** X15.  The destructor of a weak handle in a state a run reaches never
    destroys the managed value and never runs a deleter: the only event
    it can log is the deallocation of its own block, and it logs it
    exactly when no strong handle and no other weak handle references the
    block.  Every strong handle reports the same [use_count()] as
    before. *)
Theorem weak_dtor_only_deallocates (ops : list (@Op T Args)) σ w h :
  Z.of_nat (length ops) + 1 < SIZE_MOD ->
  exec T_ctor plain_dtor plain_call ops init = Some σ ->
  weaks σ !! w = Some h ->
  exists σ', step T_ctor plain_dtor plain_call (WpDestroy w) σ = Ok tt σ' /\
    weaks σ' = delete w (weaks σ) /\ strongs σ' = strongs σ /\ objs σ' = objs σ /\
    log σ' = log σ ++
      match wp_cb h with
      | Some b => if decide (srefs b σ = 0%nat /\ wrefs b σ = 1%nat)
                  then [EvDeallocate b] else []
      | None => []
      end /\
    (forall v hv b, strongs σ !! v = Some hv -> sp_cb hv = Some b ->
       SharedPtr_use_count v σ = Ok (Z.of_nat (srefs b σ)) σ /\
       SharedPtr_use_count v σ' = Ok (Z.of_nat (srefs b σ)) σ').
Proof.
  intros Hlen Hex Hw.
  destruct (reachable_inv ops σ Hlen Hex) as [HI HB].
  set (σ1 := set_weaks (delete w (weaks σ)) σ).
  assert (take_weak w σ = Ok h σ1) as Ht.
  { unfold take_weak, bind, get_weak, end_weak, ret. by rewrite Hw. }
  assert (forall b, (wrefs b σ1 + tref b (wp_cb h))%nat = wrefs b σ) as Hr.
  { intros b. unfold wrefs. subst σ1. cbn [weaks set_weaks].
    symmetry. apply (refs_delete_Some wp_cb (weaks σ) b w h Hw). }
  assert (InvT None (wp_cb h) σ1) as HI1.
  { apply (InvT_store None None None (wp_cb h) σ σ1 HI).
    - done.
    - intros b. done.
    - intros b. rewrite tref_None. specialize (Hr b). lia. }
  pose proof (WeakPtr_dtor_inv h None σ1 HI1) as Hd. unfold twp in Hd.
  destruct (WeakPtr_dtor h σ1) as [[] σ'| |] eqn:Hdt; [|done|done].
  destruct Hd as (HI' & Hst & Hwk & _).
  assert (objs σ' = objs σ /\
          log σ' = log σ ++
            match wp_cb h with
            | Some b => if decide (srefs b σ = 0%nat /\ wrefs b σ = 1%nat)
                        then [EvDeallocate b] else []
            | None => []
            end) as [Hobjs Hlog].
  { revert Hdt. unfold WeakPtr_dtor. destruct (wp_cb h) as [b|] eqn:Hb.
    2:{ unfold ret. intros [= <-]. by rewrite app_nil_r. }
    destruct (InvT_constructed None (Some b) σ1 b HI1) as (cb & Hcb & Hlt & Hsc & Hwc & _ & Hwm & _).
    { unfold tref. destruct (decide (Some b = Some b)); [lia|done]. }
    assert (tref b (Some b) = 1%nat) as Hone.
    { unfold tref. by destruct (decide (Some b = Some b)). }
    rewrite tref_None, Hone in *. rewrite Nat.add_0_r in Hsc.
    specialize (Hr b). rewrite Hone in Hr.
    assert (srefs b σ1 = srefs b σ) as Hss by done.
    unfold bind at 1. rewrite (decr_weak_eq b cb σ1 Hcb).
    unfold bind at 1. unfold get_block. cbn [heap set_heap]. rewrite lookup_insert_eq.
    cbn [weak_count shared_count with_weak].
    rewrite Hwc, (size_decr_nat (wrefs b σ1)) by lia. rewrite Hsc.
    destruct (decide (Z.of_nat (wrefs b σ1) = 0 ∧ Z.of_nat (srefs b σ1) = 0)) as [[Hz1 Hz2]|Hnz].
    - destruct (decide (srefs b σ = 0%nat ∧ wrefs b σ = 1%nat)) as [_|Hn]; [|lia].
      unfold deallocate, bind, get_block, emit. cbn [heap set_heap].
      rewrite lookup_insert_eq. intros [= <-]. done.
    - destruct (decide (srefs b σ = 0%nat ∧ wrefs b σ = 1%nat)) as [[? ?]|_]; [lia|].
      unfold ret. intros [= <-]. cbn [objs log set_heap]. by rewrite app_nil_r. }
  exists σ'. split.
  { cbn [step]. unfold bind. rewrite Ht. exact Hdt. }
  split; [by rewrite Hwk|]. split; [by rewrite Hst|]. split; [done|]. split; [done|].
  intros v hv b Hv Hb.
  destruct (Inv_use_count σ v hv b HI Hv Hb) as [Hu _]. split; [done|].
  assert (strongs σ' !! v = Some hv) as Lv by (by rewrite Hst).
  destruct (Inv_use_count σ' v hv b HI' Lv Hb) as [Hu' _].
  rewrite Hu'. unfold srefs. by rewrite Hst.
Qed.

(** ** The last reference *)

Lemma deallocate_eq b (cb : @ControlBlock T) σ :
  heap σ !! b = Some (Constructed cb) ->
  deallocate b σ =
  Ok tt {| heap := delete b (heap σ); next_loc := next_loc σ; objs := objs σ;
           strongs := strongs σ; weaks := weaks σ;
           log := log σ ++ [EvDeallocate b] |}.
Proof. intros Hb. unfold deallocate, bind, get_block. rewrite Hb. reflexivity. Qed.

(** The destructor body on the last strong reference to a block. *)
Lemma SharedPtr_dtor_last (h : SharedPtr) b (cb : @ControlBlock T) σ :
  sp_cb h = Some b -> heap σ !! b = Some (Constructed cb) ->
  shared_count cb = 1 -> deletable (body cb) σ ->
  exists σ', SharedPtr_dtor plain_dtor plain_call h σ = Ok tt σ' /\
    strongs σ' = strongs σ /\ weaks σ' = weaks σ /\
    log σ' = log σ ++ EvDestroy b ::
      match body cb with
      | ControlBlockRegular p d _ => [EvDeleter d p]
      | ControlBlockMakeShared _ _ => []
      end ++ (if decide (weak_count cb = 0) then [EvDeallocate b] else []) /\
    objs σ' =
      match body cb with
      | ControlBlockRegular (at_object a) default_delete _ => delete a (objs σ)
      | _ => objs σ
      end /\
    heap σ' =
      if decide (weak_count cb = 0) then delete b (heap σ)
      else <[b := Constructed
                    {| shared_count := 0; weak_count := weak_count cb;
                       body := match body cb with
                               | ControlBlockRegular _ d a => ControlBlockRegular nullptr d a
                               | ControlBlockMakeShared _ a => ControlBlockMakeShared None a
                               end |}]> (heap σ).
Proof.
  intros Hc Hb H1 Hdel. unfold SharedPtr_dtor. rewrite Hc.
  unfold bind at 1. rewrite (decr_shared_eq b cb σ Hb). rewrite H1.
  change (size_decr 1) with 0.
  set (σ1 := set_heap _ σ).
  assert (heap σ1 !! b = Some (Constructed (with_shared 0 cb))) as Hb1
    by (subst σ1; cbn [heap set_heap]; apply lookup_insert_eq).
  unfold bind at 1. unfold get_block at 1. rewrite Hb1.
  cbn [shared_count with_shared].
  destruct (decide (0 = 0)) as [_|?]; [|done].
  unfold bind at 1. rewrite (destroy_eq b _ σ1 Hb1 Hdel).
  set (σ2 := Build_State _ _ _ _ _ _).
  assert (heap σ2 !! b
          = Some (Constructed
                    (with_body match body cb with
                               | ControlBlockRegular _ d a => ControlBlockRegular nullptr d a
                               | ControlBlockMakeShared _ a => ControlBlockMakeShared None a
                               end (with_shared 0 cb)))) as Hb2
    by (subst σ2; cbn [heap]; apply lookup_insert_eq).
  unfold bind at 1. unfold get_block at 1. rewrite Hb2.
  cbn [weak_count with_body with_shared].
  destruct (decide (weak_count cb = 0)) as [Hz|Hz].
  - rewrite (deallocate_eq b _ σ2 Hb2). eexists. split; [reflexivity|].
    subst σ2 σ1. cbn [heap strongs weaks log objs set_heap body with_shared].
    split; [done|]. split; [done|]. split; [by rewrite <- app_assoc|]. split; [done|].
    by rewrite !delete_insert_eq.
  - unfold ret. eexists. split; [reflexivity|].
    subst σ2 σ1. cbn [heap strongs weaks log objs set_heap body with_shared].
    split; [done|]. split; [done|]. split; [by rewrite app_nil_r|]. split; [done|].
    by rewrite insert_insert_eq.
Qed.

(** X16.  When the only strong handle on a block is destroyed in a
    state a run reaches, the object that the block owns through
    [std::default_delete] being still there to be deleted, [destroy()]
    runs first, for a separately allocated object it calls the stored
    deleter on the stored pointer exactly once (an object deleted by
    [std::default_delete] is gone from the client's objects afterwards),
    and [deallocate()] follows in the same destructor call exactly when no
    weak handle references the block; otherwise the block stays allocated
    with [shared_count == 0].  [reset()] on that handle logs the same
    calls and leaves the same heap. *)
Theorem last_strong_handle_release (ops : list (@Op T Args)) σ v h b cb :
  Z.of_nat (length ops) + 1 < SIZE_MOD ->
  exec T_ctor plain_dtor plain_call ops init = Some σ ->
  strongs σ !! v = Some h -> sp_cb h = Some b -> srefs b σ = 1%nat ->
  heap σ !! b = Some (Constructed cb) -> deletable (body cb) σ ->
  exists σ' σ'',
    step T_ctor plain_dtor plain_call (SpDestroy v) σ = Ok tt σ' /\
    step T_ctor plain_dtor plain_call (SpReset v) σ = Ok tt σ'' /\
    log σ' = log σ ++ EvDestroy b ::
      match body cb with
      | ControlBlockRegular p d _ => [EvDeleter d p]
      | ControlBlockMakeShared _ _ => []
      end ++ (if decide (wrefs b σ = 0%nat) then [EvDeallocate b] else []) /\
    objs σ' =
      match body cb with
      | ControlBlockRegular (at_object a) default_delete _ => delete a (objs σ)
      | _ => objs σ
      end /\
    heap σ' =
      (if decide (wrefs b σ = 0%nat) then delete b (heap σ)
       else <[b := Constructed
                     {| shared_count := 0; weak_count := Z.of_nat (wrefs b σ);
                        body := match body cb with
                                | ControlBlockRegular _ d a => ControlBlockRegular nullptr d a
                                | ControlBlockMakeShared _ a => ControlBlockMakeShared None a
                                end |}]> (heap σ)) /\
    log σ'' = log σ' /\ objs σ'' = objs σ' /\ heap σ'' = heap σ'.
Proof.
  intros Hlen Hex Hv Hc H1 Hb Hdel.
  destruct (reachable_inv ops σ Hlen Hex) as [HI HB].
  destruct (Inv_live σ b HI) as (cb' & Hcb' & _ & Hsc & Hwc); [lia|].
  assert (cb' = cb) as -> by congruence.
  rewrite H1 in Hsc.
  assert (forall σ1, heap σ1 = heap σ -> log σ1 = log σ -> objs σ1 = objs σ ->
            exists σ', SharedPtr_dtor plain_dtor plain_call h σ1 = Ok tt σ' /\
              log σ' = log σ ++ EvDestroy b ::
                match body cb with
                | ControlBlockRegular p d _ => [EvDeleter d p]
                | ControlBlockMakeShared _ _ => []
                end ++ (if decide (wrefs b σ = 0%nat) then [EvDeallocate b] else []) /\
              objs σ' =
                match body cb with
                | ControlBlockRegular (at_object a) default_delete _ => delete a (objs σ)
                | _ => objs σ
                end /\
              heap σ' =
                (if decide (wrefs b σ = 0%nat) then delete b (heap σ)
                 else <[b := Constructed
                     {| shared_count := 0; weak_count := Z.of_nat (wrefs b σ);
                        body := match body cb with
                                | ControlBlockRegular _ d a => ControlBlockRegular nullptr d a
                                | ControlBlockMakeShared _ a => ControlBlockMakeShared None a
                                end |}]> (heap σ))) as Hdtor.
  { intros σ1 Hh Hl Ho.
    destruct (SharedPtr_dtor_last h b cb σ1 Hc) as (σ' & Hd & _ & _ & Hlog & Hobjs & Hheap).
    { by rewrite Hh. }
    { done. }
    { by apply (deletable_objs _ σ σ1). }
    exists σ'. split; [done|]. rewrite Hl in Hlog. rewrite Ho in Hobjs. rewrite Hh in Hheap.
    rewrite Hwc in Hlog, Hheap.
    destruct (decide (Z.of_nat (wrefs b σ) = 0)) as [Hz|Hz];
      destruct (decide (wrefs b σ = 0%nat)) as [Hz'|Hz']; try lia; done. }
  destruct (Hdtor (set_strongs (delete v (strongs σ)) σ) eq_refl eq_refl eq_refl)
    as (σ' & Hd' & Hlog' & Hobjs' & Hheap').
  destruct (Hdtor (set_strongs (<[v := SharedPtr_null]> (strongs σ)) σ) eq_refl eq_refl eq_refl)
    as (σ'' & Hd'' & Hlog'' & Hobjs'' & Hheap'').
  exists σ', σ''. split.
  { cbn [step]. unfold take_strong, bind, get_strong, end_strong, ret. rewrite Hv. exact Hd'. }
  split.
  { cbn [step]. unfold SharedPtr_reset. unfold bind.
    rewrite (SharedPtr_swap_temp_eq v SharedPtr_null h σ Hv). exact Hd''. }
  split; [done|]. split; [done|]. split; [done|].
  split; [congruence|]. split; congruence.
Qed.

(** X17.  Copy assignment between two handles that already reference
    the same block changes nothing but the assigned handle object: the
    counters, the heap and the log are exactly as before, and nothing is
    destroyed. *)
Theorem assign_within_block_is_silent (ops : list (@Op T Args)) σ dst src hd hs b :
  Z.of_nat (length ops) + 1 < SIZE_MOD ->
  exec T_ctor plain_dtor plain_call ops init = Some σ ->
  strongs σ !! dst = Some hd -> strongs σ !! src = Some hs ->
  sp_cb hd = Some b -> sp_cb hs = Some b ->
  step T_ctor plain_dtor plain_call (SpAssign dst src) σ
  = Ok tt (set_strongs (<[dst := hs]> (strongs σ)) σ).
Proof.
  intros Hlen Hex Hd Hs Hdb Hsb.
  destruct (reachable_inv ops σ Hlen Hex) as [HI [HB _]].
  cbn [step]. unfold SharedPtr_assign.
  destruct (decide (dst = src)) as [->|Hne].
  { unfold bind, get_strong, ret. rewrite Hs. by rewrite set_strongs_same. }
  destruct (Inv_live σ b HI) as (cb & Hcb & _ & Hsc & _).
  { pose proof (refs_lookup_pos sp_cb (strongs σ) b src hs Hs Hsb). unfold srefs. lia. }
  pose proof (refs_lookup_pos sp_cb (strongs σ) b src hs Hs Hsb) as Hpos.
  pose proof (refs_le_size sp_cb (strongs σ) b) as Hle.
  fold (srefs b σ) in Hpos, Hle.
  unfold bind at 1. unfold get_strong. rewrite Hs.
  unfold bind at 1. unfold SharedPtr_copy_ctor. rewrite Hsb.
  unfold bind at 1. rewrite (incr_shared_eq b cb σ Hcb).
  rewrite (size_incr_small (shared_count cb)) by lia.
  unfold ret at 1. cbn [sp_ptr sp_cb].
  set (σ0 := set_heap _ σ).
  unfold bind at 1.
  rewrite (SharedPtr_swap_temp_eq dst _ hd σ0) by done.
  set (σ1 := set_strongs _ σ0).
  rewrite (SharedPtr_dtor_not_last hd b (with_shared (shared_count cb + 1) cb) σ1 Hdb).
  - f_equal. subst σ1 σ0. unfold set_heap, set_strongs. cbn [heap strongs next_loc objs weaks log].
    rewrite insert_insert_eq. cbn [shared_count with_shared].
    replace (with_shared (shared_count cb + 1 - 1) (with_shared (shared_count cb + 1) cb))
      with cb by (destruct cb; unfold with_shared; cbn; f_equal; lia).
    rewrite insert_id by done. rewrite <- Hsb, SharedPtr_eta. done.
  - subst σ1 σ0. cbn [heap set_heap set_strongs]. apply lookup_insert_eq.
  - cbn [shared_count with_shared]. lia.
Qed.

(** ** Temporaries *)

(** A strong handle that was just added to a live block, and is destroyed
    again. *)
Lemma strong_temp_released σ v (h : SharedPtr) b cb :
  heap σ !! b = Some (Constructed cb) -> 1 <= shared_count cb ->
  shared_count cb + 1 < SIZE_MOD ->
  strongs σ !! v = None -> sp_cb h = Some b ->
  exists σ0, incr_shared b σ = Ok tt σ0 /\
    heap σ0 !! b = Some (Constructed (with_shared (shared_count cb + 1) cb)) /\
    strongs σ0 = strongs σ /\ weaks σ0 = weaks σ /\
    new_strong v h σ0 = Ok tt (set_strongs (<[v := h]> (strongs σ0)) σ0) /\
    step T_ctor plain_dtor plain_call (SpDestroy v) (set_strongs (<[v := h]> (strongs σ0)) σ0) = Ok tt σ.
Proof.
  intros Hcb H1 Hlt Hv Hb.
  eexists. split; [apply (incr_shared_eq b cb σ Hcb)|].
  rewrite (size_incr_small (shared_count cb)) by lia.
  set (σ0 := set_heap _ σ).
  assert (heap σ0 !! b = Some (Constructed (with_shared (shared_count cb + 1) cb))) as Hb0
    by (subst σ0; cbn [heap set_heap]; apply lookup_insert_eq).
  split; [done|]. split; [done|]. split; [done|]. split.
  { unfold new_strong. replace (strongs σ0) with (strongs σ) by done. by rewrite Hv. }
  cbn [step]. unfold take_strong, bind at 1, bind at 1, get_strong, end_strong, ret.
  cbn [strongs set_strongs]. rewrite lookup_insert_eq. unfold bind.
  set (σ1 := set_strongs _ _).
  rewrite (SharedPtr_dtor_not_last h b (with_shared (shared_count cb + 1) cb) σ1 Hb).
  - f_equal. subst σ1 σ0. unfold set_heap, set_strongs.
    cbn [heap strongs next_loc objs weaks log].
    rewrite insert_insert_eq. cbn [shared_count with_shared].
    replace (with_shared (shared_count cb + 1 - 1) (with_shared (shared_count cb + 1) cb))
      with cb by (destruct cb; unfold with_shared; cbn; f_equal; lia).
    rewrite insert_id by done. rewrite delete_insert_id by done. apply State_eta.
  - done.
  - cbn [shared_count with_shared]. lia.
Qed.

(** The same for a weak handle. *)
Lemma weak_temp_released σ v (h : WeakPtr) b cb :
  heap σ !! b = Some (Constructed cb) -> 0 <= weak_count cb ->
  weak_count cb + 1 < SIZE_MOD ->
  1 <= weak_count cb \/ shared_count cb <> 0 ->
  weaks σ !! v = None -> wp_cb h = Some b ->
  exists σ0, incr_weak b σ = Ok tt σ0 /\
    strongs σ0 = strongs σ /\ weaks σ0 = weaks σ /\
    new_weak v h σ0 = Ok tt (set_weaks (<[v := h]> (weaks σ0)) σ0) /\
    step T_ctor plain_dtor plain_call (WpDestroy v) (set_weaks (<[v := h]> (weaks σ0)) σ0) = Ok tt σ.
Proof.
  intros Hcb H0 Hlt Hlast Hv Hb.
  eexists. split; [apply (incr_weak_eq b cb σ Hcb)|].
  rewrite (size_incr_small (weak_count cb)) by lia.
  set (σ0 := set_heap _ σ).
  split; [done|]. split; [done|]. split.
  { unfold new_weak. replace (weaks σ0) with (weaks σ) by done. by rewrite Hv. }
  cbn [step]. unfold take_weak, bind at 1, bind at 1, get_weak, end_weak, ret.
  cbn [weaks set_weaks]. rewrite lookup_insert_eq. unfold bind.
  set (σ1 := set_weaks _ _).
  rewrite (WeakPtr_dtor_not_last h b (with_weak (weak_count cb + 1) cb) σ1 Hb).
  - f_equal. subst σ1 σ0. unfold set_heap, set_weaks.
    cbn [heap strongs next_loc objs weaks log].
    rewrite insert_insert_eq. cbn [weak_count with_weak].
    replace (with_weak (weak_count cb + 1 - 1) (with_weak (weak_count cb + 1) cb))
      with cb by (destruct cb; unfold with_weak; cbn; f_equal; lia).
    rewrite insert_id by done. rewrite delete_insert_id by done. apply State_eta.
  - subst σ1 σ0. cbn [heap set_heap set_weaks]. apply lookup_insert_eq.
  - cbn [weak_count with_weak]. lia.
  - cbn [weak_count shared_count with_weak]. destruct Hlast; [left; lia|by right].
Qed.

Lemma null_strong_temp_released σ v (h : SharedPtr) :
  strongs σ !! v = None -> sp_cb h = None ->
  new_strong v h σ = Ok tt (set_strongs (<[v := h]> (strongs σ)) σ) /\
  step T_ctor plain_dtor plain_call (SpDestroy v) (set_strongs (<[v := h]> (strongs σ)) σ) = Ok tt σ.
Proof.
  intros Hv Hn. split; [unfold new_strong; by rewrite Hv|].
  cbn [step]. unfold take_strong, bind, get_strong, end_strong, ret, SharedPtr_dtor.
  cbn [strongs set_strongs]. rewrite lookup_insert_eq. rewrite Hn.
  unfold ret. f_equal. unfold set_strongs. cbn [heap strongs next_loc objs weaks log].
  rewrite delete_insert_id by done. apply State_eta.
Qed.

Lemma null_weak_temp_released σ v (h : WeakPtr) :
  weaks σ !! v = None -> wp_cb h = None ->
  new_weak v h σ = Ok tt (set_weaks (<[v := h]> (weaks σ)) σ) /\
  step T_ctor plain_dtor plain_call (WpDestroy v) (set_weaks (<[v := h]> (weaks σ)) σ) = Ok tt σ.
Proof.
  intros Hv Hn. split; [unfold new_weak; by rewrite Hv|].
  cbn [step]. unfold take_weak, bind, get_weak, end_weak, ret, WeakPtr_dtor.
  cbn [weaks set_weaks]. rewrite lookup_insert_eq. rewrite Hn.
  unfold ret. f_equal. unfold set_weaks. cbn [heap strongs next_loc objs weaks log].
  rewrite delete_insert_id by done. apply State_eta.
Qed.

Lemma exec_two (op1 op2 : @Op T Args) σ σ1 σ2 :
  step T_ctor plain_dtor plain_call op1 σ = Ok tt σ1 -> step T_ctor plain_dtor plain_call op2 σ1 = Ok tt σ2 ->
  exec T_ctor plain_dtor plain_call [op1; op2] σ = Some σ2.
Proof. intros H1 H2. cbn [exec]. rewrite H1. cbn [state_of]. rewrite H2. done. Qed.

(** X18.  A temporary strong handle leaves no trace: in a state a run
    reaches, copying a strong handle into a new object, or locking a weak
    handle into one, and destroying that object again gives back exactly
    the state before, with the same counters, heap and log and with
    nothing destroyed. *)
Theorem strong_temporary_leaves_no_trace (ops : list (@Op T Args)) σ s w v hs hw :
  Z.of_nat (length ops) + 1 < SIZE_MOD ->
  exec T_ctor plain_dtor plain_call ops init = Some σ ->
  strongs σ !! s = Some hs -> weaks σ !! w = Some hw -> strongs σ !! v = None ->
  exec T_ctor plain_dtor plain_call [SpCopy v s; SpDestroy v] σ = Some σ /\
  exec T_ctor plain_dtor plain_call [WpLock v w; SpDestroy v] σ = Some σ.
Proof.
  intros Hlen Hex Hs Hw Hv.
  destruct (reachable_inv ops σ Hlen Hex) as [HI [HB _]].
  assert (forall b, (0 < srefs b σ)%nat ->
            exists cb, heap σ !! b = Some (Constructed cb) /\
              shared_count cb = Z.of_nat (srefs b σ) /\
              1 <= shared_count cb /\ shared_count cb + 1 < SIZE_MOD) as Hlive.
  { intros b Hpos. destruct (Inv_live σ b HI) as (cb & Hcb & _ & Hsc & _); [lia|].
    pose proof (refs_le_size sp_cb (strongs σ) b) as Hle. fold (srefs b σ) in Hle.
    exists cb. split; [done|]. split; [done|]. lia. }
  split.
  - destruct (sp_cb hs) as [b|] eqn:Hb.
    + destruct (Hlive b) as (cb & Hcb & _ & H1 & Hlt).
      { pose proof (refs_lookup_pos sp_cb (strongs σ) b s hs Hs Hb). by unfold srefs. }
      destruct (strong_temp_released σ v {| sp_ptr := sp_ptr hs; sp_cb := Some b |} b cb
                  Hcb H1 Hlt Hv eq_refl) as (σ0 & Hi & _ & _ & _ & Hn & Hd).
      eapply exec_two; [|exact Hd].
      cbn [step]. unfold bind at 1. unfold get_strong. rewrite Hs.
      unfold SharedPtr_copy_ctor. rewrite Hb. unfold bind. rewrite Hi. exact Hn.
    + destruct (null_strong_temp_released σ v {| sp_ptr := sp_ptr hs; sp_cb := None |}
                  Hv eq_refl) as [Hn Hd].
      eapply exec_two; [|exact Hd].
      cbn [step]. unfold bind at 1. unfold get_strong. rewrite Hs.
      unfold SharedPtr_copy_ctor. rewrite Hb. exact Hn.
  - destruct (wp_cb hw) as [b|] eqn:Hb.
    + destruct (Inv_weak_use_count σ w hw b HI Hw Hb) as (_ & He & _).
      destruct (decide (srefs b σ = 0%nat)) as [Hz|Hz].
      * rewrite bool_decide_eq_true_2 in He by done.
        destruct (null_strong_temp_released σ v SharedPtr_null Hv eq_refl) as [Hn Hd].
        eapply exec_two; [|exact Hd].
        cbn [step]. unfold bind at 1. unfold WeakPtr_lock. unfold bind at 1.
        rewrite He. exact Hn.
      * rewrite bool_decide_eq_false_2 in He by done.
        destruct (Hlive b) as (cb & Hcb & _ & H1 & Hlt); [lia|].
        destruct (strong_temp_released σ v {| sp_ptr := wp_ptr hw; sp_cb := Some b |} b cb
                  Hcb H1 Hlt Hv eq_refl) as (σ0 & Hi & _ & _ & _ & Hn & Hd).
        eapply exec_two; [|exact Hd].
        cbn [step]. unfold bind at 1. unfold WeakPtr_lock. unfold bind at 1.
        rewrite He. unfold bind at 1. unfold get_weak. rewrite Hw.
        unfold SharedPtr_from_weak. rewrite Hb. unfold bind. rewrite Hi. exact Hn.
    + assert (WeakPtr_expired w σ = Ok true σ) as He.
      { unfold WeakPtr_expired, WeakPtr_use_count, bind, get_weak, ret. by rewrite Hw, Hb. }
      destruct (null_strong_temp_released σ v SharedPtr_null Hv eq_refl) as [Hn Hd].
      eapply exec_two; [|exact Hd].
      cbn [step]. unfold bind at 1. unfold WeakPtr_lock. unfold bind at 1.
      rewrite He. exact Hn.
Qed.

(** X19.  A temporary weak handle leaves no trace: in a state a run
    reaches, copying a weak handle into a new object, or making one from a
    strong handle, and destroying that object again gives back exactly the
    state before; the block is not deallocated on the way. *)
Theorem weak_temporary_leaves_no_trace (ops : list (@Op T Args)) σ s w v hs hw :
  Z.of_nat (length ops) + 1 < SIZE_MOD ->
  exec T_ctor plain_dtor plain_call ops init = Some σ ->
  strongs σ !! s = Some hs -> weaks σ !! w = Some hw -> weaks σ !! v = None ->
  exec T_ctor plain_dtor plain_call [WpCopy v w; WpDestroy v] σ = Some σ /\
  exec T_ctor plain_dtor plain_call [WpFromShared v s; WpDestroy v] σ = Some σ.
Proof.
  intros Hlen Hex Hs Hw Hv.
  destruct (reachable_inv ops σ Hlen Hex) as [HI [_ HB]].
  assert (forall b, (0 < srefs b σ + wrefs b σ)%nat ->
            exists cb, heap σ !! b = Some (Constructed cb) /\
              shared_count cb = Z.of_nat (srefs b σ) /\
              weak_count cb = Z.of_nat (wrefs b σ) /\
              weak_count cb + 1 < SIZE_MOD) as Hlive.
  { intros b Hpos. destruct (Inv_live σ b HI) as (cb & Hcb & _ & Hsc & Hwc); [lia|].
    pose proof (refs_le_size wp_cb (weaks σ) b) as Hle. fold (wrefs b σ) in Hle.
    exists cb. split; [done|]. split; [done|]. split; [done|]. lia. }
  split.
  - destruct (wp_cb hw) as [b|] eqn:Hb.
    + pose proof (refs_lookup_pos wp_cb (weaks σ) b w hw Hw Hb) as Hpos.
      fold (wrefs b σ) in Hpos.
      destruct (Hlive b) as (cb & Hcb & Hsc & Hwc & Hlt); [lia|].
      destruct (weak_temp_released σ v {| wp_ptr := wp_ptr hw; wp_cb := Some b |} b cb Hcb)
        as (σ0 & Hi & _ & _ & Hn & Hd); [lia|lia|left; lia|done|done|].
      eapply exec_two; [|exact Hd].
      cbn [step]. unfold bind at 1. unfold get_weak. rewrite Hw.
      unfold WeakPtr_copy_ctor. rewrite Hb. unfold bind. rewrite Hi. exact Hn.
    + destruct (null_weak_temp_released σ v {| wp_ptr := wp_ptr hw; wp_cb := None |}
                  Hv eq_refl) as [Hn Hd].
      eapply exec_two; [|exact Hd].
      cbn [step]. unfold bind at 1. unfold get_weak. rewrite Hw.
      unfold WeakPtr_copy_ctor. rewrite Hb. exact Hn.
  - destruct (sp_cb hs) as [b|] eqn:Hb.
    + pose proof (refs_lookup_pos sp_cb (strongs σ) b s hs Hs Hb) as Hpos.
      fold (srefs b σ) in Hpos.
      destruct (Hlive b) as (cb & Hcb & Hsc & Hwc & Hlt); [lia|].
      destruct (weak_temp_released σ v {| wp_ptr := sp_ptr hs; wp_cb := Some b |} b cb Hcb)
        as (σ0 & Hi & _ & _ & Hn & Hd); [lia|lia|right; lia|done|done|].
      eapply exec_two; [|exact Hd].
      cbn [step]. unfold bind at 1. unfold get_strong. rewrite Hs.
      unfold WeakPtr_from_shared. rewrite Hb. unfold bind. rewrite Hi. exact Hn.
    + destruct (null_weak_temp_released σ v {| wp_ptr := sp_ptr hs; wp_cb := None |}
                  Hv eq_refl) as [Hn Hd].
      eapply exec_two; [|exact Hd].
      cbn [step]. unfold bind at 1. unfold get_strong. rewrite Hs.
      unfold WeakPtr_from_shared. rewrite Hb. exact Hn.
Qed.

(** X20.  [WeakPtr w(s)] in a state a run reaches: the new weak handle
    has the fields of [s]; nothing is logged and no strong handle changes;
    for a non-null [s] the block gains one weak handle, [s.use_count()] is
    what it was, [w.use_count()] equals it and [w] is not expired; for a
    null [s] the heap is untouched and [w] is expired. *)
Theorem weak_from_shared_observes (ops : list (@Op T Args)) σ s w h :
  Z.of_nat (length ops) + 1 < SIZE_MOD ->
  exec T_ctor plain_dtor plain_call ops init = Some σ ->
  strongs σ !! s = Some h -> weaks σ !! w = None ->
  exists σ', step T_ctor plain_dtor plain_call (WpFromShared w s) σ = Ok tt σ' /\
    weaks σ' = <[w := {| wp_ptr := sp_ptr h; wp_cb := sp_cb h |}]> (weaks σ) /\
    strongs σ' = strongs σ /\ log σ' = log σ /\ objs σ' = objs σ /\
    (forall b, sp_cb h = Some b ->
       SharedPtr_use_count s σ' = Ok (Z.of_nat (srefs b σ)) σ' /\
       WeakPtr_use_count w σ' = Ok (Z.of_nat (srefs b σ)) σ' /\
       WeakPtr_expired w σ' = Ok false σ' /\
       wrefs b σ' = S (wrefs b σ)) /\
    (sp_cb h = None -> WeakPtr_expired w σ' = Ok true σ' /\ heap σ' = heap σ).
Proof.
  intros Hlen Hex Hs Hw.
  destruct (reachable_inv ops σ Hlen Hex) as [HI HB].
  assert (exists σ', step T_ctor plain_dtor plain_call (WpFromShared w s) σ = Ok tt σ' /\
            weaks σ' = <[w := {| wp_ptr := sp_ptr h; wp_cb := sp_cb h |}]> (weaks σ) /\
            strongs σ' = strongs σ /\ log σ' = log σ /\ objs σ' = objs σ /\
            (sp_cb h = None -> heap σ' = heap σ))
    as (σ' & Hstep & Hwk & Hst & Hlog & Hobjs & Hheap).
  { cbn [step]. unfold bind at 1. unfold get_strong. rewrite Hs.
    unfold WeakPtr_from_shared. destruct (sp_cb h) as [b|] eqn:Hb.
    - destruct (Inv_live σ b HI) as (cb & Hcb & _).
      { pose proof (refs_lookup_pos sp_cb (strongs σ) b s h Hs Hb). unfold srefs. lia. }
      unfold bind. rewrite (incr_weak_eq b cb σ Hcb). unfold ret, new_weak.
      cbn [weaks set_heap]. rewrite Hw. eexists. split; [reflexivity|].
      cbn [weaks strongs log objs set_weaks set_heap]. by repeat split.
    - unfold bind, ret, new_weak. rewrite Hw. eexists. split; [reflexivity|].
      cbn [weaks strongs log objs heap set_weaks]. by repeat split. }
  assert (Inv σ') as HI'.
  { destruct (step_sound T_ctor (WpFromShared w s) σ σ' HI HB) as (HI' & _); [|done].
    by rewrite Hstep. }
  assert (weaks σ' !! w = Some {| wp_ptr := sp_ptr h; wp_cb := sp_cb h |}) as Lw
    by (rewrite Hwk; apply lookup_insert_eq).
  assert (strongs σ' !! s = Some h) as Ls by (by rewrite Hst).
  assert (forall b, srefs b σ' = srefs b σ) as Hsame
    by (intros b; unfold srefs; by rewrite Hst).
  exists σ'. split; [done|]. split; [done|]. split; [done|]. split; [done|].
  split; [done|]. split.
  - intros b Hb.
    destruct (Inv_use_count σ' s h b HI' Ls Hb) as [Hu Hpos].
    destruct (Inv_weak_use_count σ' w _ b HI' Lw Hb) as (Hwu & Hwe & _).
    rewrite Hsame in *.
    split; [done|]. split; [done|]. split.
    + rewrite Hwe. f_equal. apply bool_decide_eq_false_2. lia.
    + unfold wrefs. rewrite Hwk. rewrite refs_insert_None by done.
      cbn [wp_cb]. rewrite Hb. unfold tref.
      destruct (decide (Some b = Some b)); [lia|done].
  - intros Hn. split; [|by apply Hheap].
    unfold WeakPtr_expired, WeakPtr_use_count, bind, get_weak, ret.
    rewrite Lw. cbn [wp_cb]. by rewrite Hn.
Qed.

(** X21.  Dereferencing without a value is undefined, and the handles do
    not check for it: [operator*] and [operator->] on a null handle are
    undefined behaviour, and so they are on a handle built from a null raw
    pointer, which nevertheless owns a control block ([use_count() == 1],
    [get() == nullptr]): with [ptr == nullptr] both operators cast that
    block to the combined-block type, which it is not.  A handle with a
    non-null raw pointer reads the object at that address. *)
Theorem deref_without_value σ n r v hr a x d al :
  strongs σ !! n = Some SharedPtr_null ->
  strongs σ !! r = Some hr -> sp_ptr hr = at_object a -> objs σ !! a = Some x ->
  strongs σ !! v = None -> always_fails al = false ->
  SharedPtr_deref n σ = UB /\ SharedPtr_arrow n σ = UB /\
  SharedPtr_deref r σ = Ok x σ /\ SharedPtr_arrow r σ = Ok (at_object a) σ /\
  exists σ', step T_ctor plain_dtor plain_call (SpFromPtr v nullptr d al) σ = Ok tt σ' /\
    SharedPtr_use_count v σ' = Ok 1 σ' /\
    SharedPtr_get v σ' = Ok nullptr σ' /\
    SharedPtr_deref v σ' = UB /\ SharedPtr_arrow v σ' = UB.
Proof.
  intros Hn Hr Hp Ha Hv Hal.
  split.
  { unfold SharedPtr_deref, bind, get_strong. rewrite Hn. cbn [sp_ptr sp_cb SharedPtr_null].
    destruct (decide (nullptr <> nullptr)); done. }
  split.
  { unfold SharedPtr_arrow, bind, get_strong. rewrite Hn. cbn [sp_ptr sp_cb SharedPtr_null].
    destruct (decide (nullptr <> nullptr)); done. }
  split.
  { unfold SharedPtr_deref, bind, get_strong. rewrite Hr, Hp.
    destruct (decide (at_object a <> nullptr)) as [_|Hc]; [|by destruct Hc].
    unfold load. by rewrite Ha. }
  split.
  { unfold SharedPtr_arrow, bind, get_strong. rewrite Hr, Hp.
    destruct (decide (at_object a <> nullptr)) as [_|Hc]; [|by destruct Hc]. done. }
  assert (exists σ', step T_ctor plain_dtor plain_call (SpFromPtr v nullptr d al) σ = Ok tt σ' /\
            strongs σ' !! v = Some {| sp_ptr := nullptr; sp_cb := Some (next_loc σ) |} /\
            heap σ' !! next_loc σ
            = Some (Constructed {| shared_count := 1; weak_count := 0;
                                   body := ControlBlockRegular nullptr d al |}))
    as (σ' & Hstep & Lv & Lb).
  { cbn [step]. unfold SharedPtr_ptr_ctor, allocate, bind. rewrite Hal.
    unfold put_block, incr_shared, bind, get_block, put_block, ret, new_strong.
    cbn [heap set_heap strongs]. rewrite lookup_insert_eq. cbn [strongs set_heap].
    rewrite Hv. eexists. split; [reflexivity|].
    cbn [strongs heap set_strongs set_heap]. rewrite !lookup_insert_eq. done. }
  exists σ'. split; [done|].
  unfold SharedPtr_use_count, SharedPtr_get, SharedPtr_deref, SharedPtr_arrow,
    as_make_shared, bind, get_strong, get_block, ret.
  rewrite Lv. cbn [sp_ptr sp_cb].
  destruct (decide (nullptr <> nullptr)) as [Hc|_]; [done|].
  repeat split;
    repeat (rewrite Lb; cbn beta iota; cbn [body shared_count]); reflexivity.
Qed.

(** X22.  Assignment between weak handles in a state a run reaches.
    After [dst = src], [dst] holds what [src] holds, no strong handle
    changes, the block [dst] referenced loses one weak handle and the
    block of [src] gains one, and [dst] observes the strong handles of that
    block.  After [dst = std::move(src)] between different objects, [src]
    is null and expired and the number of weak handles on its block is
    unchanged. *)
Theorem weak_assignment_rebinds (ops : list (@Op T Args)) σ dst src hd hs :
  Z.of_nat (length ops) + 1 < SIZE_MOD ->
  exec T_ctor plain_dtor plain_call ops init = Some σ ->
  weaks σ !! dst = Some hd -> weaks σ !! src = Some hs ->
  (exists σ', step T_ctor plain_dtor plain_call (WpAssign dst src) σ = Ok tt σ' /\
     weaks σ' = <[dst := hs]> (weaks σ) /\ strongs σ' = strongs σ /\
     (forall b, (wrefs b σ' + tref b (wp_cb hd) = wrefs b σ + tref b (wp_cb hs))%nat) /\
     (forall b, wp_cb hs = Some b ->
        WeakPtr_use_count dst σ' = Ok (Z.of_nat (srefs b σ)) σ' /\
        WeakPtr_expired dst σ' = Ok (bool_decide (srefs b σ = 0%nat)) σ')) /\
  (dst <> src ->
   exists σ', step T_ctor plain_dtor plain_call (WpMoveAssign dst src) σ = Ok tt σ' /\
     weaks σ' = <[dst := hs]> (<[src := WeakPtr_null]> (weaks σ)) /\
     strongs σ' = strongs σ /\
     WeakPtr_expired src σ' = Ok true σ' /\
     (forall b, (wrefs b σ' + tref b (wp_cb hd))%nat = wrefs b σ) /\
     (forall b, wp_cb hs = Some b ->
        WeakPtr_use_count dst σ' = Ok (Z.of_nat (srefs b σ)) σ' /\
        WeakPtr_expired dst σ' = Ok (bool_decide (srefs b σ = 0%nat)) σ')).
Proof.
  intros Hlen Hex Hd Hs.
  destruct (reachable_inv ops σ Hlen Hex) as [HI HB].
  assert (forall σ', Inv σ' -> strongs σ' = strongs σ -> weaks σ' !! dst = Some hs ->
            forall b, wp_cb hs = Some b ->
              WeakPtr_use_count dst σ' = Ok (Z.of_nat (srefs b σ)) σ' /\
              WeakPtr_expired dst σ' = Ok (bool_decide (srefs b σ = 0%nat)) σ') as Hobs.
  { intros σ' HI' Hst Ld b Hb.
    destruct (Inv_weak_use_count σ' dst hs b HI' Ld Hb) as (Hu & He & _).
    assert (srefs b σ' = srefs b σ) as Hsame by (unfold srefs; by rewrite Hst).
    rewrite Hsame in *. done. }
  split.
  - destruct (WeakPtr_copy_ctor_inv hs src σ HI HB Hs) as (σ0 & Hc & HI0 & Hst0 & Hwk0 & _).
    destruct (weak_swap_temp_then_dtor dst hs hd σ0 HI0) as (σ' & Hsw & Hwk & Hst & HI' & _).
    { by rewrite Hwk0. }
    rewrite Hwk0 in Hwk. rewrite Hst0 in Hst.
    exists σ'. split.
    { cbn [step]. unfold WeakPtr_assign. unfold bind at 1. unfold get_weak. rewrite Hs.
      unfold bind at 1. rewrite Hc. exact Hsw. }
    split; [done|]. split; [done|].
    split; [by apply (wrefs_rebind σ σ' dst hd hs)|].
    apply (Hobs σ' HI' Hst). rewrite Hwk. apply lookup_insert_eq.
  - intros Hne.
    set (σ0 := set_weaks (<[src := WeakPtr_null]> (weaks σ)) σ).
    assert (WeakPtr_move_ctor src σ = Ok hs σ0) as Hmv.
    { unfold WeakPtr_move_ctor, bind, get_weak, set_weak, ret.
      rewrite Hs. cbn beta iota. rewrite Hs. by rewrite WeakPtr_eta. }
    assert (forall b, (wrefs b σ0 + tref b (wp_cb hs))%nat = wrefs b σ) as Hr0.
    { intros b. pose proof (wrefs_rebind σ σ0 src hs WeakPtr_null Hs eq_refl b) as Hr.
      cbn [wp_cb WeakPtr_null] in Hr. rewrite tref_None in Hr. lia. }
    assert (InvT None (wp_cb hs) σ0) as HI0.
    { apply (InvT_store None None None (wp_cb hs) σ σ0 HI).
      - done.
      - intros b. done.
      - intros b. rewrite tref_None. specialize (Hr0 b). lia. }
    assert (weaks σ0 !! dst = Some hd) as Hd0.
    { subst σ0. cbn [weaks set_weaks]. by rewrite lookup_insert_ne. }
    destruct (weak_swap_temp_then_dtor dst hs hd σ0 HI0 Hd0) as (σ' & Hsw & Hwk & Hst & HI' & _).
    exists σ'.
    assert (weaks σ' !! src = Some WeakPtr_null) as Ls.
    { rewrite Hwk. rewrite lookup_insert_ne by done. subst σ0. cbn [weaks set_weaks].
      apply lookup_insert_eq. }
    split.
    { cbn [step]. unfold WeakPtr_move_assign. unfold bind at 1. rewrite Hmv. exact Hsw. }
    split; [done|]. split; [done|].
    split.
    { unfold WeakPtr_expired, WeakPtr_use_count, bind, get_weak, ret. by rewrite Ls. }
    split.
    + intros b. pose proof (wrefs_rebind σ0 σ' dst hd hs Hd0 Hwk b) as Hr.
      specialize (Hr0 b). lia.
    + apply (Hobs σ' HI' Hst). rewrite Hwk. apply lookup_insert_eq.
Qed.

(** ** New owners *)

(** What the three ways of making a new owner do to the stores, whether
    they return or throw. *)
Lemma new_owner_stores σ v (op : @Op T Args) :
  strongs σ !! v = None ->
  (exists p d a, op = SpFromPtr v p d a) \/
  (exists a args, op = SpAllocateShared v a args) \/
  (exists args, op = SpMakeShared v args) ->
  exists σ', state_of (step T_ctor plain_dtor plain_call op σ) = Some σ' /\
    weaks σ' = weaks σ /\ log σ' = log σ /\ objs σ' = objs σ /\
    (strongs σ' = strongs σ \/
     exists p, strongs σ' = <[v := {| sp_ptr := p; sp_cb := Some (next_loc σ) |}]> (strongs σ)).
Proof.
  intros Hv Hop.
  assert (forall a args, exists σ',
            state_of (step T_ctor plain_dtor plain_call (SpAllocateShared v a args) σ) = Some σ' /\
            weaks σ' = weaks σ /\ log σ' = log σ /\ objs σ' = objs σ /\
            (strongs σ' = strongs σ \/
             exists p, strongs σ'
                       = <[v := {| sp_ptr := p; sp_cb := Some (next_loc σ) |}]> (strongs σ)))
    as Hfactory.
  { intros a args. cbn [step]. unfold allocateShared, allocate, construct, bind.
    destruct (always_fails a).
    { exists σ. cbn [state_of]. split; [done|]. repeat split; try done. by left. }
    destruct (T_ctor args) as [x|].
    - unfold put_block, SharedPtr_from_block, incr_shared, bind, get_block, put_block, ret,
        new_strong.
      cbn [heap set_heap strongs]. rewrite lookup_insert_eq. cbn [strongs set_heap].
      rewrite Hv. eexists. split; [reflexivity|].
      cbn [weaks log objs strongs set_strongs set_heap].
      split; [done|]. split; [done|]. split; [done|]. right. by exists nullptr.
    - unfold throw. eexists. split; [reflexivity|]. cbn [weaks log objs strongs].
      split; [done|]. split; [done|]. split; [done|]. by left. }
  destruct Hop as [(p & d & a & ->)|[(a & args & ->)|(args & ->)]].
  - cbn [step]. unfold SharedPtr_ptr_ctor, allocate, bind.
    destruct (always_fails a).
    { exists σ. cbn [state_of]. split; [done|]. repeat split; try done. by left. }
    unfold put_block, incr_shared, bind, get_block, put_block, ret, new_strong.
    cbn [heap set_heap strongs]. rewrite lookup_insert_eq. cbn [strongs set_heap].
    rewrite Hv. eexists. split; [reflexivity|].
    cbn [weaks log objs strongs set_strongs set_heap].
    split; [done|]. split; [done|]. split; [done|]. right. by exists p.
  - apply Hfactory.
  - apply (Hfactory std_allocator args).
Qed.

(** X23.  Making a new owner never disturbs the handles that exist: in a
    state a run reaches, whether [SharedPtr(p, d, a)], [allocateShared] or
    [makeShared] returns or throws, nothing is logged, every existing
    strong and weak handle object is as before, and each reports the same
    [use_count()] as before. *)
Theorem new_owner_frames_existing (ops : list (@Op T Args)) σ v :
  Z.of_nat (length ops) + 1 < SIZE_MOD ->
  exec T_ctor plain_dtor plain_call ops init = Some σ ->
  strongs σ !! v = None ->
  forall op,
    (exists p d a, op = SpFromPtr v p d a) \/
    (exists a args, op = SpAllocateShared v a args) \/
    (exists args, op = SpMakeShared v args) ->
    exists σ', state_of (step T_ctor plain_dtor plain_call op σ) = Some σ' /\
      weaks σ' = weaks σ /\ log σ' = log σ /\ objs σ' = objs σ /\
      (forall v' h', strongs σ !! v' = Some h' ->
         strongs σ' !! v' = Some h' /\
         forall b, sp_cb h' = Some b ->
           SharedPtr_use_count v' σ' = Ok (Z.of_nat (srefs b σ)) σ') /\
      (forall w hw b, weaks σ !! w = Some hw -> wp_cb hw = Some b ->
         WeakPtr_use_count w σ' = Ok (Z.of_nat (srefs b σ)) σ').
Proof.
  intros Hlen Hex Hv op Hop.
  destruct (reachable_inv ops σ Hlen Hex) as [HI HB].
  destruct (new_owner_stores σ v op Hv Hop) as (σ' & Hstep & Hwk & Hlog & Hobjs & Hst).
  destruct (step_sound T_ctor op σ σ' HI HB Hstep) as (HI' & _).
  assert (forall b, (0 < srefs b σ + wrefs b σ)%nat -> srefs b σ' = srefs b σ) as Hsame.
  { intros b Hpos. destruct (Inv_live σ b HI Hpos) as (_ & _ & Hlt & _).
    destruct Hst as [Hst|[p Hst]]; unfold srefs; rewrite Hst; [done|].
    rewrite refs_insert_None by done. cbn [sp_cb]. unfold tref.
    destruct (decide (Some (next_loc σ) = Some b)) as [[= Heq]|_]; lia. }
  assert (forall v' h', strongs σ !! v' = Some h' -> strongs σ' !! v' = Some h') as Hkeep.
  { intros v' h' Hv'. destruct Hst as [Hst|[p Hst]]; rewrite Hst; [done|].
    rewrite lookup_insert_ne; [done|]. congruence. }
  exists σ'. split; [done|]. split; [done|]. split; [done|]. split; [done|]. split.
  - intros v' h' Hv'. split; [by apply Hkeep|].
    intros b Hb. destruct (Inv_use_count σ' v' h' b HI' (Hkeep v' h' Hv') Hb) as [Hu _].
    rewrite Hu. rewrite Hsame; [done|].
    pose proof (refs_lookup_pos sp_cb (strongs σ) b v' h' Hv' Hb). unfold srefs. lia.
  - intros w hw b Hw Hb.
    assert (weaks σ' !! w = Some hw) as Lw by (by rewrite Hwk).
    destruct (Inv_weak_use_count σ' w hw b HI' Lw Hb) as (Hu & _).
    rewrite Hu. rewrite Hsame; [done|].
    pose proof (refs_lookup_pos wp_cb (weaks σ) b w hw Hw Hb). unfold wrefs. lia.
Qed.

(** ** The statement that gives up the last strong reference *)









(** X25.  When the only strong handle on a block is let go in a state a
    run reaches and the block owns, through [std::default_delete], an
    address that holds no live object made by [new] (the object was
    deleted through another owner, or the pointer is not one [new]
    returned), the [delete] in [destroy()] is undefined: both the
    destructor of the handle and [reset()] are. *)
Theorem release_without_object_undefined (ops : list (@Op T Args)) σ v h b cb :
  Z.of_nat (length ops) + 1 < SIZE_MOD ->
  exec T_ctor plain_dtor plain_call ops init = Some σ ->
  strongs σ !! v = Some h -> sp_cb h = Some b -> srefs b σ = 1%nat ->
  heap σ !! b = Some (Constructed cb) -> ~ deletable (body cb) σ ->
  step T_ctor plain_dtor plain_call (SpDestroy v) σ = UB /\
  step T_ctor plain_dtor plain_call (SpReset v) σ = UB.
Proof.
  intros Hlen Hex Hv Hc H1 Hcb Hnd.
  destruct (reachable_inv ops σ Hlen Hex) as [HI _].
  destruct (Inv_live σ b HI) as (cb' & Hcb' & _ & Hsc & _); [lia|].
  assert (cb' = cb) as -> by congruence. rewrite H1 in Hsc.
  split.
  - cbn [step]. unfold take_strong, bind, get_strong, end_strong, ret. rewrite Hv.
    cbn beta iota.
    apply (SharedPtr_dtor_undefined h b cb); [done|done|done|].
    intros Hd. apply Hnd. by apply (deletable_objs _ (set_strongs (delete v (strongs σ)) σ) σ).
  - cbn [step]. unfold SharedPtr_reset. unfold bind.
    rewrite (SharedPtr_swap_temp_eq v SharedPtr_null h σ Hv).
    apply (SharedPtr_dtor_undefined h b cb); [done|done|done|].
    intros Hd. apply Hnd.
    by apply (deletable_objs _ (set_strongs (<[v := SharedPtr_null]> (strongs σ)) σ) σ).
Qed.


End MoreProperties.



(** ** The further properties on the two-block state *)

Lemma scoped_run_never_undefined_witness :
  exists σ, exec value_ctor plain_dtor plain_call two_blocks init = Some σ.
Proof.
  apply (scoped_run_never_undefined value_ctor two_blocks).
  - vm_compute. reflexivity.
  - unfold two_blocks. scoped_by_computation.
Defined.

Lemma use_count_counts_strong_handles_witness :
  SharedPtr_use_count "a" s_two = Ok (Z.of_nat (srefs 0%nat s_two)) s_two /\
  (1 <= srefs 0%nat s_two)%nat.
Proof.
  apply (use_count_counts_strong_handles value_ctor two_blocks s_two "a"
           {| sp_ptr := widget; sp_cb := Some 0%nat |} 0%nat).
  - vm_compute. reflexivity.
  - vm_compute. reflexivity.
  - vm_compute. reflexivity.
  - reflexivity.
Defined.

Lemma weak_use_count_and_expired_witness :
  WeakPtr_use_count "w" s_two = Ok (Z.of_nat (srefs 0%nat s_two)) s_two /\
  WeakPtr_expired "w" s_two = Ok (bool_decide (srefs 0%nat s_two = 0%nat)) s_two /\
  exists cb, heap s_two !! 0%nat = Some (Constructed cb) /\
             weak_count cb = Z.of_nat (wrefs 0%nat s_two) /\ (1 <= wrefs 0%nat s_two)%nat.
Proof.
  apply (weak_use_count_and_expired value_ctor two_blocks s_two "w"
           {| wp_ptr := widget; wp_cb := Some 0%nat |} 0%nat).
  - vm_compute. reflexivity.
  - vm_compute. reflexivity.
  - vm_compute. reflexivity.
  - reflexivity.
Defined.

Lemma block_live_iff_referenced_witness :
  (exists cb, heap s_two !! 1%nat = Some (Constructed cb)) <->
  (0 < srefs 1%nat s_two + wrefs 1%nat s_two)%nat.
Proof.
  apply (block_live_iff_referenced value_ctor two_blocks s_two 1%nat).
  - vm_compute. reflexivity.
  - vm_compute. reflexivity.
Defined.

Lemma deallocate_only_after_destroy_witness :
  (deallocs 0%nat s3 <= destroys 0%nat s3)%nat /\ (destroys 0%nat s3 <= 1)%nat /\
  (deallocs 0%nat s3 = 1%nat -> heap s3 !! 0%nat = None).
Proof.
  apply (deallocate_only_after_destroy value_ctor
           (scenario_before ++ [SpReset "b"] ++ scenario_after) s3 0%nat).
  - vm_compute. reflexivity.
  - vm_compute. reflexivity.
Defined.

Lemma SharedPtr_swap_exchanges_witness :
  let σ' := set_strongs (<["c" := {| sp_ptr := widget; sp_cb := Some 0%nat |}]> (<["a" := {| sp_ptr := nullptr; sp_cb := Some 1%nat |}]> (strongs s_two))) s_two in
  step value_ctor plain_dtor plain_call (SpSwap "a" "c") s_two = Ok tt σ' /\
  strongs σ' !! "a" = Some {| sp_ptr := nullptr; sp_cb := Some 1%nat |} /\ strongs σ' !! "c" = Some {| sp_ptr := widget; sp_cb := Some 0%nat |} /\
  (forall n, SharedPtr_use_count "c" s_two = Ok n s_two ->
             SharedPtr_use_count "a" σ' = Ok n σ') /\
  (forall n, SharedPtr_use_count "a" s_two = Ok n s_two ->
             SharedPtr_use_count "c" σ' = Ok n σ') /\
  step value_ctor plain_dtor plain_call (SpSwap "a" "c") σ' = Ok tt s_two /\
  ("a" = "c" -> σ' = s_two).
Proof.
  apply (SharedPtr_swap_exchanges value_ctor s_two "a" "c" {| sp_ptr := widget; sp_cb := Some 0%nat |} {| sp_ptr := nullptr; sp_cb := Some 1%nat |}).
  - vm_compute. reflexivity.
  - vm_compute. reflexivity.
Defined.

Lemma WeakPtr_swap_exchanges_witness :
  let σ' := set_weaks (<["u" := {| wp_ptr := widget; wp_cb := Some 0%nat |}]> (<["w" := {| wp_ptr := nullptr; wp_cb := Some 1%nat |}]> (weaks s_two))) s_two in
  step value_ctor plain_dtor plain_call (WpSwap "w" "u") s_two = Ok tt σ' /\
  weaks σ' !! "w" = Some {| wp_ptr := nullptr; wp_cb := Some 1%nat |} /\ weaks σ' !! "u" = Some {| wp_ptr := widget; wp_cb := Some 0%nat |} /\
  (forall n, WeakPtr_use_count "u" s_two = Ok n s_two ->
             WeakPtr_use_count "w" σ' = Ok n σ') /\
  (forall n, WeakPtr_use_count "w" s_two = Ok n s_two ->
             WeakPtr_use_count "u" σ' = Ok n σ') /\
  (forall e, WeakPtr_expired "u" s_two = Ok e s_two ->
             WeakPtr_expired "w" σ' = Ok e σ') /\
  (forall e, WeakPtr_expired "w" s_two = Ok e s_two ->
             WeakPtr_expired "u" σ' = Ok e σ') /\
  step value_ctor plain_dtor plain_call (WpSwap "w" "u") σ' = Ok tt s_two /\
  ("w" = "u" -> σ' = s_two).
Proof.
  apply (WeakPtr_swap_exchanges value_ctor s_two "w" "u" {| wp_ptr := widget; wp_cb := Some 0%nat |} {| wp_ptr := nullptr; wp_cb := Some 1%nat |}).
  - vm_compute. reflexivity.
  - vm_compute. reflexivity.
Defined.

Lemma SharedPtr_move_transfers_witness :
  let σ' := set_strongs (<["m" := {| sp_ptr := widget; sp_cb := Some 0%nat |}]> (<["a" := SharedPtr_null]> (strongs s_two))) s_two in
  step value_ctor plain_dtor plain_call (SpMove "m" "a") s_two = Ok tt σ' /\
  SharedPtr_use_count "a" σ' = Ok 0 σ' /\
  SharedPtr_get "a" σ' = Ok nullptr σ' /\
  SharedPtr_deref "a" σ' = UB /\
  SharedPtr_get "m" σ' = Ok (sp_ptr {| sp_ptr := widget; sp_cb := Some 0%nat |}) σ' /\
  (forall n, SharedPtr_use_count "a" s_two = Ok n s_two ->
             SharedPtr_use_count "m" σ' = Ok n σ') /\
  (forall b, srefs b σ' = srefs b s_two).
Proof.
  apply (SharedPtr_move_transfers value_ctor s_two "m" "a" {| sp_ptr := widget; sp_cb := Some 0%nat |}).
  - vm_compute. reflexivity.
  - vm_compute. reflexivity.
Defined.

Lemma WeakPtr_move_transfers_witness :
  let σ' := set_weaks (<["m" := {| wp_ptr := widget; wp_cb := Some 0%nat |}]> (<["w" := WeakPtr_null]> (weaks s_two))) s_two in
  step value_ctor plain_dtor plain_call (WpMove "m" "w") s_two = Ok tt σ' /\
  WeakPtr_use_count "w" σ' = Ok 0 σ' /\
  WeakPtr_expired "w" σ' = Ok true σ' /\
  WeakPtr_lock "w" σ' = Ok SharedPtr_null σ' /\
  (forall n, WeakPtr_use_count "w" s_two = Ok n s_two ->
             WeakPtr_use_count "m" σ' = Ok n σ') /\
  (forall b, wrefs b σ' = wrefs b s_two).
Proof.
  apply (WeakPtr_move_transfers value_ctor s_two "m" "w" {| wp_ptr := widget; wp_cb := Some 0%nat |}).
  - vm_compute. reflexivity.
  - vm_compute. reflexivity.
Defined.

Lemma copy_assignment_rebinds_witness :
  exists σ', step value_ctor plain_dtor plain_call (SpAssign "c" "a") s_two = Ok tt σ' /\
    strongs σ' = <["c" := {| sp_ptr := widget; sp_cb := Some 0%nat |}]> (strongs s_two) /\ weaks σ' = weaks s_two /\
    (forall b, (srefs b σ' + tref b (sp_cb {| sp_ptr := nullptr; sp_cb := Some 1%nat |}) = srefs b s_two + tref b (sp_cb {| sp_ptr := widget; sp_cb := Some 0%nat |}))%nat) /\
    (forall b, sp_cb {| sp_ptr := widget; sp_cb := Some 0%nat |} = Some b ->
       SharedPtr_use_count "c" σ' = Ok (Z.of_nat (srefs b σ')) σ' /\
       SharedPtr_use_count "a" σ' = Ok (Z.of_nat (srefs b σ')) σ') /\
    (sp_cb {| sp_ptr := widget; sp_cb := Some 0%nat |} = None -> SharedPtr_use_count "c" σ' = Ok 0 σ').
Proof.
  apply (copy_assignment_rebinds value_ctor two_blocks s_two "c" "a" {| sp_ptr := nullptr; sp_cb := Some 1%nat |} {| sp_ptr := widget; sp_cb := Some 0%nat |}).
  - vm_compute. reflexivity.
  - vm_compute. reflexivity.
  - vm_compute. reflexivity.
  - vm_compute. reflexivity.
  - vm_compute. eauto.
Defined.

Lemma move_assignment_transfers_witness :
  exists σ', step value_ctor plain_dtor plain_call (SpMoveAssign "c" "a") s_two = Ok tt σ' /\
    strongs σ' = <["c" := {| sp_ptr := widget; sp_cb := Some 0%nat |}]> (<["a" := SharedPtr_null]> (strongs s_two)) /\
    weaks σ' = weaks s_two /\
    SharedPtr_use_count "a" σ' = Ok 0 σ' /\
    (forall b, (srefs b σ' + tref b (sp_cb {| sp_ptr := nullptr; sp_cb := Some 1%nat |}))%nat = srefs b s_two) /\
    (forall b, sp_cb {| sp_ptr := widget; sp_cb := Some 0%nat |} = Some b ->
       SharedPtr_use_count "c" σ' = Ok (Z.of_nat (srefs b σ')) σ').
Proof.
  apply (move_assignment_transfers value_ctor two_blocks s_two "c" "a" {| sp_ptr := nullptr; sp_cb := Some 1%nat |} {| sp_ptr := widget; sp_cb := Some 0%nat |}).
  - vm_compute. reflexivity.
  - vm_compute. reflexivity.
  - vm_compute. reflexivity.
  - vm_compute. reflexivity.
  - discriminate.
  - vm_compute. eauto.
Defined.

Lemma reset_releases_witness :
  exists σ', step value_ctor plain_dtor plain_call (SpReset "c") s_two = Ok tt σ' /\
    strongs σ' = <["c" := SharedPtr_null]> (strongs s_two) /\ weaks σ' = weaks s_two /\
    SharedPtr_use_count "c" σ' = Ok 0 σ' /\
    SharedPtr_get "c" σ' = Ok nullptr σ' /\
    (forall b, (srefs b σ' + tref b (sp_cb {| sp_ptr := nullptr; sp_cb := Some 1%nat |}))%nat = srefs b s_two) /\
    (forall b w hw, sp_cb {| sp_ptr := nullptr; sp_cb := Some 1%nat |} = Some b -> srefs b s_two = 1%nat ->
       weaks s_two !! w = Some hw -> wp_cb hw = Some b ->
       WeakPtr_expired w σ' = Ok true σ' /\
       WeakPtr_lock w σ' = Ok SharedPtr_null σ' /\
       exists cb, heap σ' !! b = Some (Constructed cb) /\ shared_count cb = 0).
Proof.
  apply (reset_releases value_ctor two_blocks s_two "c" {| sp_ptr := nullptr; sp_cb := Some 1%nat |}).
  - vm_compute. reflexivity.
  - vm_compute. reflexivity.
  - vm_compute. reflexivity.
  - vm_compute. eauto.
Defined.

Lemma reset_ptr_rebinds_witness :
  (always_fails std_allocator = true ->
   step value_ctor plain_dtor plain_call (SpResetPtr "c" (at_object 8%nat) default_delete std_allocator) s_two
   = Throw s_two) /\
  (always_fails std_allocator = false ->
   exists σ',
     step value_ctor plain_dtor plain_call (SpResetPtr "c" (at_object 8%nat) default_delete std_allocator) s_two
     = Ok tt σ' /\
     strongs σ' = <["c" := {| sp_ptr := at_object 8%nat; sp_cb := Some (next_loc s_two) |}]>
                    (strongs s_two) /\
     weaks σ' = weaks s_two /\
     SharedPtr_get "c" σ' = Ok (at_object 8%nat) σ' /\
     SharedPtr_use_count "c" σ' = Ok 1 σ' /\
     (forall b, b <> next_loc s_two ->
                (srefs b σ' + tref b (sp_cb {| sp_ptr := nullptr; sp_cb := Some 1%nat |}))%nat = srefs b s_two)).
Proof.
  apply (reset_ptr_rebinds value_ctor two_blocks s_two "c" {| sp_ptr := nullptr; sp_cb := Some 1%nat |}).
  - vm_compute. reflexivity.
  - vm_compute. reflexivity.
  - vm_compute. reflexivity.
  - vm_compute. eauto.
Defined.

Lemma strong_dtor_lowers_use_count_witness :
  exists σ', step value_ctor plain_dtor plain_call (SpDestroy "a") s_two = Ok tt σ' /\
    strongs σ' = delete "a" (strongs s_two) /\ weaks σ' = weaks s_two /\
    (forall b, (srefs b σ' + tref b (sp_cb {| sp_ptr := widget; sp_cb := Some 0%nat |}))%nat = srefs b s_two) /\
    (forall v' h' b, v' <> "a" -> strongs s_two !! v' = Some h' -> sp_cb h' = Some b ->
       SharedPtr_use_count v' s_two = Ok (Z.of_nat (srefs b s_two)) s_two /\
       SharedPtr_use_count v' σ'
       = Ok (Z.of_nat (srefs b s_two) - Z.of_nat (tref b (sp_cb {| sp_ptr := widget; sp_cb := Some 0%nat |}))) σ').
Proof.
  apply (strong_dtor_lowers_use_count value_ctor two_blocks s_two "a" {| sp_ptr := widget; sp_cb := Some 0%nat |}).
  - vm_compute. reflexivity.
  - vm_compute. reflexivity.
  - vm_compute. reflexivity.
  - vm_compute. eauto.
Defined.

Lemma weak_dtor_only_deallocates_witness :
  exists σ', step value_ctor plain_dtor plain_call (WpDestroy "w") s2 = Ok tt σ' /\
    weaks σ' = delete "w" (weaks s2) /\ strongs σ' = strongs s2 /\ objs σ' = objs s2 /\
    log σ' = log s2 ++
      match wp_cb {| wp_ptr := widget; wp_cb := Some 0%nat |} with
      | Some b => if decide (srefs b s2 = 0%nat /\ wrefs b s2 = 1%nat)
                  then [EvDeallocate b] else []
      | None => []
      end /\
    (forall v hv b, strongs s2 !! v = Some hv -> sp_cb hv = Some b ->
       SharedPtr_use_count v s2 = Ok (Z.of_nat (srefs b s2)) s2 /\
       SharedPtr_use_count v σ' = Ok (Z.of_nat (srefs b s2)) σ').
Proof.
  apply (weak_dtor_only_deallocates value_ctor (scenario_before ++ [SpReset "b"]) s2 "w" {| wp_ptr := widget; wp_cb := Some 0%nat |}).
  - vm_compute. reflexivity.
  - vm_compute. reflexivity.
  - vm_compute. reflexivity.
Defined.

Lemma last_strong_handle_release_witness :
  exists σ' σ'',
    step value_ctor plain_dtor plain_call (SpDestroy "b") s1 = Ok tt σ' /\
    step value_ctor plain_dtor plain_call (SpReset "b") s1 = Ok tt σ'' /\
    log σ' = log s1 ++ [EvDestroy 0%nat; EvDeleter default_delete widget] /\
    objs σ' = delete 7%nat (objs s1) /\
    log σ'' = log σ' /\ objs σ'' = objs σ' /\ heap σ'' = heap σ'.
Proof.
  destruct (last_strong_handle_release value_ctor scenario_before s1 "b" {| sp_ptr := widget; sp_cb := Some 0%nat |} 0%nat
              {| shared_count := 1; weak_count := 1;
                 body := ControlBlockRegular widget default_delete std_allocator |})
    as (σ' & σ'' & Hd & Hr & Hlog & Hobjs & _ & Hl & Ho & Hh).
  - vm_compute. reflexivity.
  - vm_compute. reflexivity.
  - vm_compute. reflexivity.
  - reflexivity.
  - vm_compute. reflexivity.
  - vm_compute. reflexivity.
  - vm_compute. eauto.
  - exists σ', σ''. split; [exact Hd|]. split; [exact Hr|]. split; [exact Hlog|].
    split; [exact Hobjs|]. split; [exact Hl|]. split; [exact Ho|exact Hh].
Defined.

Lemma assign_within_block_is_silent_witness :
  step value_ctor plain_dtor plain_call (SpAssign "b" "a") s_two
  = Ok tt (set_strongs (<["b" := {| sp_ptr := widget; sp_cb := Some 0%nat |}]> (strongs s_two)) s_two).
Proof.
  apply (assign_within_block_is_silent value_ctor two_blocks s_two "b" "a" {| sp_ptr := widget; sp_cb := Some 0%nat |} {| sp_ptr := widget; sp_cb := Some 0%nat |} 0%nat).
  - vm_compute. reflexivity.
  - vm_compute. reflexivity.
  - vm_compute. reflexivity.
  - vm_compute. reflexivity.
  - reflexivity.
  - reflexivity.
Defined.

Lemma strong_temporary_leaves_no_trace_witness :
  exec value_ctor plain_dtor plain_call [SpCopy "t" "a"; SpDestroy "t"] s_two = Some s_two /\
  exec value_ctor plain_dtor plain_call [WpLock "t" "w"; SpDestroy "t"] s_two = Some s_two.
Proof.
  apply (strong_temporary_leaves_no_trace value_ctor two_blocks s_two "a" "w" "t" {| sp_ptr := widget; sp_cb := Some 0%nat |} {| wp_ptr := widget; wp_cb := Some 0%nat |}).
  - vm_compute. reflexivity.
  - vm_compute. reflexivity.
  - vm_compute. reflexivity.
  - vm_compute. reflexivity.
  - vm_compute. reflexivity.
Defined.

Lemma weak_temporary_leaves_no_trace_witness :
  exec value_ctor plain_dtor plain_call [WpCopy "t" "w"; WpDestroy "t"] s_two = Some s_two /\
  exec value_ctor plain_dtor plain_call [WpFromShared "t" "a"; WpDestroy "t"] s_two = Some s_two.
Proof.
  apply (weak_temporary_leaves_no_trace value_ctor two_blocks s_two "a" "w" "t" {| sp_ptr := widget; sp_cb := Some 0%nat |} {| wp_ptr := widget; wp_cb := Some 0%nat |}).
  - vm_compute. reflexivity.
  - vm_compute. reflexivity.
  - vm_compute. reflexivity.
  - vm_compute. reflexivity.
  - vm_compute. reflexivity.
Defined.

Lemma weak_from_shared_observes_witness :
  exists σ', step value_ctor plain_dtor plain_call (WpFromShared "x" "c") s_two = Ok tt σ' /\
    weaks σ' = <["x" := {| wp_ptr := sp_ptr {| sp_ptr := nullptr; sp_cb := Some 1%nat |}; wp_cb := sp_cb {| sp_ptr := nullptr; sp_cb := Some 1%nat |} |}]> (weaks s_two) /\
    strongs σ' = strongs s_two /\ log σ' = log s_two /\ objs σ' = objs s_two /\
    (forall b, sp_cb {| sp_ptr := nullptr; sp_cb := Some 1%nat |} = Some b ->
       SharedPtr_use_count "c" σ' = Ok (Z.of_nat (srefs b s_two)) σ' /\
       WeakPtr_use_count "x" σ' = Ok (Z.of_nat (srefs b s_two)) σ' /\
       WeakPtr_expired "x" σ' = Ok false σ' /\
       wrefs b σ' = S (wrefs b s_two)) /\
    (sp_cb {| sp_ptr := nullptr; sp_cb := Some 1%nat |} = None -> WeakPtr_expired "x" σ' = Ok true σ' /\ heap σ' = heap s_two).
Proof.
  apply (weak_from_shared_observes value_ctor two_blocks s_two "c" "x" {| sp_ptr := nullptr; sp_cb := Some 1%nat |}).
  - vm_compute. reflexivity.
  - vm_compute. reflexivity.
  - vm_compute. reflexivity.
  - vm_compute. reflexivity.
Defined.

Lemma deref_without_value_witness :
  SharedPtr_deref "n" s_two = UB /\ SharedPtr_arrow "n" s_two = UB /\
  SharedPtr_deref "a" s_two = Ok 5 s_two /\
  SharedPtr_arrow "a" s_two = Ok (at_object 7%nat) s_two /\
  exists σ', step value_ctor plain_dtor plain_call (SpFromPtr "z" nullptr default_delete std_allocator) s_two
             = Ok tt σ' /\
    SharedPtr_use_count "z" σ' = Ok 1 σ' /\
    SharedPtr_get "z" σ' = Ok nullptr σ' /\
    SharedPtr_deref "z" σ' = UB /\ SharedPtr_arrow "z" σ' = UB.
Proof.
  apply (deref_without_value value_ctor s_two "n" "a" "z" {| sp_ptr := widget; sp_cb := Some 0%nat |} 7%nat 5
           default_delete std_allocator).
  - vm_compute. reflexivity.
  - vm_compute. reflexivity.
  - reflexivity.
  - vm_compute. reflexivity.
  - vm_compute. reflexivity.
  - reflexivity.
Defined.

Lemma weak_assignment_rebinds_witness :
  (exists σ', step value_ctor plain_dtor plain_call (WpAssign "u" "w") s_two = Ok tt σ' /\
     weaks σ' = <["u" := {| wp_ptr := widget; wp_cb := Some 0%nat |}]> (weaks s_two) /\ strongs σ' = strongs s_two /\
     (forall b, (wrefs b σ' + tref b (wp_cb {| wp_ptr := nullptr; wp_cb := Some 1%nat |}) = wrefs b s_two + tref b (wp_cb {| wp_ptr := widget; wp_cb := Some 0%nat |}))%nat) /\
     (forall b, wp_cb {| wp_ptr := widget; wp_cb := Some 0%nat |} = Some b ->
        WeakPtr_use_count "u" σ' = Ok (Z.of_nat (srefs b s_two)) σ' /\
        WeakPtr_expired "u" σ' = Ok (bool_decide (srefs b s_two = 0%nat)) σ')) /\
  ("u" <> "w" ->
   exists σ', step value_ctor plain_dtor plain_call (WpMoveAssign "u" "w") s_two = Ok tt σ' /\
     weaks σ' = <["u" := {| wp_ptr := widget; wp_cb := Some 0%nat |}]> (<["w" := WeakPtr_null]> (weaks s_two)) /\
     strongs σ' = strongs s_two /\
     WeakPtr_expired "w" σ' = Ok true σ' /\
     (forall b, (wrefs b σ' + tref b (wp_cb {| wp_ptr := nullptr; wp_cb := Some 1%nat |}))%nat = wrefs b s_two) /\
     (forall b, wp_cb {| wp_ptr := widget; wp_cb := Some 0%nat |} = Some b ->
        WeakPtr_use_count "u" σ' = Ok (Z.of_nat (srefs b s_two)) σ' /\
        WeakPtr_expired "u" σ' = Ok (bool_decide (srefs b s_two = 0%nat)) σ')).
Proof.
  apply (weak_assignment_rebinds value_ctor two_blocks s_two "u" "w" {| wp_ptr := nullptr; wp_cb := Some 1%nat |} {| wp_ptr := widget; wp_cb := Some 0%nat |}).
  - vm_compute. reflexivity.
  - vm_compute. reflexivity.
  - vm_compute. reflexivity.
  - vm_compute. reflexivity.
Defined.

Lemma new_owner_frames_existing_witness :
  exists σ', state_of (step value_ctor plain_dtor plain_call (SpMakeShared "z" 3) s_two) = Some σ' /\
    weaks σ' = weaks s_two /\ log σ' = log s_two /\ objs σ' = objs s_two /\
    (forall v' h', strongs s_two !! v' = Some h' ->
       strongs σ' !! v' = Some h' /\
       forall b, sp_cb h' = Some b ->
         SharedPtr_use_count v' σ' = Ok (Z.of_nat (srefs b s_two)) σ') /\
    (forall w hw b, weaks s_two !! w = Some hw -> wp_cb hw = Some b ->
       WeakPtr_use_count w σ' = Ok (Z.of_nat (srefs b s_two)) σ').
Proof.
  apply (new_owner_frames_existing value_ctor two_blocks s_two "z").
  - vm_compute. reflexivity.
  - vm_compute. reflexivity.
  - vm_compute. reflexivity.
  - right. right. exists 3. reflexivity.
Defined.

(** The second owner of an object that the first owner has deleted. *)
Lemma release_without_object_undefined_witness :
  step value_ctor plain_dtor plain_call (SpDestroy "b") s_owners = UB /\
  step value_ctor plain_dtor plain_call (SpReset "b") s_owners = UB.
Proof.
  apply (release_without_object_undefined value_ctor two_owners s_owners "b"
           {| sp_ptr := widget; sp_cb := Some 1%nat |} 1%nat
           {| shared_count := 1; weak_count := 0;
              body := ControlBlockRegular widget default_delete std_allocator |}).
  - vm_compute. reflexivity.
  - vm_compute. reflexivity.
  - vm_compute. reflexivity.
  - reflexivity.
  - vm_compute. reflexivity.
  - vm_compute. reflexivity.
  - vm_compute. intros [x Hx]. discriminate Hx.
Defined.
